(** * OnlyNyans nonogram core: clue calculation, backtracking solver,
      puzzle generator, puzzle loading, play mode, grid widget and editor,
      embedded from the JavaScript sources and verified against the
      specification.

    Conventions of the embedding.
    - A JavaScript array is a [list]; [a[i]] is the lookup [a !! i], whose
      [None] is JavaScript's [undefined].
    - A grid cell holds a JavaScript value: a number, or [undefined] when a
      row is read past its end.
    - A [TypeError] raised by the source (reading [.length] of [undefined])
      is the [TypeError] outcome of the [result] monad.
    - In-place mutation of the working grid and of the [solutions] array is
      explicit state passing.
    - The numbers [Math.random()] returns and the fill percentage computed
      from them are doubles, held as the rationals they denote; sums and
      products are rounded as IEEE 754 binary64 rounds them.
    - What [Utils.readJSON] hands to [loadPuzzle] is any parsed JSON
      text. *)

From Stdlib Require Import ZArith QArith Qround Qabs String.
From Stdlib Require Import PrimFloat FloatOps SpecFloat.
From stdpp Require Import base tactics option list numbers strings pretty.

Local Open Scope Z_scope.

(** ** Values and outcomes *)

(** The values a grid cell can hold in the source: numbers ([-1] unknown,
    [0] empty, [1] filled, [2] marked) and [undefined]. *)
Inductive value : Type :=
  | Num (n : Z)
  | Undefined.

#[global] Instance value_eq_dec : EqDecision value.
Proof. solve_decision. Defined.

Abbreviation Line := (list value) (only parsing).
Abbreviation Grid := (list (list value)) (only parsing).
Abbreviation Clue := (list Z) (only parsing).

(** A line given by its numbers. *)
Definition cells (l : list Z) : Line := Num <$> l.

Definition Unknown : value := Num (-1).
Definition Empty : value := Num 0.
Definition Filled : value := Num 1.

(** Outcome of a call: a returned value, or an uncaught [TypeError]. *)
Inductive result (A : Type) : Type :=
  | Ok (a : A)
  | TypeError.
Arguments Ok {A} a.
Arguments TypeError {A}.

Definition bind {A B} (m : result A) (f : A → result B) : result B :=
  match m with
  | Ok a => f a
  | TypeError => TypeError
  end.

Notation "'let*' x := m 'in' k" := (bind m (fun x => k))
  (at level 10, x pattern, m at level 100, k at level 200).

(** [a[i]] followed by a property access: [undefined] makes it throw. *)
Definition deref {A} (a : list A) (i : nat) : result A :=
  match a !! i with
  | Some x => Ok x
  | None => TypeError
  end.

(** ** Clues (clues.js) *)

Module Clues.

(** One iteration of the loop of [calculateLine] on the state
    [(clues, count)]. *)
Definition calculateLine_step (st : Clue * Z) (cell : value) : Clue * Z :=
  let '(clues, count) := st in
  if decide (cell = Num 1) then (clues, count + 1)
  else if decide (0 < count) then (clues ++ [count], 0)
  else (clues, count).

Definition calculateLine (line : Line) : Clue :=
  let '(clues, count) := foldl calculateLine_step ([], 0) line in
  let clues := if decide (0 < count) then clues ++ [count] else clues in
  if decide (0 < length clues)%nat then clues else [0].

Definition calculateRows (grid : Grid) : list Clue :=
  calculateLine <$> grid.

(** [grid[row][col]] for every row, in index order; a row that is too
    short reads as [undefined]. *)
Definition column (grid : Grid) (col : nat) : Line :=
  (λ row : Line, default Undefined (row !! col)) <$> grid.

Definition calculateColumns (grid : Grid) : list Clue :=
  (λ col, calculateLine (column grid col)) <$> seq 0 (length grid).

Record ClueSet : Type := mkClueSet {
  rowClues : list Clue;
  colClues : list Clue
}.

Definition calculateAll (grid : Grid) : ClueSet :=
  {| rowClues := calculateRows grid; colClues := calculateColumns grid |}.

End Clues.

(** ** Array helpers (utils.js) *)

Module Utils.

Definition create2DArray (rows cols : nat) (defaultValue : value) : Grid :=
  replicate rows (replicate cols defaultValue).

(** [array.map(row => [...row])] *)
Definition copy2DArray (array : Grid) : Grid :=
  (λ row : Line, row) <$> array.

End Utils.

(** ** Solver *)

Module Solver.
Import Clues Utils.

(** [segments[segments.length - 1]++]; on an empty array the source
    writes a non-index property and the elements stay as they are. *)
Definition incr_last (segments : list Z) : list Z :=
  match length segments with
  | O => segments
  | S i => alter Z.succ i segments
  end.

(** One iteration of the first loop of [canMatchClues] on the state
    [(segments, inSegment)]. *)
Definition segments_step (st : list Z * bool) (cell : value)
  : list Z * bool :=
  let '(segments, inSegment) := st in
  if decide (cell = Num 1) then
    let segments := if inSegment then segments else segments ++ [0] in
    (incr_last segments, true)
  else if decide (cell = Num 0) then (segments, false)
  else (segments, inSegment).

(** The second loop of [canMatchClues]: [segments[i] > clues[i]] for
    every index of [segments]; a comparison with [undefined] is false. *)
Fixpoint segments_fit (segments clues : list Z) : bool :=
  match segments, clues with
  | [], _ => true
  | s :: segments, c :: clues =>
      if decide (c < s) then false else segments_fit segments clues
  | _ :: segments, [] => segments_fit segments []
  end.

Definition canMatchClues (line : Line) (clues : Clue) : bool :=
  let '(segments, _) := foldl segments_step ([], false) line in
  if decide (length clues < length segments)%nat then false
  else segments_fit segments clues.

(** The loop of [cluesMatch], entered with arrays of equal length. *)
Fixpoint cluesMatch_loop (clues1 clues2 : Clue) : bool :=
  match clues1, clues2 with
  | [], _ => true
  | a :: clues1, b :: clues2 =>
      if decide (a ≠ b) then false else cluesMatch_loop clues1 clues2
  | _ :: _, [] => false
  end.

Definition cluesMatch (clues1 clues2 : Clue) : bool :=
  if decide (length clues1 ≠ length clues2) then false
  else cluesMatch_loop clues1 clues2.

Definition complete (line : Line) : bool :=
  forallb (λ cell, bool_decide (cell ≠ Unknown)) line.

(** The check of one line of [isValidPartial]: exact when the line is
    complete, [canMatchClues] otherwise.  The expected clue is
    [clues[i]]; both callees read its [length], which throws on
    [undefined]. *)
Definition line_feasible (line : Line) (clues : list Clue) (i : nat)
  : result bool :=
  if complete line then
    let* expected := deref clues i in
    Ok (cluesMatch (calculateLine line) expected)
  else
    let* expected := deref clues i in
    Ok (canMatchClues line expected).

Definition isValidPartial (grid : Grid) (rowClues colClues : list Clue)
    (row col : nat) : result bool :=
  let* line := deref grid row in
  let* row_ok := line_feasible line rowClues row in
  if negb row_ok then Ok false
  else
    let* col_ok := line_feasible (column grid col) colClues col in
    if negb col_ok then Ok false else Ok true.

(** A [for] loop over indices that returns [false] at the first failing
    check. *)
Fixpoint all_match (check : nat → result bool) (indices : list nat)
  : result bool :=
  match indices with
  | [] => Ok true
  | i :: indices =>
      let* ok := check i in
      if ok then all_match check indices else Ok false
  end.

Definition isValidSolution (grid : Grid) (rowClues colClues : list Clue)
  : result bool :=
  let size := length grid in
  let* rows_ok :=
    all_match (λ row,
      let* line := deref grid row in
      let* expected := deref rowClues row in
      Ok (cluesMatch (calculateLine line) expected)) (seq 0 size) in
  if negb rows_ok then Ok false
  else
    all_match (λ col,
      let* expected := deref colClues col in
      Ok (cluesMatch (calculateLine (column grid col)) expected))
      (seq 0 size).

(** [a[i] = v]: writing past the end extends the array, and the cells
    skipped read as [undefined]. *)
Fixpoint array_set (a : Line) (i : nat) (v : value) : Line :=
  match i, a with
  | O, [] => [v]
  | O, _ :: a => v :: a
  | S i, [] => Undefined :: array_set [] i v
  | S i, x :: a => x :: array_set a i v
  end.

(** [grid[row][col] = v] *)
Definition set_cell (grid : Grid) (row col : nat) (v : value)
  : result Grid :=
  let* line := deref grid row in
  Ok (<[row := array_set line col v]> grid).

(** The state a call of [backtrack] leaves behind: its return value, the
    working grid and the [solutions] array. *)
Definition search_state : Type := bool * Grid * list Grid.

(** The body of [backtrack], with the recursive call as [recurse]. *)
Definition backtrack_body
    (recurse : Grid → nat → list Grid → result search_state)
    (grid : Grid) (rowClues colClues : list Clue) (pos : nat)
    (solutions : list Grid) (maxSolutions : Z) : result search_state :=
  let size := length grid in
  if decide (maxSolutions ≤ Z.of_nat (length solutions)) then
    Ok (false, grid, solutions)
  else if decide (size * size ≤ pos)%nat then
    let* valid := isValidSolution grid rowClues colClues in
    let solutions :=
      if valid then solutions ++ [copy2DArray grid] else solutions in
    Ok (bool_decide (Z.of_nat (length solutions) < maxSolutions),
        grid, solutions)
  else
    let row := (pos / size)%nat in
    let col := (pos mod size)%nat in
    let try :=
      (λ (v : value) (grid : Grid) (solutions : list Grid),
         let* grid := set_cell grid row col v in
         let* ok := isValidPartial grid rowClues colClues row col in
         if ok then recurse grid (pos + 1)%nat solutions
         else Ok (true, grid, solutions)) in
    let* (continue, grid, solutions) := try (Num 1) grid solutions in
    if negb continue then
      let* grid := set_cell grid row col Unknown in
      Ok (false, grid, solutions)
    else
      let* (continue, grid, solutions) := try (Num 0) grid solutions in
      if negb continue then
        let* grid := set_cell grid row col Unknown in
        Ok (false, grid, solutions)
      else
        let* grid := set_cell grid row col Unknown in
        Ok (true, grid, solutions).

(** [backtrack] recurses on [pos + 1] while [pos < size * size]; the
    fuel counts the positions left.  [backtrack] below supplies enough of
    it, and [backtrack_unfold] shows that it obeys the source's
    recursive equation, so that the branch without fuel is never the
    answer. *)
Fixpoint backtrack_fuel (fuel : nat) (grid : Grid)
    (rowClues colClues : list Clue) (pos : nat) (solutions : list Grid)
    (maxSolutions : Z) : result search_state :=
  match fuel with
  | O => TypeError
  | S fuel =>
      backtrack_body
        (λ grid pos solutions,
           backtrack_fuel fuel grid rowClues colClues pos solutions
             maxSolutions)
        grid rowClues colClues pos solutions maxSolutions
  end.

Definition backtrack (grid : Grid) (rowClues colClues : list Clue)
    (pos : nat) (solutions : list Grid) (maxSolutions : Z)
  : result search_state :=
  backtrack_fuel (S (length grid * length grid - pos)) grid rowClues
    colClues pos solutions maxSolutions.

Record SolveResult : Type := mkSolveResult {
  solutions : list Grid;
  unique : bool;
  solvable : bool
}.

Definition solve (rowClues colClues : list Clue) (maxSolutions : Z)
  : result SolveResult :=
  let size := length rowClues in
  let grid := create2DArray size size Unknown in
  let* (_, _, solutions) :=
    backtrack grid rowClues colClues 0 [] maxSolutions in
  Ok {| solutions := solutions;
        unique := bool_decide (length solutions = 1%nat);
        solvable := bool_decide (0 < length solutions)%nat |}.

End Solver.

(** ** Numbers in arithmetic (IEEE 754 binary64) *)

Module Double.

(** A finite double is held as the rational it denotes, so that comparing
    two doubles is comparing two rationals.  The sum and the product of
    the source are the exact ones rounded to the nearest double, ties to
    the even significand; a decimal literal is read the same way.  A
    double has 53 binary digits, the last one at [2 ^ e] with
    [e >= -1074].  Overflow is left out: the numbers of [generate] stay
    below 1. *)

(** [ilog2 x] is the integer [l] with [2 ^ l <= x < 2 ^ (l + 1)], for
    [x > 0]. *)
Definition ilog2 (x : Q) : Z :=
  let n := Qnum x in
  let d := Zpos (Qden x) in
  let a := Z.log2 n in
  let b := Z.log2 d in
  if n * 2 ^ b <? d * 2 ^ a then a - b - 1 else a - b.

(** The integer nearest to [y], the even one of the two when [y] is
    halfway. *)
Definition round_to_even (y : Q) : Z :=
  let m := Qfloor y in
  match (y - inject_Z m ?= 1 # 2)%Q with
  | Lt => m
  | Gt => m + 1
  | Eq => if Z.even m then m else m + 1
  end.

Definition round_double (x : Q) : Q :=
  if Qeq_bool x 0 then 0%Q
  else
    let e := Z.max (ilog2 (Qabs x) - 52) (-1074) in
    (inject_Z (round_to_even (x / 2 ^ e)) * 2 ^ e)%Q.

(** A decimal literal, [x + y] and [x * y]. *)
Definition literal (x : Q) : Q := round_double x.
Definition add (x y : Q) : Q := round_double (x + y).
Definition mul (x y : Q) : Q := round_double (x * y).

Arguments round_double : simpl never.
Arguments literal : simpl never.
Arguments add : simpl never.
Arguments mul : simpl never.

End Double.

(** ** Generator (generator section of utils.js) *)

Module Generator.
Import Clues Utils Solver.

Record Puzzle : Type := mkPuzzle {
  size : nat;
  solution : Grid;
  name : string;
  created : string
}.

(** A [for] loop over indices that threads a state. *)
Fixpoint for_each {S : Type} (indices : list nat)
    (body : nat → S → result S) (s : S) : result S :=
  match indices with
  | [] => Ok s
  | i :: indices => let* s := body i s in for_each indices body s
  end.

Section Environment.
(** [random k] is the [k]-th number [Math.random()] returns, counted
    from the call of [generate]: a double, as the rational it denotes.
    [today] is [Utils.getDateString()]. *)
Variable random : nat → Q.
Variable today : string.

(** [0.4 + r * 0.3], computed in doubles. *)
Definition fill_percentage (r : Q) : Q :=
  Double.add (Double.literal (4 # 10))
    (Double.mul r (Double.literal (3 # 10))).
Arguments fill_percentage : simpl never.

(** The body of the inner loop of [generateRandomGrid]; the grid and
    the number of draws consumed so far are the state of the loops. *)
Definition fill_cell (fillPercentage : Q) (row col : nat)
    (st : Grid * nat) : result (Grid * nat) :=
  let '(grid, k) := st in
  let v := if negb (Qle_bool fillPercentage (random k))
           then Num 1 else Num 0 in
  let* grid := set_cell grid row col v in
  Ok (grid, S k).

Definition generateRandomGrid (size : nat) (fillPercentage : Q)
    (k : nat) : result (Grid * nat) :=
  let grid := create2DArray size size (Num 0) in
  for_each (seq 0 size)
    (λ row, for_each (seq 0 size) (fill_cell fillPercentage row))
    (grid, k).

Fixpoint generate_loop (attempts : nat) (size : nat) (k : nat)
  : result (option Puzzle) :=
  match attempts with
  | O => Ok None
  | S attempts =>
      let fillPercentage := fill_percentage (random k) in
      let* (grid, k) := generateRandomGrid size fillPercentage (S k) in
      let clues := calculateAll grid in
      let* result := solve (rowClues clues) (colClues clues) 2 in
      if unique result then
        Ok (Some {| size := size;
                    solution := grid;
                    name := "Random " +:+ pretty size +:+ "×"
                            +:+ pretty size;
                    created := today |})
      else generate_loop attempts size k
  end.

Definition generate (size : nat) (maxAttempts : nat)
  : result (option Puzzle) :=
  generate_loop maxAttempts size 0.

(** The candidate grids the loop of [generate] samples when it runs
    for [attempts] iterations from draw [k] on. *)
Fixpoint candidates (attempts : nat) (size : nat) (k : nat)
  : list Grid :=
  match attempts with
  | O => []
  | S attempts =>
      let fillPercentage := fill_percentage (random k) in
      match generateRandomGrid size fillPercentage (S k) with
      | Ok (grid, k) => grid :: candidates attempts size k
      | TypeError => []
      end
  end.

End Environment.

End Generator.

(** ** Parsed JSON (what [Utils.readJSON] resolves to) *)

Module Json.

(** A number as [JSON.parse] gives it: a double, held as the rational it
    denotes (both zeros are [0]), or an infinity for a literal beyond the
    doubles. *)
Inductive number : Type :=
  | Finite (q : Q)
  | Infinity (negative : bool).

(** A parsed JSON text.  A string is the list of its UTF-16 code units;
    an object is the list of its own properties, each key once.  A value
    the code reads is a [json] or [undefined], that is an [option json]. *)
#[warnings="-register-all"] Inductive json : Type :=
  | JNull
  | JBool (b : bool)
  | JNumber (x : number)
  | JString (units : list N)
  | JArray (items : list json)
  | JObject (properties : list (string * json)).

Definition number_of (n : Z) : json := JNumber (Finite (inject_Z n)).

Fixpoint own_property (properties : list (string * json)) (key : string)
  : option json :=
  match properties with
  | [] => None
  | (k, v) :: properties =>
      if decide (k = key) then Some v else own_property properties key
  end.

(** [!v] is [negb (truthy v)]. *)
Definition truthy (v : option json) : bool :=
  match v with
  | None | Some JNull => false
  | Some (JBool b) => b
  | Some (JNumber (Finite q)) => negb (Qeq_bool q 0)
  | Some (JNumber (Infinity _)) => true
  | Some (JString units) => negb (bool_decide (units = []))
  | Some (JArray _) | Some (JObject _) => true
  end.

(** [v === n] for a number literal [n]. *)
Definition is_number (v : option json) (n : Z) : bool :=
  match v with
  | Some (JNumber (Finite q)) => Qeq_bool q (inject_Z n)
  | _ => false
  end.

(** [a === b] where [b] is known to be a finite number. *)
Definition same_number (a b : option json) : bool :=
  match a, b with
  | Some (JNumber (Finite p)), Some (JNumber (Finite q)) => Qeq_bool p q
  | _, _ => false
  end.

(** [v.key] for a key no prototype defines ([size], [solution]): [null]
    throws, an object gives its own property, anything else
    [undefined]. *)
Definition get (v : json) (key : string) : result (option json) :=
  match v with
  | JNull => TypeError
  | JObject properties => Ok (own_property properties key)
  | _ => Ok None
  end.

(** [v.length] *)
Definition get_length (v : option json) : result (option json) :=
  match v with
  | None | Some JNull => TypeError
  | Some (JString units) => Ok (Some (number_of (Z.of_nat (length units))))
  | Some (JArray items) => Ok (Some (number_of (Z.of_nat (length items))))
  | Some (JObject properties) => Ok (own_property properties "length")
  | Some _ => Ok None
  end.

(** [v[i]] *)
Definition get_index (v : option json) (i : nat) : result (option json) :=
  match v with
  | None | Some JNull => TypeError
  | Some (JString units) => Ok ((λ u, JString [u]) <$> units !! i)
  | Some (JArray items) => Ok (items !! i)
  | Some (JObject properties) => Ok (own_property properties (pretty i))
  | Some _ => Ok None
  end.

End Json.

(** ** Clues (clues.js) on a parsed solution *)

Module Parsed.
Import Json.

(** The clue calculation asks one question of a cell, [line[i] === 1].
    [cell_view] is the cell as a [value]: an integral number is itself,
    and every other value, which is not [1], reads as [Undefined]. *)
Definition cell_view (v : option json) : value :=
  match v with
  | Some (JNumber (Finite q)) =>
      if Qeq_bool q (inject_Z (Qfloor q)) then Num (Qfloor q) else Undefined
  | _ => Undefined
  end.

(** [array.map(f)], and a [for] loop that pushes one element per index,
    where [f] may throw. *)
Fixpoint each {A B : Type} (f : A → result B) (l : list A)
  : result (list B) :=
  match l with
  | [] => Ok []
  | x :: l =>
      let* y := f x in
      let* ys := each f l in
      Ok (y :: ys)
  end.

(** A row that is an object with a [length] of its own makes the loop of
    [calculateLine] compare [i < line.length] with whatever that property
    holds, through the conversions of JavaScript; such rows are left out of
    the embedding. *)
Definition modelled_row (row : json) : bool :=
  match row with
  | JObject properties =>
      match own_property properties "length" with
      | None => true
      | Some _ => false
      end
  | _ => true
  end.

Definition modelled (grid : list json) : bool := forallb modelled_row grid.

(** The cells [line[0]], ..., [line[line.length - 1]] the loop of
    [calculateLine] reads off a modelled row: [line.length] throws on
    [null] and is [undefined], so that the loop does not run, on a
    boolean, a number and an object. *)
Definition line_cells (line : json) : result (list (option json)) :=
  match line with
  | JNull => TypeError
  | JString units => Ok ((λ u, Some (JString [u])) <$> units)
  | JArray items => Ok (Some <$> items)
  | _ => Ok []
  end.

Definition calculateLine (line : json) : result Clue :=
  let* cells := line_cells line in
  Ok (Clues.calculateLine (cell_view <$> cells)).

Definition calculateRows (grid : list json) : result (list Clue) :=
  each calculateLine grid.

Definition calculateColumns (grid : list json) : result (list Clue) :=
  let size := length grid in
  each (λ col,
    let* column :=
      each (λ row,
        let* cell := get_index (grid !! row) col in
        Ok (cell_view cell)) (seq 0 size) in
    Ok (Clues.calculateLine column)) (seq 0 size).

(** [grid.map] of [calculateRows] is not a function unless [grid] is an
    array. *)
Definition calculateAll (grid : option json) : result Clues.ClueSet :=
  match grid with
  | Some (JArray items) =>
      let* rowClues := calculateRows items in
      let* colClues := calculateColumns items in
      Ok {| Clues.rowClues := rowClues; Clues.colClues := colClues |}
  | _ => TypeError
  end.

End Parsed.

(** ** Play mode (player.js) *)

Module Player.
Import Clues Json.

(** A puzzle record whose size is a number and whose rows are arrays of
    numbers ([null] for an [Undefined] cell); [None] is an absent
    field. *)
Record PuzzleRecord : Type := mkPuzzleRecord {
  size : option Z;
  solution : option Grid
}.

(** The parsed JSON text of such a record ([JSON.stringify] writes an
    [undefined] cell as [null]). *)
Definition parsed_cell (v : value) : json :=
  match v with
  | Num n => number_of n
  | Undefined => JNull
  end.

Definition parsed_rows (sol : Grid) : list json :=
  (λ row : Line, JArray (parsed_cell <$> row)) <$> sol.

Definition parsed (puzzle : PuzzleRecord) : json :=
  JObject
    (match size puzzle with
     | Some sz => [("size", number_of sz)]
     | None => []
     end
     ++ match solution puzzle with
        | Some sol => [("solution", JArray (parsed_rows sol))]
        | None => []
        end).

(** What [loadPuzzle] does: throw [Error(message)]; throw a [TypeError],
    before or after it has assigned [currentPuzzle]; or go on to build the
    play grid from the clues it derived.  [NotModelled] is the outcome on
    a solution with a row that is left out of the embedding. *)
Inductive outcome : Type :=
  | Threw (message : string)
  | ThrewTypeError (currentPuzzle : option json)
  | Loaded (currentPuzzle : json) (clues : ClueSet)
  | NotModelled.

(** A read that throws before [currentPuzzle] is assigned. *)
Definition reading {A : Type} (r : result A) (k : A → outcome) : outcome :=
  match r with
  | Ok a => k a
  | TypeError => ThrewTypeError None
  end.

Definition loadPuzzle (puzzle : json) : outcome :=
  reading (get puzzle "size") (λ size,
  if negb (truthy size) then Threw "Invalid puzzle format" else
  reading (get puzzle "solution") (λ solution,
  if negb (truthy solution) then Threw "Invalid puzzle format" else
  if negb (is_number size 10) && negb (is_number size 15) then
    Threw "Puzzle size must be 10 or 15"
  else
  reading (get_length solution) (λ rows,
  if negb (same_number rows size) then
    Threw "Puzzle dimensions do not match specified size"
  else
  reading (let* first := get_index solution 0 in get_length first) (λ width,
  if negb (same_number width size) then
    Threw "Puzzle dimensions do not match specified size"
  else
    match solution with
    | Some (JArray items) =>
        if Parsed.modelled items then
          match Parsed.calculateAll solution with
          | Ok clues => Loaded puzzle clues
          | TypeError => ThrewTypeError (Some puzzle)
          end
        else NotModelled
    | _ => ThrewTypeError (Some puzzle)
    end)))).

End Player.

(** ** The grid widget (grid.js): its data and drag state *)

Module GridClass.

(** What a cell of [Grid.data] can hold: a value as above, or [null] when
    a drag action that was never set is applied to it. *)
Inductive cell : Type :=
  | Known (v : value)
  | Null.

#[global] Instance cell_eq_dec : EqDecision cell.
Proof. solve_decision. Defined.

(** [Utils.create2DArray] and [Utils.copy2DArray] at the cells of the
    widget. *)
Definition create2DArray (rows cols : nat) (defaultValue : cell)
  : list (list cell) :=
  replicate rows (replicate cols defaultValue).

Definition copy2DArray (array : list (list cell)) : list (list cell) :=
  (λ row : list cell, row) <$> array.

(** The fields of a [Grid] that do not belong to the page: rendering is a
    function of them.  [onCellChange] tells whether a callback is set. *)
Record state : Type := mkState {
  size : nat;
  data : list (list cell);
  isDragging : bool;
  dragAction : cell;
  dragButton : cell;
  onCellChange : bool
}.

(** The constructor. *)
Definition new (size : nat) (onCellChange : bool) : state :=
  {| size := size;
     data := create2DArray size size (Known (Num 0));
     isDragging := false;
     dragAction := Null;
     dragButton := Null;
     onCellChange := onCellChange |}.

(** [a[i] = v]: writing past the end extends the array, and the cells
    skipped read as [undefined]. *)
Fixpoint array_set (a : list cell) (i : nat) (v : cell) : list cell :=
  match i, a with
  | O, [] => [v]
  | O, _ :: a => v :: a
  | S i, [] => Known Undefined :: array_set [] i v
  | S i, x :: a => x :: array_set a i v
  end.

(** [this.data[row][col]] *)
Definition getCellState (st : state) (row col : nat) : result cell :=
  let* line := deref (data st) row in
  Ok (default (Known Undefined) (line !! col)).

(** [this.data[row][col] = state]; the display follows the data. *)
Definition setCellState (st : state) (row col : nat) (v : cell)
  : result state :=
  let* line := deref (data st) row in
  Ok {| size := size st;
        data := <[row := array_set line col v]> (data st);
        isDragging := isDragging st;
        dragAction := dragAction st;
        dragButton := dragButton st;
        onCellChange := onCellChange st |}.

(** Returns the new state and whether the change callback was called. *)
Definition applyCellAction (st : state) (row col : nat)
  : result (state * bool) :=
  let* oldState := getCellState st row col in
  let* st := setCellState st row col (dragAction st) in
  Ok (st, bool_decide (oldState ≠ dragAction st) && onCellChange st).

(** [button] is [e.button]: 0 is the left button and 2 the right one. *)
Definition handleMouseDown (st : state) (row col : nat) (button : Z)
  : result (state * bool) :=
  let* currentState := getCellState st row col in
  let action :=
    if decide (button = 0) then
      if decide (currentState = Known (Num 0)) then Known (Num 1)
      else if decide (currentState = Known (Num 1)) then Known (Num 2)
      else Known (Num 0)
    else if decide (button = 2) then
      if decide (currentState = Known (Num 0)) then Known (Num 2)
      else if decide (currentState = Known (Num 2)) then Known (Num 0)
      else Known (Num 2)
    else dragAction st in
  applyCellAction
    {| size := size st;
       data := data st;
       isDragging := true;
       dragAction := action;
       dragButton := Known (Num button);
       onCellChange := onCellChange st |} row col.

Definition handleMouseEnter (st : state) (row col : nat)
  : result (state * bool) :=
  if isDragging st && bool_decide (dragAction st ≠ Null) then
    applyCellAction st row col
  else Ok (st, false).

(** The [mouseup] listener that [render] adds to the document. *)
Definition mouseUp (st : state) : state :=
  {| size := size st;
     data := data st;
     isDragging := false;
     dragAction := Null;
     dragButton := Null;
     onCellChange := onCellChange st |}.

Definition clear (st : state) : state :=
  {| size := size st;
     data := create2DArray (size st) (size st) (Known (Num 0));
     isDragging := isDragging st;
     dragAction := dragAction st;
     dragButton := dragButton st;
     onCellChange := onCellChange st |}.

Definition loadData (st : state) (d : list (list cell)) : state :=
  {| size := size st;
     data := copy2DArray d;
     isDragging := isDragging st;
     dragAction := dragAction st;
     dragButton := dragButton st;
     onCellChange := onCellChange st |}.

Definition getData (st : state) : list (list cell) :=
  copy2DArray (data st).

End GridClass.

(** ** Checking the player's grid (player.js, and the same code for the
       random mode in utils.js) *)

Module Play.
Import Clues Solver GridClass.

(** [cell === 1 ? 1 : 0] *)
Definition normalize (c : cell) : value :=
  if decide (c = Known (Num 1)) then Num 1 else Num 0.

(** The loop of [checkCluesMatch], entered with arrays of equal length. *)
Fixpoint checkCluesMatch_loop (playerClues expectedClues : Clue) : bool :=
  match playerClues, expectedClues with
  | [], _ => true
  | a :: playerClues, b :: expectedClues =>
      if decide (a ≠ b) then false
      else checkCluesMatch_loop playerClues expectedClues
  | _ :: _, [] => false
  end.

Definition checkCluesMatch (playerClues expectedClues : Clue) : bool :=
  if decide (length playerClues ≠ length expectedClues) then false
  else checkCluesMatch_loop playerClues expectedClues.

(** The value of [isCorrect] that [checkSolution] computes and shows as a
    message.  The loops run over the rows and cells of the solution and
    stop at the first cell that differs. *)
Definition checkSolution (playerData : list (list cell)) (solution : Grid)
  : result bool :=
  let playerSolution : Grid :=
    (λ row : list cell, normalize <$> row) <$> playerData in
  all_match (λ row,
    let* expected := deref solution row in
    all_match (λ col,
      let* line := deref playerSolution row in
      Ok (bool_decide (default Undefined (line !! col)
                       = default Undefined (expected !! col))))
      (seq 0 (length expected)))
    (seq 0 (length solution)).

(** A [for] loop over indices that collects one result per index. *)
Fixpoint collect {A : Type} (f : nat → result A) (indices : list nat)
  : result (list A) :=
  match indices with
  | [] => Ok []
  | i :: indices =>
      let* x := f i in
      let* xs := collect f indices in
      Ok (x :: xs)
  end.

(** The flags [updateClueIndicators] passes to [setRowClueSatisfied] and
    [setColClueSatisfied], in index order. *)
Definition updateClueIndicators (playerData : list (list cell)) (size : nat)
    (rowClues colClues : list Clue) : result (list bool * list bool) :=
  let* rows :=
    collect (λ row,
      let* line := deref playerData row in
      let playerClues := calculateLine (normalize <$> line) in
      let* expected := deref rowClues row in
      Ok (checkCluesMatch playerClues expected)) (seq 0 size) in
  let* cols :=
    collect (λ col,
      let* colData :=
        collect (λ row,
          let* line := deref playerData row in
          Ok (normalize (default (Known Undefined) (line !! col))))
          (seq 0 size) in
      let playerClues := calculateLine colData in
      let* expected := deref colClues col in
      Ok (checkCluesMatch playerClues expected)) (seq 0 size) in
  Ok (rows, cols).

End Play.

(** ** The editor (editor.js) *)

Module Editor.
Import GridClass.

Record ExportedPuzzle : Type := mkExportedPuzzle {
  size : nat;
  solution : list (list cell);
  name : string;
  created : string
}.

(** [Array(size).fill(null).map(() => [0])], the clues [createEditorGrid]
    gives the new grid. *)
Definition emptyClues (size : nat) : list Clue := replicate size [0].

Definition createEditorGrid (size : nat) : state * list Clue * list Clue :=
  (GridClass.new size true, emptyClues size, emptyClues size).

(** The puzzle object [exportPuzzle] hands to [Utils.downloadJSON], or
    [None] when it refuses an empty grid.  [today] is
    [Utils.getDateString()]. *)
Definition exportPuzzle (editorGrid : state) (editorSize : nat)
    (today : string) : option ExportedPuzzle :=
  let gridData := getData editorGrid in
  let isEmpty :=
    forallb (forallb (λ c, bool_decide (c = Known (Num 0)))) gridData in
  if isEmpty then None
  else Some {| size := editorSize;
               solution := gridData;
               name := "Puzzle " +:+ pretty editorSize +:+ "x"
                       +:+ pretty editorSize;
               created := today |}.

(** The record [JSON.parse] gives back for the JSON text of an exported
    puzzle whose cells are all numbers. *)
Definition numbers (d : list (list cell)) : option (list (list value)) :=
  mapM (mapM (λ c, match c with
                   | Known (Num n) => Some (Num n)
                   | _ => None
                   end)) d.

Definition reimport (puzzle : ExportedPuzzle) : option Player.PuzzleRecord :=
  sol ← numbers (solution puzzle);
  Some {| Player.size := Some (Z.of_nat (size puzzle));
          Player.solution := Some sol |}.

End Editor.

(** ** Specification-side notions *)

Import Clues Utils Solver.

Definition is01 (v : value) : Prop := v = Num 0 ∨ v = Num 1.

#[global] Instance is01_dec v : Decision (is01 v).
Proof. unfold is01. apply _. Defined.

(** An [n]-by-[n] grid of 0/1 cells. *)
Definition is_grid01 (n : nat) (g : Grid) : Prop :=
  length g = n ∧ Forall (λ row : Line, length row = n ∧ Forall is01 row) g.

#[global] Instance is_grid01_dec n g : Decision (is_grid01 n g).
Proof. unfold is_grid01. apply _. Defined.

(** A square grid of any cells. *)
Definition is_square (n : nat) (g : Grid) : Prop :=
  length g = n ∧ Forall (λ row : Line, length row = n) g.

#[global] Instance is_square_dec n g : Decision (is_square n g).
Proof. unfold is_square. apply _. Defined.

(** A grid satisfies a clue set when the clues derived from it are the
    clue set. *)
Definition satisfies (rc cc : list Clue) (g : Grid) : Prop :=
  calculateRows g = rc ∧ calculateColumns g = cc.

#[global] Instance satisfies_dec rc cc g : Decision (satisfies rc cc g).
Proof. unfold satisfies. apply _. Defined.

(** Every 0/1 line of length [n], and every grid of [m] such lines. *)
Fixpoint all_lines (n : nat) : list Line :=
  match n with
  | O => [[]]
  | S n => (cons (Num 1) <$> all_lines n) ++ (cons (Num 0) <$> all_lines n)
  end.

Fixpoint all_rows (n m : nat) : list Grid :=
  match m with
  | O => [[]]
  | S m => l ← all_lines n; cons l <$> all_rows n m
  end.

Definition all_grids (n : nat) : list Grid := all_rows n n.

(** The true number of [N]-by-[N] 0/1 grids that satisfy a clue set of
    [N] row clues. *)
Definition count_satisfying (rc cc : list Clue) : nat :=
  length (filter (satisfies rc cc) (all_grids (length rc))).

(** The value of the cell at row-major position [k] of a grid of width
    [n]. *)
Definition cell_of (n : nat) (g : Grid) (k : nat) : value :=
  default Undefined (g !! (k / n)%nat ≫= λ row : Line, row !! (k mod n)%nat).

(** ** Devices of the proofs *)

(** The runs of filled cells of a line, the first one continuing a run of
    [count] cells. *)
Fixpoint runs_from (count : Z) (line : Line) : list Z :=
  match line with
  | [] => if decide (0 < count) then [count] else []
  | cell :: line =>
      if decide (cell = Num 1) then runs_from (count + 1) line
      else if decide (0 < count) then count :: runs_from 0 line
      else runs_from count line
  end.

Definition clue_sum (clue : Clue) : Z := foldr Z.add 0 clue.

(** The [n]-by-[n] grid whose cell at position [k] is [f k]. *)
Definition mk (n : nat) (f : nat → value) : Grid :=
  (λ r, (λ c, f (r * n + c)%nat) <$> seq 0 n) <$> seq 0 n.

Definition upd (f : nat → value) (pos : nat) (v : value) : nat → value :=
  λ k, if decide (k = pos) then v else f k.

(** The satisfying completions of a partial assignment, in the order the
    search visits them: filled before empty at each position. *)
Fixpoint enum (rc cc : list Clue) (n rem : nat) (f : nat → value)
    (pos : nat) : list Grid :=
  match rem with
  | O => if decide (satisfies rc cc (mk n f)) then [mk n f] else []
  | S rem =>
      enum rc cc n rem (upd f pos (Num 1)) (S pos)
      ++ enum rc cc n rem (upd f pos (Num 0)) (S pos)
  end.

(** [h] completes the partial assignment [f] from position [pos] on:
    it keeps the cells before [pos] and gives 0 or 1 to the others. *)
Definition extends (n : nat) (f h : nat → value) (pos : nat) : Prop :=
  (∀ k, (k < pos)%nat → h k = f k)
  ∧ (∀ k, (pos ≤ k < n * n)%nat → is01 (h k)).

(** What a call of [backtrack] at position [pos] leaves behind when the
    working grid is [mk n f]: the grid is restored, the return value tells
    whether the bound is still ahead, and the solutions added are distinct
    completions of [f]; on a clue set of [n] row and [n] column clues and a
    0/1 assignment before [pos] they are the first satisfying completions
    in search order.  A [TypeError] needs a clue set that is too short. *)
Definition search_post (rc cc : list Clue) (n rem : nat) (f : nat → value)
    (pos : nat) (sols : list (list (list value))) (max : Z)
    (out : result search_state) : Prop :=
  match out with
  | TypeError => ¬ (n ≤ length rc ∧ n ≤ length cc)%nat
  | Ok (b, g', sols') =>
      g' = mk n f
      ∧ b = bool_decide (Z.of_nat (length sols') < max)
      ∧ ∃ new,
          sols' = sols ++ new
          ∧ Z.of_nat (length sols') ≤ Z.max max (Z.of_nat (length sols))
          ∧ NoDup new
          ∧ (∀ g, g ∈ new → ∃ h, g = mk n h ∧ extends n f h pos)
          ∧ (length rc = n → length cc = n →
             (∀ k, (k < pos)%nat → is01 (f k)) →
             new = take (Z.to_nat (max - Z.of_nat (length sols)))
                     (enum rc cc n rem f pos))
  end.

(** Every grid that satisfies a clue set, in the order the search of
    [solve] visits them. *)
Definition search_order (rc cc : list Clue) : list Grid :=
  enum rc cc (length rc) (length rc * length rc) (λ _, Unknown) 0.

(** The two-by-two grid with the anti-diagonal filled. *)
Definition anti_diagonal : Grid := [cells [0; 1]; cells [1; 0]].

(** A puzzle record of size 10 whose solution has ten rows, the first of
    ten cells and the others of none. *)
Definition ragged_record : Player.PuzzleRecord :=
  {| Player.size := Some 10;
     Player.solution := Some (replicate 10 Empty :: replicate 9 []) |}.

(** The number of filled cells of a line. *)
Definition filled_count (line : Line) : nat :=
  length (filter (λ v, v = Num 1) line).

(** The grid that agrees with [g] up to the row-major position [pos] and
    is unknown after it: the working grid of the search when it has
    assigned the cells of [g] up to [pos]. *)
Definition partial_grid (n : nat) (g : Grid) (pos : nat) : Grid :=
  mk n (λ k, if decide (k ≤ pos)%nat then cell_of n g k else Unknown).

(** The cell the generator writes for the [i]-th number drawn:
    [Math.random() < fillPercentage ? 1 : 0]. *)
Definition drawn_cell (random : nat → Q) (fillPercentage : Q) (i : nat)
  : value :=
  if negb (Qle_bool fillPercentage (random i)) then Num 1 else Num 0.

(** The player's grid as the play mode compares it: every cell replaced
    by [cell === 1 ? 1 : 0]. *)
Definition normalized (d : list (list GridClass.cell)) : Grid :=
  (λ row : list GridClass.cell, Play.normalize <$> row) <$> d.

(** The states a cell of the widget is meant to have: empty, filled,
    marked. *)
Definition cell012 (c : GridClass.cell) : Prop :=
  c = GridClass.Known (Num 0) ∨ c = GridClass.Known (Num 1)
  ∨ c = GridClass.Known (Num 2).

#[global] Instance cell012_dec c : Decision (cell012 c).
Proof. unfold cell012. apply _. Defined.

(** A widget whose data is [n] rows of [n] cells, each empty, filled or
    marked. *)
Definition data012 (n : nat) (d : list (list GridClass.cell)) : Prop :=
  length d = n
  ∧ Forall (λ row : list GridClass.cell,
              length row = n ∧ Forall cell012 row) d.

#[global] Instance data012_dec n d : Decision (data012 n d).
Proof. unfold data012. apply _. Defined.

(** The pointer events the widget listens to, and the run of the widget
    through a list of them. *)
Inductive grid_event : Type :=
  | MouseDown (row col : nat) (button : Z)
  | MouseEnter (row col : nat)
  | MouseUp.

Definition grid_step (st : GridClass.state) (ev : grid_event)
  : result GridClass.state :=
  match ev with
  | MouseDown row col button =>
      let* (st, _) := GridClass.handleMouseDown st row col button in Ok st
  | MouseEnter row col =>
      let* (st, _) := GridClass.handleMouseEnter st row col in Ok st
  | MouseUp => Ok (GridClass.mouseUp st)
  end.

Fixpoint grid_run (st : GridClass.state) (evs : list grid_event)
  : result GridClass.state :=
  match evs with
  | [] => Ok st
  | ev :: evs => let* st := grid_step st ev in grid_run st evs
  end.

(** An event on a cell of an [n]-by-[n] widget, with the left or the right
    button. *)
Definition plain_event (n : nat) (ev : grid_event) : Prop :=
  match ev with
  | MouseDown row col button =>
      (row < n)%nat ∧ (col < n)%nat ∧ (button = 0 ∨ button = 2)
  | MouseEnter row col => (row < n)%nat ∧ (col < n)%nat
  | MouseUp => True
  end.

(** The value a cell of the widget holds when it is not [null]. *)
Definition cell_value (c : GridClass.cell) : value :=
  match c with
  | GridClass.Known v => v
  | GridClass.Null => Undefined
  end.

(** An editor grid of size 10 with its first cell filled and the others
    empty. *)
Definition filled_grid : GridClass.state :=
  {| GridClass.size := 10;
     GridClass.data :=
       (GridClass.Known (Num 1) :: replicate 9 (GridClass.Known (Num 0)))
       :: replicate 9 (replicate 10 (GridClass.Known (Num 0)));
     GridClass.isDragging := false;
     GridClass.dragAction := GridClass.Null;
     GridClass.dragButton := GridClass.Null;
     GridClass.onCellChange := true |}.

(** An editor grid of size 10 with its first cell marked and the others
    empty. *)
Definition marked_grid : GridClass.state :=
  {| GridClass.size := 10;
     GridClass.data :=
       (GridClass.Known (Num 2) :: replicate 9 (GridClass.Known (Num 0)))
       :: replicate 9 (replicate 10 (GridClass.Known (Num 0)));
     GridClass.isDragging := false;
     GridClass.dragAction := GridClass.Null;
     GridClass.dragButton := GridClass.Null;
     GridClass.onCellChange := true |}.


(** The [k]-th number drawn is the [k]-th of a list. *)
Definition draws (l : list Q) (k : nat) : Q := default 0%Q (l !! k).

(** A double of the kernel as the rational it denotes, and
    [0.4 + r * 0.3] in the doubles of the kernel. *)
Definition float_to_Q (f : float) : Q :=
  match Prim2SF f with
  | S754_finite s m e =>
      ((if s then -1 else 1) * inject_Z (Zpos m) * 2 ^ e)%Q
  | _ => 0%Q
  end.

#[warnings="-inexact-float"] Definition fill_binary64 (r : float) : float :=
  (0.4 + r * 0.3)%float.

(** ** Clue calculation *)

Section CluesFacts.

Lemma calculateLine_foldl (line : Line) (clues clues' : Clue)
    (count count' : Z) :
  foldl calculateLine_step (clues, count) line = (clues', count') →
  (if decide (0 < count') then clues' ++ [count'] else clues')
  = clues ++ runs_from count line.
Proof.
  revert clues count.
  induction line as [|cell line IH]; intros clues count; simpl.
  - intros [= <- <-].
    destruct (decide (0 < count)); [done | by rewrite app_nil_r].
  - destruct (decide (cell = Num 1)) as [_|_]; [apply IH|].
    destruct (decide (0 < count)) as [_|_]; [|apply IH].
    intros E. rewrite (IH _ _ E), <- app_assoc. done.
Qed.

Lemma calculateLine_runs (line : Line) :
  calculateLine line
  = match runs_from 0 line with [] => [0] | r => r end.
Proof.
  unfold calculateLine.
  destruct (foldl calculateLine_step ([], 0) line) as [clues count] eqn:E.
  apply calculateLine_foldl in E. cbv zeta. rewrite E. simpl.
  by destruct (runs_from 0 line).
Qed.

Lemma runs_from_positive (line : Line) (count : Z) :
  Forall (λ c, 0 < c) (runs_from count line).
Proof.
  revert count. induction line as [|cell line IH]; intros count; simpl.
  - destruct (decide (0 < count)); [by repeat constructor | constructor].
  - destruct (decide (cell = Num 1)); [apply IH|].
    destruct (decide (0 < count)); [constructor; [done | apply IH] | apply IH].
Qed.

Lemma runs_from_bound (line : Line) (count : Z) :
  0 ≤ count →
  clue_sum (runs_from count line) + Z.of_nat (length (runs_from count line))
  ≤ count + Z.of_nat (length line) + 1.
Proof.
  revert count. induction line as [|cell line IH]; intros count Hc; simpl.
  - destruct (decide (0 < count)); simpl; lia.
  - destruct (decide (cell = Num 1)).
    + specialize (IH (count + 1) ltac:(lia)). lia.
    + destruct (decide (0 < count)); simpl.
      * specialize (IH 0 ltac:(lia)). lia.
      * specialize (IH count ltac:(lia)). lia.
Qed.

Lemma runs_from_nil (line : Line) (count : Z) :
  0 ≤ count →
  runs_from count line = [] ↔ ¬ 0 < count ∧ Num 1 ∉ line.
Proof.
  revert count. induction line as [|cell line IH]; intros count Hc; simpl.
  - destruct (decide (0 < count)); split; try done.
    + intros [? _]. done.
    + intros _. split; [done | apply not_elem_of_nil].
  - rewrite not_elem_of_cons.
    destruct (decide (cell = Num 1)) as [->|Hne].
    + rewrite IH by lia. split; [lia | intros (_ & ? & _); done].
    + destruct (decide (0 < count)).
      * split; [done | intros [? _]; done].
      * rewrite IH by lia. split; [intros [_ ?] | intros (_ & _ & ?)];
          repeat split; (done || lia).
Qed.

End CluesFacts.

(** ** Line checks of the solver *)

Section LineChecks.

Lemma cluesMatch_loop_eq (clues1 clues2 : Clue) :
  length clues1 = length clues2 →
  cluesMatch_loop clues1 clues2 = bool_decide (clues1 = clues2).
Proof.
  revert clues2.
  induction clues1 as [|a clues1 IH]; intros [|b clues2] Hlen;
    simplify_eq/=; [done|].
  destruct (decide (a ≠ b)) as [Hab|Hab].
  - symmetry. apply bool_decide_eq_false. congruence.
  - apply dec_stable in Hab as ->. rewrite IH by done.
    apply bool_decide_ext. split; congruence.
Qed.

Lemma cluesMatch_eq (clues1 clues2 : Clue) :
  cluesMatch clues1 clues2 = bool_decide (clues1 = clues2).
Proof.
  unfold cluesMatch. destruct (decide _) as [Hlen|Hlen].
  - symmetry. apply bool_decide_eq_false. congruence.
  - apply dec_stable in Hlen. by apply cluesMatch_loop_eq.
Qed.

Lemma incr_last_snoc (segments : list Z) (c : Z) :
  incr_last (segments ++ [c]) = segments ++ [c + 1].
Proof.
  unfold incr_last. rewrite length_app, Nat.add_1_r.
  replace (length segments) with (length segments + 0)%nat at 1 by lia.
  by rewrite alter_app_r.
Qed.

(** On a line of known cells the segments are the runs. *)
Lemma segments_runs (line : Line) :
  Forall is01 line →
  ∀ segments,
    (foldl segments_step (segments, false) line).1
    = segments ++ runs_from 0 line
    ∧ ∀ c, 0 < c →
        (foldl segments_step (segments ++ [c], true) line).1
        = segments ++ runs_from c line.
Proof.
  induction 1 as [|cell line Hcell _ IH]; intros segments.
  - split; simpl; [by rewrite app_nil_r|].
    intros c Hc. by destruct (decide (0 < c)).
  - split; [|intros c Hc]; simpl.
    + destruct Hcell as [-> | ->]; simpl.
      * apply IH.
      * rewrite incr_last_snoc. by apply IH.
    + destruct Hcell as [-> | ->]; simpl.
      * destruct (decide (0 < c)); [|done].
        rewrite (proj1 (IH _)), <- app_assoc. done.
      * rewrite incr_last_snoc. apply IH. lia.
Qed.

Lemma segments_unknown (m : nat) (st : list Z * bool) :
  foldl segments_step st (replicate m Unknown) = st.
Proof. induction m as [|m IH]; [done|]. by destruct st. Qed.

Lemma runs_from_head (line : Line) (count : Z) :
  0 < count →
  ∃ c rest, runs_from count line = c :: rest ∧ count ≤ c.
Proof.
  revert count. induction line as [|cell line IH]; intros count Hc; simpl.
  - destruct (decide (0 < count)); [|done]. by exists count, [].
  - destruct (decide (cell = Num 1)).
    + destruct (IH (count + 1)) as (c & rest & -> & ?); [lia|].
      exists c, rest. split; [done | lia].
    + destruct (decide (0 < count)); [|done]. by eexists _, _.
Qed.

(** The runs of a prefix fit the runs of the whole line: there are no
    more of them and none is longer. *)
Lemma runs_from_take_fit (line : Line) (t : nat) (count : Z) :
  (length (runs_from count (take t line))
   ≤ length (runs_from count line))%nat
  ∧ segments_fit (runs_from count (take t line)) (runs_from count line)
    = true.
Proof.
  revert t count. induction line as [|cell line IH]; intros t count.
  - rewrite take_nil. simpl.
    destruct (decide (0 < count)); simpl; [|done].
    by destruct (decide (count < count)); [lia|].
  - destruct t as [|t].
    + rewrite take_0.
      generalize (runs_from_head (cell :: line) count).
      generalize (runs_from count (cell :: line)). intros R HR. simpl.
      destruct (decide (0 < count)) as [Hc|Hc]; simpl; [|split; [lia|done]].
      destruct (HR Hc) as (c & rest & -> & Hle). simpl. split; [lia|].
      by destruct (decide (c < count)); [lia|].
    + simpl. destruct (decide (cell = Num 1)); [apply IH|].
      destruct (decide (0 < count)); [|apply IH].
      destruct (IH t 0) as [Hlen Hfit]. simpl. split; [lia|].
      by destruct (decide (count < count)); [lia|].
Qed.

(** A line that a satisfying line extends, known up to position [t] and
    unknown from there on, passes [canMatchClues]. *)
Lemma canMatchClues_prefix (line : Line) (t m : nat) :
  Forall is01 line →
  canMatchClues (take t line ++ replicate m Unknown) (calculateLine line)
  = true.
Proof.
  intros H01. unfold canMatchClues.
  rewrite foldl_app, segments_unknown.
  pose proof (proj1 (segments_runs (take t line)
                       (Forall_take _ t _ H01) [])) as Hseg.
  destruct (foldl segments_step ([], false) (take t line)) as [segs b].
  simpl in Hseg. subst segs.
  destruct (runs_from_take_fit line t 0) as [Hlen Hfit].
  rewrite calculateLine_runs.
  destruct (runs_from 0 line) as [|c r] eqn:Hr.
  - destruct (runs_from 0 (take t line)); [done | simpl in Hlen; lia].
  - by destruct (decide _); [lia|].
Qed.

Lemma complete_prefix (line : Line) (t m : nat) :
  Forall is01 line →
  complete (take t line ++ replicate m Unknown) = bool_decide (m = 0%nat).
Proof.
  intros H01. unfold complete.
  rewrite forallb_app.
  assert (forallb (λ cell, bool_decide (cell ≠ Unknown)) (take t line)
          = true) as ->.
  { apply forallb_forall. intros v Hv%list_elem_of_In.
    apply (Forall_take _ t) in H01.
    rewrite Forall_forall in H01.
    apply bool_decide_eq_true. by destruct (H01 v Hv) as [-> | ->]. }
  destruct m; done.
Qed.

End LineChecks.

(** ** Grids as functions of the row-major position *)

Section Tabulated.

Lemma lookup_tabulate {A} (F : nat → A) (n i : nat) :
  (i < n)%nat → (F <$> seq 0 n) !! i = Some (F i).
Proof. intros Hi. by rewrite list_lookup_fmap, lookup_seq_lt. Qed.

Lemma tabulate_ext {A} (F G : nat → A) (n : nat) :
  (∀ i, (i < n)%nat → F i = G i) → F <$> seq 0 n = G <$> seq 0 n.
Proof.
  intros HFG. apply list_eq. intros i. rewrite !list_lookup_fmap.
  destruct (decide (i < n)%nat) as [Hi|Hi].
  - rewrite lookup_seq_lt by done. simpl. f_equal. by apply HFG.
  - by rewrite lookup_seq_ge by lia.
Qed.

Lemma insert_tabulate {A} (F : nat → A) (n i : nat) (v : A) :
  (i < n)%nat →
  <[i := v]> (F <$> seq 0 n)
  = (λ k, if decide (k = i) then v else F k) <$> seq 0 n.
Proof.
  intros Hi. apply list_eq. intros j.
  destruct (decide (j < n)%nat) as [Hj|Hj].
  - rewrite lookup_tabulate by done.
    destruct (decide (j = i)) as [->|Hne].
    + rewrite list_lookup_insert_eq; [done|].
      by rewrite length_fmap, length_seq.
    + rewrite list_lookup_insert_ne by done. by apply lookup_tabulate.
  - rewrite list_lookup_insert_ne by lia.
    by rewrite !list_lookup_fmap, !lookup_seq_ge by lia.
Qed.

(** A tabulated line that agrees with [H] below [t] and is unknown from
    [t] on. *)
Lemma tabulate_prefix (F H : nat → value) (n t : nat) :
  (t ≤ n)%nat →
  (∀ i, (i < t)%nat → F i = H i) →
  (∀ i, (t ≤ i < n)%nat → F i = Unknown) →
  F <$> seq 0 n = take t (H <$> seq 0 n) ++ replicate (n - t) Unknown.
Proof.
  intros Ht Hlow Hhigh. apply list_eq. intros i.
  destruct (decide (i < t)%nat) as [Hi|Hi].
  - rewrite lookup_app_l
      by (rewrite length_take, length_fmap, length_seq; lia).
    rewrite lookup_take_lt by done.
    rewrite !lookup_tabulate by lia. f_equal. by apply Hlow.
  - rewrite lookup_app_r
      by (rewrite length_take, length_fmap, length_seq; lia).
    rewrite length_take, length_fmap, length_seq.
    replace (i - t `min` n)%nat with (i - t)%nat by lia.
    destruct (decide (i < n)%nat) as [Hn|Hn].
    + rewrite lookup_tabulate by done.
      rewrite lookup_replicate_2 by lia. f_equal. apply Hhigh. lia.
    + rewrite list_lookup_fmap, lookup_seq_ge by lia.
      symmetry. apply lookup_replicate_None. lia.
Qed.

Lemma array_set_insert (a : Line) (i : nat) (v : value) :
  (i < length a)%nat → array_set a i v = <[i := v]> a.
Proof.
  revert i. induction a as [|x a IH]; intros [|i] Hi; simpl in *;
    try lia; [done|].
  f_equal. apply IH. lia.
Qed.

Lemma position_split (n pos : nat) :
  (pos < n * n)%nat →
  (pos / n < n)%nat ∧ (pos mod n < n)%nat
  ∧ pos = (pos / n * n + pos mod n)%nat.
Proof.
  intros Hpos. assert (n ≠ 0)%nat as Hn by lia.
  pose proof (Nat.div_mod_eq pos n) as Hdm.
  pose proof (Nat.mod_upper_bound pos n Hn) as Hmod.
  repeat split; [|done|lia].
  apply Nat.Div0.div_lt_upper_bound. lia.
Qed.

Lemma position_div_mod (n r c : nat) :
  (c < n)%nat →
  ((r * n + c) / n = r)%nat ∧ ((r * n + c) mod n = c)%nat.
Proof.
  intros Hc. split.
  - rewrite Nat.div_add_l by lia. rewrite Nat.div_small by done. lia.
  - rewrite Nat.add_comm, Nat.Div0.mod_add. by apply Nat.mod_small.
Qed.

Lemma position_unique (n r c r' c' : nat) :
  (c < n)%nat → (c' < n)%nat →
  (r * n + c = r' * n + c')%nat → r = r' ∧ c = c'.
Proof.
  intros Hc Hc' Heq.
  destruct (position_div_mod n r c Hc) as [Hd Hm].
  destruct (position_div_mod n r' c' Hc') as [Hd' Hm'].
  rewrite Heq in Hd, Hm. split; congruence.
Qed.

Context (n : nat).

Lemma length_mk (f : nat → value) : length (mk n f) = n.
Proof. unfold mk. by rewrite length_fmap, length_seq. Qed.

Lemma mk_lookup (f : nat → value) (r : nat) :
  (r < n)%nat →
  mk n f !! r = Some ((λ c, f (r * n + c)%nat) <$> seq 0 n).
Proof. intros Hr. unfold mk. by rewrite lookup_tabulate. Qed.

Lemma mk_column (f : nat → value) (c : nat) :
  (c < n)%nat →
  column (mk n f) c = (λ r, f (r * n + c)%nat) <$> seq 0 n.
Proof.
  intros Hc. unfold column, mk. rewrite <- list_fmap_compose.
  apply tabulate_ext. intros r Hr. simpl.
  by rewrite lookup_tabulate.
Qed.

Lemma mk_ext (f g : nat → value) :
  (∀ k, (k < n * n)%nat → f k = g k) → mk n f = mk n g.
Proof.
  intros Hfg. apply tabulate_ext. intros r Hr.
  apply tabulate_ext. intros c Hc. apply Hfg. nia.
Qed.

Lemma mk_cell (f : nat → value) (k : nat) :
  (k < n * n)%nat → cell_of n (mk n f) k = f k.
Proof.
  intros Hk. destruct (position_split n k Hk) as (Hr & Hc & Heq).
  unfold cell_of. rewrite mk_lookup by done. simpl.
  rewrite lookup_tabulate by done. simpl. by rewrite <- Heq.
Qed.

Lemma mk_inj (f g : nat → value) (k : nat) :
  mk n f = mk n g → (k < n * n)%nat → f k = g k.
Proof.
  intros Heq Hk. rewrite <- (mk_cell f k), <- (mk_cell g k) by done.
  by rewrite Heq.
Qed.

Lemma mk_cell_of (g : Grid) : is_square n g → g = mk n (cell_of n g).
Proof.
  intros [Hlen Hrows]. apply list_eq. intros r.
  destruct (decide (r < n)%nat) as [Hr|Hr].
  - rewrite mk_lookup by done.
    destruct (lookup_lt_is_Some_2 g r ltac:(lia)) as [row Hrow].
    rewrite Hrow. f_equal.
    assert (length row = n) as Hw
      by (rewrite Forall_forall in Hrows; apply Hrows;
          by apply list_elem_of_lookup_2 with r).
    apply list_eq. intros c.
    destruct (decide (c < n)%nat) as [Hc|Hc].
    + rewrite lookup_tabulate by done. unfold cell_of.
      destruct (position_div_mod n r c Hc) as [-> ->].
      rewrite Hrow. simpl.
      destruct (lookup_lt_is_Some_2 row c ltac:(lia)) as [v Hv].
      by rewrite Hv.
    + rewrite lookup_ge_None_2 by lia.
      by rewrite list_lookup_fmap, lookup_seq_ge by lia.
  - rewrite lookup_ge_None_2 by lia.
    by rewrite lookup_ge_None_2 by (rewrite length_mk; lia).
Qed.

Lemma mk_is_square (f : nat → value) : is_square n (mk n f).
Proof.
  split; [apply length_mk|]. unfold mk.
  apply Forall_fmap, Forall_forall. intros r _. simpl.
  by rewrite length_fmap, length_seq.
Qed.

Lemma mk_is_grid01 (f : nat → value) :
  (∀ k, (k < n * n)%nat → is01 (f k)) → is_grid01 n (mk n f).
Proof.
  intros H01. split; [apply length_mk|]. unfold mk.
  apply Forall_fmap, Forall_forall. intros r Hr. simpl.
  apply elem_of_seq in Hr.
  split; [by rewrite length_fmap, length_seq|].
  apply Forall_fmap, Forall_forall. intros c Hc. simpl.
  apply elem_of_seq in Hc. apply H01. nia.
Qed.

Lemma is_grid01_cells (g : Grid) (k : nat) :
  is_grid01 n g → (k < n * n)%nat → is01 (cell_of n g k).
Proof.
  intros [Hlen Hrows] Hk.
  destruct (position_split n k Hk) as (Hr & Hc & _).
  unfold cell_of.
  destruct (lookup_lt_is_Some_2 g (k / n) ltac:(lia)) as [row Hrow].
  rewrite Hrow. simpl.
  rewrite Forall_forall in Hrows.
  destruct (Hrows row) as [Hw H01];
    [by apply list_elem_of_lookup_2 with (k / n)%nat|].
  destruct (lookup_lt_is_Some_2 row (k mod n) ltac:(lia)) as [v Hv].
  rewrite Hv. simpl. rewrite Forall_forall in H01.
  by apply H01, list_elem_of_lookup_2 with (k mod n)%nat.
Qed.

Lemma is_grid01_square (g : Grid) : is_grid01 n g → is_square n g.
Proof.
  intros [Hlen Hrows]. split; [done|].
  eapply Forall_impl; [exact Hrows|]. by intros row [? _].
Qed.

(** [grid[row][col] = v] at position [pos] of a tabulated grid. *)
Lemma set_cell_mk (f : nat → value) (pos : nat) (v : value) :
  (pos < n * n)%nat →
  set_cell (mk n f) (pos / n) (pos mod n) v = Ok (mk n (upd f pos v)).
Proof.
  intros Hpos. destruct (position_split n pos Hpos) as (Hr & Hc & Heq).
  unfold set_cell, deref. rewrite mk_lookup by done. simpl. f_equal.
  rewrite array_set_insert by (by rewrite length_fmap, length_seq).
  rewrite insert_tabulate by done.
  unfold mk at 1. rewrite insert_tabulate by done.
  apply tabulate_ext. intros r Hrn.
  destruct (decide (r = (pos / n)%nat)) as [->|Hne];
    apply tabulate_ext; intros c Hcn; unfold upd.
  - destruct (decide (c = (pos mod n)%nat)) as [->|Hnc].
    + by rewrite decide_True by lia.
    + rewrite decide_False; [done|]. intros Hk.
      destruct (position_unique n (pos / n) c (pos / n) (pos mod n));
        (done || lia).
  - rewrite decide_False; [done|]. intros Hk.
    destruct (position_unique n r c (pos / n) (pos mod n));
      (done || lia).
Qed.

End Tabulated.

(** ** The checks of the solver on well-shaped clue sets *)

Section Checks.

Lemma all_match_forallb (check : nat → result bool) (b : nat → bool)
    (indices : list nat) :
  (∀ i, i ∈ indices → check i = Ok (b i)) →
  all_match check indices = Ok (forallb b indices).
Proof.
  induction indices as [|i indices IH]; intros Hcheck; simpl; [done|].
  rewrite (Hcheck i) by left. simpl.
  destruct (b i); [|done]. apply IH. intros j Hj. apply Hcheck. by right.
Qed.

Lemma all_match_total (check : nat → result bool) (indices : list nat) :
  (∀ i, i ∈ indices → ∃ b, check i = Ok b) →
  ∃ b, all_match check indices = Ok b.
Proof.
  induction indices as [|i indices IH]; intros Hcheck; simpl; [by eexists|].
  destruct (Hcheck i) as [b ->]; [left|]. simpl.
  destruct b; [|by eexists]. apply IH. intros j Hj. apply Hcheck. by right.
Qed.

Lemma forallb_lookup_eq {A} `{EqDecision A} (l1 l2 : list A) (n : nat) :
  length l1 = n → length l2 = n →
  forallb (λ i, bool_decide (l1 !! i = l2 !! i)) (seq 0 n)
  = bool_decide (l1 = l2).
Proof.
  intros H1 H2. apply eq_true_iff_eq.
  rewrite forallb_forall, bool_decide_eq_true. split.
  - intros Hall. apply list_eq. intros i.
    destruct (decide (i < n)%nat) as [Hi|Hi].
    + specialize (Hall i). rewrite bool_decide_eq_true in Hall.
      apply Hall, list_elem_of_In, elem_of_seq. lia.
    + by rewrite !lookup_ge_None_2 by lia.
  - intros -> i _. by apply bool_decide_eq_true.
Qed.

Lemma calculateColumns_lookup (g : Grid) (col : nat) :
  (col < length g)%nat →
  calculateColumns g !! col = Some (calculateLine (column g col)).
Proof. intros Hc. unfold calculateColumns. by rewrite lookup_tabulate. Qed.

Lemma deref_Some {A} (a : list A) (i : nat) (x : A) :
  a !! i = Some x → deref a i = Ok x.
Proof. unfold deref. by intros ->. Qed.

(** The full check of a grid decides whether the clues derived from the
    grid are the clue set. *)
Lemma isValidSolution_satisfies (g : Grid) (rc cc : list Clue) :
  length rc = length g → length cc = length g →
  isValidSolution g rc cc = Ok (bool_decide (satisfies rc cc g)).
Proof.
  intros Hrc Hcc. unfold isValidSolution.
  rewrite (all_match_forallb _
             (λ i, bool_decide (calculateRows g !! i = rc !! i))).
  2:{ intros row Hrow%elem_of_seq.
      destruct (lookup_lt_is_Some_2 g row ltac:(lia)) as [line Hline].
      destruct (lookup_lt_is_Some_2 rc row ltac:(lia)) as [clue Hclue].
      rewrite (deref_Some _ _ _ Hline), (deref_Some _ _ _ Hclue). simpl.
      unfold calculateRows. rewrite list_lookup_fmap, Hline, Hclue. simpl.
      rewrite cluesMatch_eq. f_equal.
      apply bool_decide_ext. split; congruence. }
  simpl.
  rewrite (forallb_lookup_eq _ _ (length g))
    by (done || by unfold calculateRows; rewrite length_fmap).
  destruct (decide (calculateRows g = rc)) as [Hrows|Hrows].
  - rewrite (bool_decide_eq_true_2 _ Hrows). simpl.
    rewrite (all_match_forallb _
               (λ i, bool_decide (calculateColumns g !! i = cc !! i))).
    2:{ intros col Hcol%elem_of_seq.
        destruct (lookup_lt_is_Some_2 cc col ltac:(lia)) as [clue Hclue].
        rewrite (deref_Some _ _ _ Hclue). simpl.
        rewrite calculateColumns_lookup, Hclue by lia.
        rewrite cluesMatch_eq. f_equal.
        apply bool_decide_ext. split; congruence. }
    rewrite (forallb_lookup_eq _ _ (length g))
      by (done || by unfold calculateColumns;
                     rewrite length_fmap, length_seq).
    f_equal. apply bool_decide_ext. unfold satisfies. tauto.
  - rewrite (bool_decide_eq_false_2 _ Hrows). simpl. f_equal. symmetry.
    apply bool_decide_eq_false. unfold satisfies. tauto.
Qed.

Lemma isValidSolution_total (g : Grid) (rc cc : list Clue) :
  (length g ≤ length rc)%nat → (length g ≤ length cc)%nat →
  ∃ b, isValidSolution g rc cc = Ok b.
Proof.
  intros Hrc Hcc. unfold isValidSolution.
  match goal with
  | |- ∃ _, bind (all_match ?check ?idx) _ = _ =>
      destruct (all_match_total check idx) as [b ->]
  end.
  - intros row Hrow%elem_of_seq.
    destruct (lookup_lt_is_Some_2 g row ltac:(lia)) as [line Hline].
    destruct (lookup_lt_is_Some_2 rc row ltac:(lia)) as [clue Hclue].
    rewrite (deref_Some _ _ _ Hline), (deref_Some _ _ _ Hclue).
    by eexists.
  - simpl. destruct b; simpl; [|by eexists].
    apply all_match_total. intros col Hcol%elem_of_seq.
    destruct (lookup_lt_is_Some_2 cc col ltac:(lia)) as [clue Hclue].
    rewrite (deref_Some _ _ _ Hclue). by eexists.
Qed.

Lemma line_feasible_total (line : Line) (clues : list Clue) (i : nat) :
  (i < length clues)%nat → ∃ b, line_feasible line clues i = Ok b.
Proof.
  intros Hi. destruct (lookup_lt_is_Some_2 clues i Hi) as [clue Hclue].
  unfold line_feasible. rewrite (deref_Some _ _ _ Hclue).
  destruct (complete line); by eexists.
Qed.

Lemma isValidPartial_total (g : Grid) (rc cc : list Clue) (row col : nat) :
  (row < length g)%nat → (row < length rc)%nat → (col < length cc)%nat →
  ∃ b, isValidPartial g rc cc row col = Ok b.
Proof.
  intros Hg Hrc Hcc. unfold isValidPartial.
  destruct (lookup_lt_is_Some_2 g row Hg) as [line Hline].
  rewrite (deref_Some _ _ _ Hline). simpl.
  destruct (line_feasible_total line rc row Hrc) as [b ->]. simpl.
  destruct b; simpl; [|by eexists].
  destruct (line_feasible_total (column g col) cc col Hcc) as [b ->].
  simpl. destruct b; by eexists.
Qed.

(** A line known up to [t] and unknown from there on is feasible for the
    clue of any 0/1 line that extends it. *)
Lemma line_feasible_prefix (line : Line) (t : nat) (clues : list Clue)
    (i : nat) :
  Forall is01 line → (t ≤ length line)%nat →
  clues !! i = Some (calculateLine line) →
  line_feasible (take t line ++ replicate (length line - t) Unknown)
    clues i = Ok true.
Proof.
  intros H01 Ht Hclue. unfold line_feasible.
  rewrite complete_prefix, (deref_Some _ _ _ Hclue) by done.
  case_bool_decide as Hm; simpl; f_equal.
  - rewrite Hm, app_nil_r, take_ge by lia.
    rewrite cluesMatch_eq. by apply bool_decide_eq_true.
  - by apply canMatchClues_prefix.
Qed.

Context (n : nat) (rc cc : list Clue).

(** Pruning is sound: the partial grid that a satisfying grid extends
    passes [isValidPartial] at the position assigned last. *)
Lemma isValidPartial_extension (f h : nat → value) (pos : nat) :
  (pos < n * n)%nat →
  (∀ k, (k ≤ pos)%nat → f k = h k) →
  (∀ k, (pos < k)%nat → f k = Unknown) →
  (∀ k, (k < n * n)%nat → is01 (h k)) →
  satisfies rc cc (mk n h) →
  isValidPartial (mk n f) rc cc (pos / n) (pos mod n) = Ok true.
Proof.
  intros Hpos Hlow Hhigh H01 [Hrows Hcols].
  destruct (position_split n pos Hpos) as (Hr & Hc & Heq).
  set (row := (pos / n)%nat) in *. set (col := (pos mod n)%nat) in *.
  unfold isValidPartial.
  rewrite (deref_Some _ _ _ (mk_lookup n f row Hr)). simpl.
  set (lineH := (λ c, h (row * n + c)%nat) <$> seq 0 n).
  set (colH := (λ r, h (r * n + col)%nat) <$> seq 0 n).
  assert (length lineH = n) as HlenL
    by (unfold lineH; by rewrite length_fmap, length_seq).
  assert (length colH = n) as HlenC
    by (unfold colH; by rewrite length_fmap, length_seq).
  rewrite (tabulate_prefix _ (λ c, h (row * n + c)%nat) n (S col));
    [|lia|intros; apply Hlow; lia|intros; apply Hhigh; lia].
  fold lineH.
  replace (n - S col)%nat with (length lineH - S col)%nat by lia.
  rewrite line_feasible_prefix; [simpl|..|lia|].
  - rewrite mk_column by done.
    rewrite (tabulate_prefix _ (λ r, h (r * n + col)%nat) n (S row));
      [|lia|intros; apply Hlow; nia|intros; apply Hhigh; nia].
    fold colH.
    replace (n - S row)%nat with (length colH - S row)%nat by lia.
    rewrite line_feasible_prefix; [done|..|lia|].
    + apply Forall_fmap, Forall_forall. intros r Hrn%elem_of_seq.
      simpl. apply H01. nia.
    + rewrite <- Hcols, calculateColumns_lookup
        by (by rewrite length_mk).
      by rewrite mk_column.
  - apply Forall_fmap, Forall_forall. intros c Hcn%elem_of_seq.
    simpl. apply H01. nia.
  - rewrite <- Hrows. unfold calculateRows.
    by rewrite list_lookup_fmap, mk_lookup.
Qed.

End Checks.

(** ** The satisfying grids and their enumeration in search order *)

Section Enumeration.

Lemma all_lines_elem (n : nat) (l : Line) :
  l ∈ all_lines n ↔ length l = n ∧ Forall is01 l.
Proof.
  revert l. induction n as [|n IH]; intros l; simpl.
  - rewrite list_elem_of_singleton. split.
    + by intros ->.
    + intros [Hl _]. by destruct l.
  - rewrite elem_of_app, !list_elem_of_fmap. split.
    + intros [(l' & -> & Hl')|(l' & -> & Hl')];
        apply IH in Hl' as [<- H01]; (split; [done|]);
        constructor; (done || (by right) || by left).
    + intros [Hlen H01]. destruct l as [|v l]; [done|].
      inversion H01 as [|?? Hv H01']; subst.
      assert (l ∈ all_lines n) by (apply IH; split; [by simplify_eq/=|done]).
      destruct Hv as [-> | ->]; [right | left]; by exists l.
Qed.

Lemma all_lines_NoDup (n : nat) : NoDup (all_lines n).
Proof.
  induction n as [|n IH]; simpl; [apply NoDup_singleton|].
  apply NoDup_app. split_and!.
  - by apply (NoDup_fmap_2 _).
  - intros l (l1 & -> & _)%list_elem_of_fmap (l2 & ? & _)%list_elem_of_fmap.
    done.
  - by apply (NoDup_fmap_2 _).
Qed.

Lemma all_rows_elem (n m : nat) (g : Grid) :
  g ∈ all_rows n m
  ↔ length g = m ∧ Forall (λ row : Line, length row = n ∧ Forall is01 row) g.
Proof.
  revert g. induction m as [|m IH]; intros g; simpl.
  - rewrite list_elem_of_singleton. split.
    + by intros ->.
    + intros [Hl _]. by destruct g.
  - rewrite list_elem_of_bind. split.
    + intros (l & (g' & -> & Hg')%list_elem_of_fmap & Hl).
      apply IH in Hg' as [<- Hrows]. apply all_lines_elem in Hl.
      split; [done|]. by constructor.
    + intros [Hlen Hrows]. destruct g as [|l g]; [done|].
      inversion Hrows as [|?? Hl Hrows']; subst. exists l. split.
      * apply list_elem_of_fmap. exists g. split; [done|].
        apply IH. split; [by simplify_eq/=|done].
      * by apply all_lines_elem.
Qed.

Lemma all_rows_NoDup (n m : nat) : NoDup (all_rows n m).
Proof.
  induction m as [|m IH]; simpl; [apply NoDup_singleton|].
  apply NoDup_bind.
  - intros l1 l2 g _ _ (g1 & -> & _)%list_elem_of_fmap
      (g2 & ? & _)%list_elem_of_fmap. by simplify_eq.
  - intros l _. by apply (NoDup_fmap_2 _).
  - apply all_lines_NoDup.
Qed.

Lemma all_grids_elem (n : nat) (g : Grid) :
  g ∈ all_grids n ↔ is_grid01 n g.
Proof. apply all_rows_elem. Qed.

Lemma all_grids_NoDup (n : nat) : NoDup (all_grids n).
Proof. apply all_rows_NoDup. Qed.

Context (n : nat) (rc cc : list Clue).

Lemma enum_elem (rem : nat) (f : nat → value) (pos : nat) (g : Grid) :
  (pos + rem = n * n)%nat →
  g ∈ enum rc cc n rem f pos
  ↔ ∃ h, g = mk n h ∧ extends n f h pos ∧ satisfies rc cc g.
Proof.
  revert f pos. induction rem as [|rem IH]; intros f pos Hrem; simpl.
  - split.
    + destruct (decide (satisfies rc cc (mk n f))) as [Hsat|Hsat];
        [|by intros ?%elem_of_nil].
      intros ->%list_elem_of_singleton. exists f.
      split_and!; [done| |done]. split; [done | intros; lia].
    + intros (h & -> & [Hlow _] & Hsat).
      rewrite (mk_ext n h f) in * by (intros; apply Hlow; lia).
      rewrite decide_True by done. by apply list_elem_of_singleton.
  - rewrite elem_of_app, !IH by lia. split.
    + intros [(h & -> & [Hlow Hhigh] & Hsat)|(h & -> & [Hlow Hhigh] & Hsat)];
        exists h; (split_and!; [done| |done]); split.
      all: try (intros k Hk; rewrite Hlow by lia; unfold upd;
                by rewrite decide_False by lia).
      all: intros k Hk; destruct (decide (k = pos)) as [->|Hne];
        [|apply Hhigh; lia].
      all: rewrite Hlow by lia; unfold upd; rewrite decide_True by done.
      * by right.
      * by left.
    + intros (h & -> & [Hlow Hhigh] & Hsat).
      destruct (Hhigh pos ltac:(lia)) as [Hv|Hv]; [right | left];
        exists h; (split_and!; [done| |done]); split.
      all: try (intros k Hk; apply Hhigh; lia).
      all: intros k Hk; unfold upd; destruct (decide (k = pos)) as [->|Hne];
        [done | apply Hlow; lia].
Qed.

Lemma enum_NoDup (rem : nat) (f : nat → value) (pos : nat) :
  (pos + rem = n * n)%nat → NoDup (enum rc cc n rem f pos).
Proof.
  revert f pos. induction rem as [|rem IH]; intros f pos Hrem; simpl.
  - destruct (decide _); [apply NoDup_singleton | apply NoDup_nil_2].
  - apply NoDup_app. split_and!; [apply IH; lia| |apply IH; lia].
    intros g (h1 & -> & [Hlow1 _] & _)%enum_elem
             (h2 & Heq & [Hlow2 _] & _)%enum_elem; try lia.
    apply (mk_inj n h1 h2 pos) in Heq; [|lia].
    rewrite Hlow1, Hlow2 in Heq by lia. unfold upd in Heq.
    by rewrite !decide_True in Heq by done.
Qed.

Lemma enum_all (f : nat → value) (g : Grid) :
  g ∈ enum rc cc n (n * n) f 0 ↔ is_grid01 n g ∧ satisfies rc cc g.
Proof.
  rewrite enum_elem by lia. split.
  - intros (h & -> & [_ Hhigh] & Hsat). split; [|done].
    apply mk_is_grid01. intros k Hk. apply Hhigh. lia.
  - intros [Hg Hsat]. exists (cell_of n g). split_and!; [| |done].
    + by apply mk_cell_of, is_grid01_square.
    + split; [intros; lia|]. intros k Hk. apply is_grid01_cells; [done|lia].
Qed.

Lemma enum_count (f : nat → value) :
  length rc = n →
  length (enum rc cc n (n * n) f 0) = count_satisfying rc cc.
Proof.
  intros Hrc. unfold count_satisfying. rewrite Hrc.
  apply Permutation_length, NoDup_Permutation.
  - apply enum_NoDup. lia.
  - apply NoDup_filter, all_grids_NoDup.
  - intros g. rewrite enum_all, list_elem_of_filter, all_grids_elem. tauto.
Qed.

End Enumeration.

(** ** The search *)

Section Search.

Lemma take_app_stop {A} (l k : list A) (m : nat) :
  (m ≤ length (take m l))%nat → take m l = take m (l ++ k).
Proof.
  rewrite length_take. intros Hm. rewrite take_app.
  replace (m - length l)%nat with 0%nat by lia.
  by rewrite take_0, app_nil_r.
Qed.

Lemma take_app_go {A} (l k : list A) (m m' : nat) :
  (length (take m l) < m)%nat → m' = (m - length (take m l))%nat →
  take m l ++ take m' k = take m (l ++ k).
Proof.
  rewrite length_take. intros Hm ->. rewrite take_app.
  by replace (m `min` length l)%nat with (length l) by lia.
Qed.

Lemma copy2DArray_id (g : Grid) : copy2DArray g = g.
Proof. unfold copy2DArray. apply list_fmap_id. Qed.

Context (n : nat) (rc cc : list Clue).

Lemma extends_step (f h : nat → value) (pos : nat) (v : value) :
  is01 v → extends n (upd f pos v) h (S pos) →
  extends n f h pos ∧ h pos = v.
Proof.
  intros Hv [Hlow Hhigh].
  assert (h pos = v) as Hpos
    by (rewrite Hlow by lia; unfold upd; by rewrite decide_True).
  split; [split|done].
  - intros k Hk. rewrite Hlow by lia. unfold upd.
    by rewrite decide_False by lia.
  - intros k Hk. destruct (decide (k = pos)) as [->|Hne].
    + by rewrite Hpos.
    + apply Hhigh. lia.
Qed.

Lemma post_stop (rem : nat) (f : nat → value) (pos : nat)
    (sols : list Grid) (max : Z) :
  max ≤ Z.of_nat (length sols) →
  search_post rc cc n rem f pos sols max (Ok (false, mk n f, sols)).
Proof.
  intros Hmax. split_and!; [done|..].
  - symmetry. apply bool_decide_eq_false. lia.
  - exists []. rewrite app_nil_r. split_and!; [done|lia|constructor|..].
    + by intros g ?%elem_of_nil.
    + intros _ _ _. replace (Z.to_nat _) with 0%nat by lia. done.
Qed.

Lemma post_leaf (f : nat → value) (pos : nat) (sols : list Grid)
    (max : Z) :
  ¬ max ≤ Z.of_nat (length sols) → (n * n ≤ pos)%nat →
  search_post rc cc n 0 f pos sols max
    (let* valid := isValidSolution (mk n f) rc cc in
     let solutions :=
       if valid then sols ++ [copy2DArray (mk n f)] else sols in
     Ok (bool_decide (Z.of_nat (length solutions) < max),
         mk n f, solutions)).
Proof.
  intros Hmax Hpos.
  destruct (isValidSolution (mk n f) rc cc) as [valid|] eqn:Hvalid; simpl.
  - rewrite copy2DArray_id. split_and!; [done..|].
    exists (if valid then [mk n f] else []). split_and!.
    + destruct valid; [done | by rewrite app_nil_r].
    + destruct valid; [rewrite length_app; simpl|]; lia.
    + destruct valid; [apply NoDup_singleton | constructor].
    + intros g Hg. exists f. split.
      * destruct valid; [by apply list_elem_of_singleton in Hg|].
        by apply elem_of_nil in Hg.
      * split; [done | intros; lia].
    + intros Hrc Hcc _.
      rewrite isValidSolution_satisfies in Hvalid
        by (by rewrite length_mk).
      injection Hvalid as <-. simpl.
      destruct (Z.to_nat (max - Z.of_nat (length sols))) eqn:Hm; [lia|].
      case_bool_decide;
        [rewrite decide_True by done | rewrite decide_False by done];
        simpl; by rewrite ?take_nil.
  - intros [Hrc Hcc].
    destruct (isValidSolution_total (mk n f) rc cc) as [b Hb];
      rewrite ?length_mk; (done || congruence).
Qed.

(** One iteration of the loop over the two candidate values. *)
Lemma post_try (rem : nat) (f fa : nat → value) (pos : nat) (v : value)
    (sols : list Grid) (max : Z) :
  (pos < n * n)%nat → rem = (n * n - S pos)%nat →
  (∀ k, (pos ≤ k)%nat → f k = Unknown) →
  (∀ k, (k < n * n)%nat → k ≠ pos → fa k = f k) →
  is01 v → ¬ max ≤ Z.of_nat (length sols) →
  (∀ f' sols',
     (∀ k, (S pos ≤ k)%nat → f' k = Unknown) →
     search_post rc cc n rem f' (S pos) sols' max
       (backtrack_fuel (S rem) (mk n f') rc cc (S pos) sols' max)) →
  search_post rc cc n rem (upd f pos v) (S pos) sols max
    (let* grid := set_cell (mk n fa) (pos / n) (pos mod n) v in
     let* ok := isValidPartial grid rc cc (pos / n) (pos mod n) in
     if ok then backtrack_fuel (S rem) grid rc cc (pos + 1) sols max
     else Ok (true, grid, sols)).
Proof.
  intros Hpos Hrem Hunk Hfa Hv Hmax IH.
  destruct (position_split n pos Hpos) as (Hr & Hc & _).
  assert (∀ k, (S pos ≤ k)%nat → upd f pos v k = Unknown) as Hunk'
    by (intros k Hk; unfold upd; rewrite decide_False by lia;
        apply Hunk; lia).
  rewrite set_cell_mk by done. simpl.
  rewrite (mk_ext n (upd fa pos v) (upd f pos v))
    by (intros k Hk; unfold upd; destruct (decide (k = pos)); auto).
  destruct (isValidPartial _ rc cc _ _) as [[]|] eqn:Hok; simpl.
  - rewrite Nat.add_1_r. by apply IH.
  - split_and!; [done|..].
    + symmetry. apply bool_decide_eq_true. lia.
    + exists []. rewrite app_nil_r.
      split_and!; [done|lia|constructor|..].
      * by intros g ?%elem_of_nil.
      * intros Hrc Hcc H01.
        destruct (enum rc cc n rem (upd f pos v) (S pos))
          as [|g l] eqn:Henum; [by rewrite take_nil|].
        assert (g ∈ enum rc cc n rem (upd f pos v) (S pos)) as Hg
          by (rewrite Henum; left).
        apply enum_elem in Hg as (h & -> & [Hlow Hhigh] & Hsat); [|lia].
        assert (isValidPartial (mk n (upd f pos v)) rc cc (pos / n)
                  (pos mod n) = Ok true) as Hyes; [|congruence].
        apply (isValidPartial_extension n rc cc _ h); [done|..|done].
        -- intros k Hk. symmetry. apply Hlow. lia.
        -- intros k Hk. apply Hunk'. lia.
        -- intros k Hk. destruct (decide (k < S pos)%nat).
           ++ rewrite Hlow by done. by apply H01.
           ++ apply Hhigh. lia.
  - intros [Hrc Hcc].
    destruct (isValidPartial_total (mk n (upd f pos v)) rc cc
                (pos / n) (pos mod n)) as [b Hb];
      rewrite ?length_mk; (lia || congruence).
Qed.

Lemma is01_upd (f : nat → value) (pos : nat) (v : value) :
  is01 v → (∀ k, (k < pos)%nat → is01 (f k)) →
  ∀ k, (k < S pos)%nat → is01 (upd f pos v k).
Proof.
  intros Hv H01 k Hk. unfold upd.
  destruct (decide (k = pos)); [done | apply H01; lia].
Qed.

(** The first value reached the bound: the second one is not tried. *)
Lemma post_combine_stop (rem : nat) (f : nat → value) (pos : nat)
    (sols sols1 : list Grid) (max : Z) (g1 : Grid) :
  search_post rc cc n rem (upd f pos (Num 1)) (S pos) sols max
    (Ok (false, g1, sols1)) →
  search_post rc cc n (S rem) f pos sols max (Ok (false, mk n f, sols1)).
Proof.
  intros (_ & Hb & new & -> & Hbound & Hnd & Hext & Hexact).
  split_and!; [done..|]. exists new. split_and!; [done..| |].
  - intros g Hg. destruct (Hext g Hg) as (h & -> & Hh).
    exists h. split; [done|].
    by apply (extends_step f h pos (Num 1)); [right|].
  - intros Hrc Hcc H01. simpl.
    rewrite Hexact by (done || by apply is01_upd; [right|]).
    apply take_app_stop.
    symmetry in Hb. apply bool_decide_eq_false in Hb.
    rewrite Hexact in Hb by (done || by apply is01_upd; [right|]).
    rewrite length_app in Hb. lia.
Qed.

(** Both values were tried. *)
Lemma post_combine (rem : nat) (f : nat → value) (pos : nat)
    (sols sols1 sols2 : list Grid) (max : Z) (b2 : bool) (g1 g2 : Grid) :
  (pos < n * n)%nat →
  search_post rc cc n rem (upd f pos (Num 1)) (S pos) sols max
    (Ok (true, g1, sols1)) →
  search_post rc cc n rem (upd f pos (Num 0)) (S pos) sols1 max
    (Ok (b2, g2, sols2)) →
  search_post rc cc n (S rem) f pos sols max (Ok (b2, mk n f, sols2)).
Proof.
  intros Hpos (_ & Hb1 & new1 & -> & Hbound1 & Hnd1 & Hext1 & Hexact1)
    (_ & Hb2 & new2 & -> & Hbound2 & Hnd2 & Hext2 & Hexact2).
  symmetry in Hb1. apply bool_decide_eq_true in Hb1.
  split_and!; [done..|]. exists (new1 ++ new2).
  split_and!; [by rewrite app_assoc|lia| | |].
  - apply NoDup_app. split_and!; [done| |done].
    intros g Hg1 Hg2.
    destruct (Hext2 g Hg2) as (h2 & Heq & Hh2).
    destruct (Hext1 g Hg1) as (h1 & -> & Hh1).
    apply (extends_step f h1 pos (Num 1)) in Hh1 as [_ Hv1]; [|by right].
    apply (extends_step f h2 pos (Num 0)) in Hh2 as [_ Hv2]; [|by left].
    apply (mk_inj n h1 h2 pos) in Heq; [congruence | done].
  - intros g [Hg|Hg]%elem_of_app.
    + destruct (Hext1 g Hg) as (h & -> & Hh). exists h. split; [done|].
      by apply (extends_step f h pos (Num 1)); [right|].
    + destruct (Hext2 g Hg) as (h & -> & Hh). exists h. split; [done|].
      by apply (extends_step f h pos (Num 0)); [left|].
  - intros Hrc Hcc H01. simpl.
    rewrite Hexact1 in * by (done || by apply is01_upd; [right|]).
    rewrite Hexact2 by (done || by apply is01_upd; [left|]).
    apply take_app_go; rewrite length_app in *; lia.
Qed.

Lemma set_cell_restore (f fa : nat → value) (pos : nat) :
  (pos < n * n)%nat → f pos = Unknown →
  (∀ k, (k < n * n)%nat → k ≠ pos → fa k = f k) →
  set_cell (mk n fa) (pos / n) (pos mod n) Unknown = Ok (mk n f).
Proof.
  intros Hpos Hunk Hfa. rewrite set_cell_mk by done. f_equal.
  apply mk_ext. intros k Hk. unfold upd.
  destruct (decide (k = pos)) as [->|Hne]; [done | by apply Hfa].
Qed.

Lemma backtrack_fuel_S (fuel : nat) (grid : Grid) (pos : nat)
    (sols : list Grid) (max : Z) :
  backtrack_fuel (S fuel) grid rc cc pos sols max
  = backtrack_body
      (λ grid pos sols, backtrack_fuel fuel grid rc cc pos sols max)
      grid rc cc pos sols max.
Proof. done. Qed.

(** The search from position [pos] on. *)
Lemma backtrack_fuel_post (rem : nat) (f : nat → value) (pos : nat)
    (sols : list Grid) (max : Z) :
  rem = (n * n - pos)%nat →
  (∀ k, (pos ≤ k)%nat → f k = Unknown) →
  search_post rc cc n rem f pos sols max
    (backtrack_fuel (S rem) (mk n f) rc cc pos sols max).
Proof.
  revert f pos sols.
  induction rem as [|rem IH]; intros f pos sols Hrem Hunk;
    rewrite backtrack_fuel_S; unfold backtrack_body;
    rewrite length_mk; cbv beta zeta;
    (destruct (decide (max ≤ _)) as [Hmax|Hmax]; [by apply post_stop|]).
  - rewrite decide_True by lia. apply post_leaf; [done | lia].
  - rewrite decide_False by lia.
    assert (pos < n * n)%nat as Hpos by lia.
    assert (∀ fa v sols',
              (∀ k, (k < n * n)%nat → k ≠ pos → fa k = f k) →
              is01 v → ¬ max ≤ Z.of_nat (length sols') →
              search_post rc cc n rem (upd f pos v) (S pos) sols' max
                (let* grid := set_cell (mk n fa) (pos / n) (pos mod n) v in
                 let* ok := isValidPartial grid rc cc (pos / n)
                              (pos mod n) in
                 if ok then
                   backtrack_fuel (S rem) grid rc cc (pos + 1) sols' max
                 else Ok (true, grid, sols'))) as Htry.
    { intros fa v sols' Hfa Hv Hmax'.
      apply post_try; try done; [lia|].
      intros f' sols'' Hunk'. apply IH; [lia | done]. }
    pose proof (Htry f (Num 1) sols ltac:(done) ltac:(by right) Hmax)
      as H1.
    destruct (bind (set_cell (mk n f) _ _ (Num 1)) _)
      as [[[b1 g1] sols1]|]; [|done].
    cbn [bind]. pose proof H1 as (-> & Hb1 & new1 & -> & _).
    assert (∀ k, (k < n * n)%nat → k ≠ pos → upd f pos (Num 1) k = f k)
      as Hf1 by (intros k _ Hk; unfold upd; by rewrite decide_False).
    destruct b1; cbn [negb].
    + symmetry in Hb1. apply bool_decide_eq_true in Hb1.
      pose proof (Htry (upd f pos (Num 1)) (Num 0) (sols ++ new1)
                    Hf1 ltac:(by left) ltac:(lia)) as H2.
      destruct (bind (set_cell (mk n (upd f pos (Num 1))) _ _ (Num 0)) _)
        as [[[b2 g2] sols2]|]; [|done].
      cbn [bind]. pose proof H2 as (-> & _).
      assert (∀ k, (k < n * n)%nat → k ≠ pos
                   → upd f pos (Num 0) k = f k)
        as Hf0 by (intros k _ Hk; unfold upd; by rewrite decide_False).
      pose proof (post_combine _ _ _ _ _ _ _ _ _ _ Hpos H1 H2) as H.
      destruct b2; cbn [negb];
        rewrite (set_cell_restore f) by (done || apply Hunk; lia);
        exact H.
    + rewrite (set_cell_restore f) by (done || apply Hunk; lia).
      by apply (post_combine_stop _ _ _ _ _ _ _ H1).
Qed.

End Search.

(** ** The fuel of [backtrack] is enough *)

Section Fuel.

Context (rc cc : list Clue) (max : Z).

Lemma set_cell_length (g g' : Grid) (row col : nat) (v : value) :
  set_cell g row col v = Ok g' → length g' = length g.
Proof.
  unfold set_cell. destruct (deref g row); simpl; [|done].
  intros [= <-]. apply length_insert.
Qed.

(** The body calls [recurse] at [pos + 1] only, below [size * size] and
    on grids as long as its own. *)
Lemma backtrack_body_ext
    (rec1 rec2 : Grid → nat → list Grid → result search_state)
    (g : Grid) (pos : nat) (sols : list Grid) :
  (∀ g1 s b g' s',
     rec2 g1 (pos + 1)%nat s = Ok (b, g', s') → length g' = length g1) →
  (∀ g1 s,
     length g1 = length g → (pos < length g * length g)%nat →
     rec1 g1 (pos + 1)%nat s = rec2 g1 (pos + 1)%nat s) →
  backtrack_body rec1 g rc cc pos sols max
  = backtrack_body rec2 g rc cc pos sols max.
Proof.
  intros Hlen Hext. unfold backtrack_body.
  destruct (decide (max ≤ _)); [done|].
  destruct (decide (_ ≤ pos)%nat) as [|Hpos]; [done|].
  cbv beta zeta.
  assert (∀ v (ga : Grid) s,
            length ga = length g →
            (let* grid := set_cell ga (pos / length g) (pos mod length g) v in
             let* ok := isValidPartial grid rc cc (pos / length g)
                          (pos mod length g) in
             if ok then rec1 grid (pos + 1)%nat s else Ok (true, grid, s))
            = (let* grid := set_cell ga (pos / length g)
                              (pos mod length g) v in
               let* ok := isValidPartial grid rc cc (pos / length g)
                            (pos mod length g) in
               if ok then rec2 grid (pos + 1)%nat s
               else Ok (true, grid, s))) as Htry.
  { intros v ga s Hga.
    destruct (set_cell ga _ _ v) as [g1|] eqn:E; simpl; [|done].
    apply set_cell_length in E.
    destruct (isValidPartial g1 rc cc _ _) as [[]|]; simpl; try done.
    apply Hext; lia. }
  assert (∀ v (ga : Grid) s b g' s',
            length ga = length g →
            (let* grid := set_cell ga (pos / length g)
                            (pos mod length g) v in
             let* ok := isValidPartial grid rc cc (pos / length g)
                          (pos mod length g) in
             if ok then rec2 grid (pos + 1)%nat s else Ok (true, grid, s))
            = Ok (b, g', s') →
            length g' = length g) as Htry_len.
  { intros v ga s b g' s' Hga.
    destruct (set_cell ga _ _ v) as [g1|] eqn:E; simpl; [|done].
    apply set_cell_length in E.
    destruct (isValidPartial g1 rc cc _ _) as [[]|]; simpl; try done.
    - intros Hrec%Hlen. lia.
    - intros [= _ <- _]. lia. }
  rewrite Htry by done.
  destruct (bind (set_cell g _ _ (Num 1)) _) as [[[b1 g1] s1]|] eqn:E1;
    [|done].
  cbn [bind]. apply Htry_len in E1; [|done].
  destruct b1; cbn [negb]; [|done]. by rewrite Htry.
Qed.

Lemma backtrack_fuel_length (fuel : nat) (g : Grid) (pos : nat)
    (sols : list Grid) (b : bool) (g' : Grid) (sols' : list Grid) :
  backtrack_fuel fuel g rc cc pos sols max = Ok (b, g', sols') →
  length g' = length g.
Proof.
  revert g pos sols b g' sols'.
  induction fuel as [|fuel IH]; intros g pos sols b g' sols'; [done|].
  rewrite backtrack_fuel_S. unfold backtrack_body.
  destruct (decide (max ≤ _)); [by intros [= _ <- _]|].
  destruct (decide (_ ≤ pos)%nat).
  { destruct (isValidSolution g rc cc); [|done]. by intros [= _ <- _]. }
  cbv beta zeta.
  assert (∀ v (ga : Grid) s b g' s',
            (let* grid := set_cell ga (pos / length g)
                            (pos mod length g) v in
             let* ok := isValidPartial grid rc cc (pos / length g)
                          (pos mod length g) in
             if ok then backtrack_fuel fuel grid rc cc (pos + 1) s max
             else Ok (true, grid, s))
            = Ok (b, g', s') →
            length g' = length ga) as Htry_len.
  { intros v ga s b0 g0 s0.
    destruct (set_cell ga _ _ v) as [g1|] eqn:E; simpl; [|done].
    apply set_cell_length in E.
    destruct (isValidPartial g1 rc cc _ _) as [[]|]; simpl; try done.
    - intros Hrec%IH. lia.
    - intros [= _ <- _]. lia. }
  destruct (bind (set_cell g _ _ (Num 1)) _) as [[[b1 g1] s1]|] eqn:E1;
    [|done].
  cbn [bind]. apply Htry_len in E1.
  destruct b1; cbn [negb].
  - destruct (bind (set_cell g1 _ _ (Num 0)) _) as [[[b2 g2] s2]|] eqn:E2;
      [|done].
    cbn [bind]. apply Htry_len in E2.
    destruct b2; cbn [negb];
      (destruct (set_cell g2 _ _ Unknown) as [g3|] eqn:E3; [|done]);
      apply set_cell_length in E3; intros [= _ <- _]; lia.
  - destruct (set_cell g1 _ _ Unknown) as [g3|] eqn:E3; [|done].
    apply set_cell_length in E3. intros [= _ <- _]. lia.
Qed.

Lemma backtrack_fuel_enough (fuel1 fuel2 : nat) (g : Grid) (pos : nat)
    (sols : list Grid) :
  (length g * length g - pos < fuel1)%nat →
  (length g * length g - pos < fuel2)%nat →
  backtrack_fuel fuel1 g rc cc pos sols max
  = backtrack_fuel fuel2 g rc cc pos sols max.
Proof.
  revert fuel2 g pos sols.
  induction fuel1 as [|fuel1 IH]; intros [|fuel2] g pos sols H1 H2;
    try lia.
  rewrite !backtrack_fuel_S. apply backtrack_body_ext.
  - intros g1 s b g' s'. apply backtrack_fuel_length.
  - intros g1 s Hg1 Hpos. apply IH; rewrite Hg1; lia.
Qed.

(** [backtrack] obeys the recursive equation of the source. *)
Lemma backtrack_unfold (g : Grid) (pos : nat) (sols : list Grid) :
  backtrack g rc cc pos sols max
  = backtrack_body (λ g pos sols, backtrack g rc cc pos sols max)
      g rc cc pos sols max.
Proof.
  unfold backtrack at 1. rewrite backtrack_fuel_S.
  apply backtrack_body_ext.
  - intros g1 s b g' s'. apply backtrack_fuel_length.
  - intros g1 s Hg1 Hpos. apply backtrack_fuel_enough; rewrite Hg1; lia.
Qed.

End Fuel.

(** ** [solve] *)

Section Solve.

Lemma create2DArray_mk (n : nat) (v : value) :
  create2DArray n n v = mk n (λ _, v).
Proof.
  unfold create2DArray, mk.
  assert (∀ {A} (x : A), (λ _ : nat, x) <$> seq 0 n = replicate n x)
    as Hconst
    by (intros A x; by rewrite (const_fmap _ _ x), length_seq by done).
  by rewrite !Hconst.
Qed.

Context (rc cc : list Clue) (max : Z).

Lemma backtrack_initial :
  search_post rc cc (length rc) (length rc * length rc) (λ _, Unknown) 0
    [] max
    (backtrack (create2DArray (length rc) (length rc) Unknown) rc cc 0 []
       max).
Proof.
  rewrite create2DArray_mk. unfold backtrack.
  rewrite length_mk, Nat.sub_0_r.
  apply backtrack_fuel_post; [lia | done].
Qed.

(** With as many column clues as row clues, [solve] returns the first
    [maxSolutions] satisfying grids in search order. *)
Lemma solve_exact :
  length cc = length rc →
  ∃ r, solve rc cc max = Ok r
       ∧ solutions r = take (Z.to_nat max) (search_order rc cc)
       ∧ unique r = bool_decide (length (solutions r) = 1%nat)
       ∧ solvable r = bool_decide (0 < length (solutions r))%nat.
Proof.
  intros Hcc. unfold solve. pose proof backtrack_initial as Hpost.
  destruct (backtrack _ rc cc 0 [] max) as [[[b g'] sols']|]; simpl.
  - destruct Hpost as (_ & _ & new & -> & _ & _ & _ & Hexact).
    eexists. split_and!; [done| |done..]. simpl.
    rewrite Hexact by (done || intros; lia).
    unfold search_order. f_equal. simpl. lia.
  - destruct Hpost. lia.
Qed.

Lemma search_order_elem (g : Grid) :
  g ∈ search_order rc cc ↔ is_grid01 (length rc) g ∧ satisfies rc cc g.
Proof. apply enum_all. Qed.

Lemma search_order_NoDup : NoDup (search_order rc cc).
Proof. apply enum_NoDup. lia. Qed.

Lemma search_order_length :
  length (search_order rc cc) = count_satisfying rc cc.
Proof. by apply enum_count. Qed.

(** Whatever the clue set, a returned result holds at most
    [maxSolutions] distinct 0/1 grids. *)
Lemma solve_returned (r : SolveResult) :
  solve rc cc max = Ok r →
  Z.of_nat (length (solutions r)) ≤ Z.max max 0
  ∧ NoDup (solutions r)
  ∧ (∀ g, g ∈ solutions r → is_grid01 (length rc) g)
  ∧ unique r = bool_decide (length (solutions r) = 1%nat)
  ∧ solvable r = bool_decide (0 < length (solutions r))%nat.
Proof.
  unfold solve. pose proof backtrack_initial as Hpost.
  destruct (backtrack _ rc cc 0 [] max) as [[[b g'] sols']|]; [|done].
  simpl. intros [= <-]. simpl.
  destruct Hpost as (_ & _ & new & -> & Hbound & Hnd & Hext & _).
  simpl in *. split_and!; [lia|done| |done..].
  intros g Hg. destruct (Hext g Hg) as (h & -> & [_ Hhigh]).
  apply mk_is_grid01. intros k Hk. apply Hhigh. lia.
Qed.

End Solve.

(** C1.  On a clue set of [N] row clues and [N] column clues and with
    [maxSolutions >= 1], [solve] returns at most [maxSolutions] solutions;
    with [maxSolutions >= 2] it reports [unique] exactly when the number of
    [N]-by-[N] 0/1 grids satisfying the clue set is one; [unique] is true
    iff exactly one solution was found and [solvable] iff at least one
    was. *)
Theorem solve_bound_and_uniqueness (rc cc : list Clue) (max : Z) :
  length cc = length rc → 1 ≤ max →
  ∃ r, solve rc cc max = Ok r
       ∧ Z.of_nat (length (solutions r)) ≤ max
       ∧ (2 ≤ max → (unique r = true ↔ count_satisfying rc cc = 1%nat))
       ∧ (unique r = true ↔ length (solutions r) = 1%nat)
       ∧ (solvable r = true ↔ (0 < length (solutions r))%nat).
Proof.
  intros Hcc Hmax.
  destruct (solve_exact rc cc max Hcc) as (r & Hr & Hsols & Hu & Hs).
  exists r. rewrite Hu, Hs, !bool_decide_eq_true.
  split_and!; [done| | |done..].
  - rewrite Hsols, length_take. lia.
  - intros Hmax2.
    rewrite Hsols, length_take, search_order_length. lia.
Qed.

Lemma solve_bound_and_uniqueness_witness :
  ∃ r, solve [[1]; [1]] [[1]; [1]] 2 = Ok r
       ∧ Z.of_nat (length (solutions r)) ≤ 2
       ∧ (2 ≤ 2 → (unique r = true
                    ↔ count_satisfying [[1]; [1]] [[1]; [1]] = 1%nat))
       ∧ (unique r = true ↔ length (solutions r) = 1%nat)
       ∧ (solvable r = true ↔ (0 < length (solutions r))%nat).
Proof.
  apply (solve_bound_and_uniqueness [[1]; [1]] [[1]; [1]] 2);
    [reflexivity | lia].
Defined.

(** C2, as stated, fails: with [maxSolutions = 1] the search stops at the
    first solution it finds, and for the clues of the two-by-two
    anti-diagonal that is the diagonal. *)
Lemma solve_includes_original_counterexample :
  ¬ (∀ (n : nat) (g : Grid) (max : Z),
       is_grid01 n g → 1 ≤ max →
       ∃ r, solve (rowClues (calculateAll g)) (colClues (calculateAll g))
              max = Ok r
            ∧ g ∈ solutions r).
Proof.
  intros Hclaim.
  destruct (Hclaim 2%nat anti_diagonal 1) as (r & Hr & Hin);
    [compute_done | lia |].
  vm_compute in Hr. injection Hr as <-. simpl in Hin.
  apply list_elem_of_singleton in Hin. discriminate Hin.
Qed.

(** C2, amended.  A 0/1 grid satisfies the clues derived from it and is
    never pruned away: [solve] on these clues returns it among the
    solutions whenever the bound does not cut the search off, that is
    whenever at most [maxSolutions] grids satisfy the clues, and in
    particular whenever fewer than [maxSolutions] solutions are
    returned. *)
Theorem solve_includes_original (n : nat) (g : Grid) (max : Z) :
  is_grid01 n g → 1 ≤ max →
  let clues := calculateAll g in
  satisfies (rowClues clues) (colClues clues) g
  ∧ ∃ r, solve (rowClues clues) (colClues clues) max = Ok r
         ∧ (Z.of_nat (count_satisfying (rowClues clues) (colClues clues))
            ≤ max → g ∈ solutions r)
         ∧ (Z.of_nat (length (solutions r)) < max → g ∈ solutions r).
Proof.
  intros Hg Hmax. simpl. split; [done|].
  assert (length (calculateRows g) = n) as Hrows
    by (unfold calculateRows; rewrite length_fmap; apply Hg).
  assert (length (calculateColumns g) = length (calculateRows g)) as Hcols
    by (unfold calculateColumns, calculateRows;
        by rewrite !length_fmap, length_seq).
  destruct (solve_exact _ _ max Hcols) as (r & Hr & Hsols & _).
  assert (g ∈ search_order (calculateRows g) (calculateColumns g)) as Hin
    by (apply search_order_elem; by rewrite Hrows).
  exists r. rewrite Hsols. split_and!; [done|..]; intros Hle;
    rewrite take_ge; (done || idtac).
  - rewrite search_order_length. lia.
  - rewrite length_take in Hle. lia.
Qed.

Lemma solve_includes_original_witness :
  let clues := calculateAll anti_diagonal in
  satisfies (rowClues clues) (colClues clues) anti_diagonal
  ∧ ∃ r, solve (rowClues clues) (colClues clues) 2 = Ok r
         ∧ (Z.of_nat (count_satisfying (rowClues clues) (colClues clues))
            ≤ 2 → anti_diagonal ∈ solutions r)
         ∧ (Z.of_nat (length (solutions r)) < 2
            → anti_diagonal ∈ solutions r).
Proof.
  apply (solve_includes_original 2 anti_diagonal 2); [compute_done | lia].
Defined.

Section EmptyGrid.

Lemma calculateLine_zeros (n : nat) :
  calculateLine (replicate n Empty) = [0].
Proof.
  rewrite calculateLine_runs.
  assert (runs_from 0 (replicate n Empty) = []) as ->; [|done].
  apply runs_from_nil; [lia|]. split; [lia|].
  by intros [? _]%elem_of_replicate.
Qed.

Lemma calculateLine_zero_inv (line : Line) :
  calculateLine line = [0] → Num 1 ∉ line.
Proof.
  rewrite calculateLine_runs. intros Hclue.
  destruct (runs_from 0 line) as [|c r] eqn:Hr.
  - by apply runs_from_nil in Hr as [_ ?].
  - pose proof (runs_from_positive line 0) as Hpos.
    rewrite Hr, Hclue in Hpos. inversion Hpos; lia.
Qed.

Lemma NoDup_all_equal {A} (l : list A) (z : A) :
  NoDup l → z ∈ l → (∀ x, x ∈ l → x = z) → l = [z].
Proof.
  intros Hnd Hz Hall. destruct l as [|a [|b l]].
  - by apply elem_of_nil in Hz.
  - by rewrite (Hall a) by left.
  - apply NoDup_cons in Hnd as [Hab _]. exfalso. apply Hab.
    rewrite (Hall a), (Hall b) by (repeat constructor). left.
Qed.

Context (n : nat).

Lemma zeros_clues :
  calculateRows (create2DArray n n Empty) = replicate n [0]
  ∧ calculateColumns (create2DArray n n Empty) = replicate n [0].
Proof.
  unfold calculateRows, calculateColumns, create2DArray. split.
  - by rewrite fmap_replicate, calculateLine_zeros.
  - rewrite length_replicate.
    rewrite (const_fmap _ _ [0]); [by rewrite length_seq|].
    intros i col Hcol%lookup_seq. unfold column.
    rewrite fmap_replicate, lookup_replicate_2 by lia.
    apply calculateLine_zeros.
Qed.

Lemma zeros_only (g : Grid) :
  is_grid01 n g → calculateRows g = replicate n [0] →
  g = create2DArray n n Empty.
Proof.
  intros [Hlen Hrows] Hclues. symmetry.
  apply replicate_as_elem_of. split; [done|]. intros row Hrow.
  rewrite Forall_forall in Hrows. destruct (Hrows row Hrow) as [Hw H01].
  symmetry. apply replicate_as_Forall. split; [done|].
  assert (calculateLine row = [0]) as Hclue.
  { apply (elem_of_replicate_inv _ n). rewrite <- Hclues.
    unfold calculateRows. apply list_elem_of_fmap. by exists row. }
  apply calculateLine_zero_inv in Hclue.
  rewrite Forall_forall in H01. apply Forall_forall. intros v Hv.
  destruct (H01 v Hv) as [-> | ->]; [done | by destruct Hclue].
Qed.

End EmptyGrid.

(** C4.  The all-zeros grid has every row clue and every column clue
    equal to [0], and [solve] on that clue set with [maxSolutions = 2]
    returns exactly one solution, the all-zeros grid, and reports it
    unique. *)
Theorem solve_empty_grid_unique (n : nat) :
  let zeros := create2DArray n n Empty in
  calculateRows zeros = replicate n [0]
  ∧ calculateColumns zeros = replicate n [0]
  ∧ ∃ r, solve (replicate n [0]) (replicate n [0]) 2 = Ok r
         ∧ solutions r = [zeros] ∧ unique r = true.
Proof.
  destruct (zeros_clues n) as [Hrows Hcols]. simpl. split_and!; [done..|].
  set (rc := replicate n [0]) in *.
  destruct (solve_exact rc rc 2 eq_refl) as (r & Hr & Hsols & Hu & _).
  assert (length rc = n) as Hlen by apply length_replicate.
  assert (search_order rc rc = [create2DArray n n Empty]) as Horder.
  { apply NoDup_all_equal.
    - apply search_order_NoDup.
    - apply search_order_elem. rewrite Hlen. split; [|done].
      rewrite create2DArray_mk. apply mk_is_grid01. intros; by left.
    - intros g [Hg [Hsat _]]%search_order_elem.
      rewrite Hlen in Hg. by apply zeros_only. }
  exists r. rewrite Hu, Hsols, Horder. done.
Qed.

(** C6, as stated, fails: [backtrack] resets the cell at [pos] to unknown
    on the way out, whatever the cell held on entry.  On the one-cell grid
    holding 1 it returns with that cell unknown. *)
Lemma backtrack_restores_grid_counterexample :
  ¬ (∀ (n : nat) (grid : Grid) (rc cc : list Clue) (pos : nat)
       (sols : list Grid) (max : Z) (b : bool) (grid' : Grid)
       (sols' : list Grid),
       is_square n grid →
       Forall (Forall (λ v, v = Unknown ∨ is01 v)) grid →
       backtrack grid rc cc pos sols max = Ok (b, grid', sols') →
       grid' = grid).
Proof.
  intros Hclaim.
  specialize (Hclaim 1%nat [[Num 1]] [[1]] [[1]] 0%nat [] 1
                false [[Unknown]] [[[Num 1]]]).
  discriminate Hclaim; [compute_done | compute_done | by vm_compute].
Qed.

(** C6, amended.  On a square grid whose cells from position [pos] on are
    unknown, as they are at every call within [solve], a call of
    [backtrack] that returns, with either return value, leaves every cell
    of the grid as it was on entry, and it does return when the clue set
    has a clue for every row and column.  In particular the working grid
    of [solve] is all unknown again after the search. *)
Theorem backtrack_restores_grid (n : nat) (grid : Grid) (rc cc : list Clue)
    (pos : nat) (sols : list Grid) (max : Z) :
  is_square n grid →
  (∀ k, (pos ≤ k < n * n)%nat → cell_of n grid k = Unknown) →
  (∀ b grid' sols',
     backtrack grid rc cc pos sols max = Ok (b, grid', sols') →
     grid' = grid)
  ∧ ((n ≤ length rc)%nat → (n ≤ length cc)%nat →
     ∃ st, backtrack grid rc cc pos sols max = Ok st)
  ∧ (∀ b grid' sols',
       backtrack (create2DArray (length rc) (length rc) Unknown) rc cc 0 []
         max = Ok (b, grid', sols') →
       grid' = create2DArray (length rc) (length rc) Unknown).
Proof.
  intros Hsq Hunk.
  set (f := λ k, if decide (k < n * n)%nat then cell_of n grid k
                 else Unknown).
  assert (grid = mk n f) as Hgrid.
  { rewrite (mk_cell_of n grid Hsq) at 1. apply mk_ext.
    intros k Hk. unfold f. by rewrite decide_True. }
  assert (∀ k, (pos ≤ k)%nat → f k = Unknown) as Hf.
  { intros k Hk. unfold f. case_decide; [apply Hunk; lia | done]. }
  assert (∀ b grid' sols',
            backtrack (create2DArray (length rc) (length rc) Unknown) rc cc
              0 [] max = Ok (b, grid', sols') →
            grid' = create2DArray (length rc) (length rc) Unknown) as Hsolve.
  { intros b grid' sols' Hbt.
    pose proof (backtrack_initial rc cc max) as Hinit.
    rewrite Hbt in Hinit. destruct Hinit as (-> & _).
    by rewrite create2DArray_mk. }
  pose proof (backtrack_fuel_post n rc cc (n * n - pos) f pos sols max
                eq_refl Hf) as Hpost.
  unfold backtrack at 1 2. rewrite Hgrid, length_mk.
  destruct (backtrack_fuel _ (mk n f) rc cc pos sols max)
    as [[[b1 g1] sols1]|].
  - destruct Hpost as (-> & _). split_and!; [|by eexists|done].
    by intros b grid' sols' [= _ <- _].
  - split_and!; [done|intros; by destruct Hpost|done].
Qed.

Lemma backtrack_restores_grid_witness :
  let grid := [[Num 1; Unknown]; [Unknown; Unknown]] in
  (∀ b grid' sols',
     backtrack grid [[1]; [1]] [[1]; [1]] 1 [] 2 = Ok (b, grid', sols') →
     grid' = grid)
  ∧ ∃ st, backtrack grid [[1]; [1]] [[1]; [1]] 1 [] 2 = Ok st.
Proof.
  destruct (backtrack_restores_grid 2 [[Num 1; Unknown]; [Unknown; Unknown]]
              [[1]; [1]] [[1]; [1]] 1 [] 2) as (Hsame & Htotal & _).
  - compute_done.
  - intros k Hk.
    assert (k = 1 ∨ k = 2 ∨ k = 3)%nat as [-> | [-> | ->]] by lia;
      reflexivity.
  - split; [exact Hsame | apply Htotal; simpl; lia].
Defined.

(** C9.  At bound one the [unique] flag is the [solvable] flag: a result
    of [solve] with [maxSolutions = 1] that is solvable is reported unique,
    also on a clue set that many grids satisfy, such as the one of the
    two-by-two anti-diagonal with its two solutions. *)
Theorem solve_bound_one_unique_is_solvable (rc cc : list Clue) :
  (length cc = length rc → ∃ r, solve rc cc 1 = Ok r)
  ∧ (∀ r, solve rc cc 1 = Ok r → solvable r = true → unique r = true)
  ∧ (∃ r, solve (calculateRows anti_diagonal)
            (calculateColumns anti_diagonal) 1 = Ok r
          ∧ unique r = true
          ∧ count_satisfying (calculateRows anti_diagonal)
              (calculateColumns anti_diagonal) = 2%nat).
Proof.
  split_and!.
  - intros Hcc. destruct (solve_exact rc cc 1 Hcc) as (r & Hr & _).
    by exists r.
  - intros r Hr. destruct (solve_returned rc cc 1 r Hr)
      as (Hbound & _ & _ & -> & ->).
    rewrite !bool_decide_eq_true. lia.
  - eexists. split_and!; [vm_compute; reflexivity | done | by vm_compute].
Qed.

Lemma solve_bound_one_unique_is_solvable_witness :
  ∃ r, solve [[1]] [[1]] 1 = Ok r ∧ solvable r = true ∧ unique r = true.
Proof.
  destruct (solve_bound_one_unique_is_solvable [[1]] [[1]])
    as (Htotal & Himp & _).
  destruct (Htotal eq_refl) as [r Hr]. exists r.
  assert (solvable r = true) as Hs
    by (vm_compute in Hr; by injection Hr as <-).
  split_and!; [done | done | by apply Himp].
Defined.

(** C10.  Whatever the clue set and the bound, the solutions [solve]
    returns are pairwise distinct and every cell of every one of them is 0
    or 1: the unknown value [-1] is in none.  (On a clue set of [N] row
    and [N] column clues [solve] does return.) *)
Theorem solve_solutions_distinct_and_binary (rc cc : list Clue) (max : Z) :
  (length cc = length rc → ∃ r, solve rc cc max = Ok r)
  ∧ ∀ r, solve rc cc max = Ok r →
         NoDup (solutions r)
         ∧ ∀ g, g ∈ solutions r →
                Forall (Forall is01) g ∧ Forall (λ row, Unknown ∉ row) g.
Proof.
  split.
  { intros Hcc. destruct (solve_exact rc cc max Hcc) as (r & Hr & _).
    by exists r. }
  intros r Hr. destruct (solve_returned rc cc max r Hr)
    as (_ & Hnd & H01 & _).
  split; [done|]. intros g Hg. destruct (H01 g Hg) as [_ Hrows].
  split; (eapply Forall_impl; [exact Hrows|]); intros row [_ Hrow]; [done|].
  rewrite Forall_forall in Hrow. intros Hin.
  by destruct (Hrow _ Hin).
Qed.

Lemma solve_solutions_distinct_and_binary_witness :
  ∃ r, solve [[1]; [1]] [[1]; [1]] 5 = Ok r
       ∧ NoDup (solutions r)
       ∧ ∀ g, g ∈ solutions r →
              Forall (Forall is01) g ∧ Forall (λ row, Unknown ∉ row) g.
Proof.
  eexists. split; [vm_compute; reflexivity|].
  apply (proj2 (solve_solutions_distinct_and_binary [[1]; [1]] [[1]; [1]] 5)).
  vm_compute. reflexivity.
Defined.

(** C8.  The three literal cases of [calculateLine]: a mixed line gives
    [2,1,3], an empty line gives the sentinel [0], and a full line gives
    [4]. *)
Theorem calculateLine_literal_cases :
  calculateLine (cells [1; 1; 0; 1; 0; 0; 1; 1; 1; 0]) = [2; 1; 3]
  ∧ calculateLine (cells [0; 0; 0; 0]) = [0]
  ∧ calculateLine (cells [1; 1; 1; 1]) = [4].
Proof. repeat split; reflexivity. Qed.

(** C5.  On a 0/1 line, [calculateLine] returns the one-element sequence
    [0] when no cell is filled, and otherwise a sequence of positive
    integers whose sum plus its length minus one is at most the length of
    the line. *)
Theorem calculateLine_clue_invariant (line : Line) :
  Forall is01 line →
  (Num 1 ∉ line → calculateLine line = [0])
  ∧ (Num 1 ∈ line →
       Forall (λ c, 0 < c) (calculateLine line)
       ∧ clue_sum (calculateLine line)
         + (Z.of_nat (length (calculateLine line)) - 1)
         ≤ Z.of_nat (length line)).
Proof.
  intros _. rewrite calculateLine_runs. split.
  - intros Hno.
    assert (runs_from 0 line = []) as ->; [|done].
    apply runs_from_nil; [lia|]. split; [lia | done].
  - intros Hin.
    pose proof (runs_from_positive line 0) as Hpos.
    pose proof (runs_from_bound line 0 ltac:(lia)) as Hb.
    destruct (runs_from 0 line) as [|c r] eqn:Hr.
    + apply runs_from_nil in Hr as [_ Hr]; [done | lia].
    + split; [done | lia].
Qed.

Lemma calculateLine_clue_invariant_witness :
  let line := cells [1; 0; 1; 1] in
  Forall is01 line
  ∧ (Num 1 ∉ line → calculateLine line = [0])
  ∧ (Num 1 ∈ line →
       Forall (λ c, 0 < c) (calculateLine line)
       ∧ clue_sum (calculateLine line)
         + (Z.of_nat (length (calculateLine line)) - 1)
         ≤ Z.of_nat (length line)).
Proof.
  assert (Forall is01 (cells [1; 0; 1; 1])) as H01
    by (repeat constructor; (by left) || (by right)).
  split; [exact H01|].
  exact (calculateLine_clue_invariant (cells [1; 0; 1; 1]) H01).
Defined.

(** ** The fill percentage *)

(** [fill_percentage] gives what the binary64 arithmetic of the kernel
    gives for [0.4 + r * 0.3], on draws from both ends of the range, with
    short and with full significands, and on subnormal ones. *)
Lemma fill_percentage_binary64 :
  forallb (λ r, Qeq_bool (Generator.fill_percentage (float_to_Q r))
                  (float_to_Q (fill_binary64 r)))
    [0x0p+0; 0x1p-1074; 0x1.c5p-1030; 0x1p-1022; 0x1.2b3c4d5e6f708p-500;
     0x1p-53; 0x1.fffffffffffffp-53; 0x1.a36e2eb1c432dp-14;
     0x1.999999999999ap-4; 0x1.5555555555555p-2; 0x1.8p-2;
     0x1.6a09e667f3bcdp-1; 0x1p-1; 0x1.0000000000001p-1;
     0x1.3333333333333p-1; 0x1.921fb54442d18p-1; 0x1.ffffffffffffep-1;
     0x1.fffffffffffffp-1]%float
  = true.
Proof. vm_compute. reflexivity. Qed.

(** With the draws 0.375 and then 2308094809027379 / 2 ^ 52, the fill
    percentage is the second draw, below 41 / 80, and the one cell of a
    1-by-1 grid is not below it: the candidate sampled is the empty
    grid. *)
Lemma candidates_in_doubles :
  (Generator.fill_percentage (3 # 8)
   == 2308094809027379 # 4503599627370496)%Q
  ∧ (Generator.fill_percentage (3 # 8) < 41 # 80)%Q
  ∧ Generator.candidates
      (draws [3 # 8; 2308094809027379 # 4503599627370496]) 1 1 0
    = [[[Num 0]]].
Proof. split_and!; [by vm_compute..|by vm_compute]. Qed.

(** ** The generator *)

Section Generate.
Import Generator.

Lemma set_cell_total (g : Grid) (row col : nat) (v : value) :
  (row < length g)%nat →
  ∃ g', set_cell g row col v = Ok g' ∧ length g' = length g.
Proof.
  intros Hrow. destruct (lookup_lt_is_Some_2 g row Hrow) as [line Hline].
  unfold set_cell. rewrite (deref_Some _ _ _ Hline). simpl.
  eexists. split; [done|]. by rewrite length_insert.
Qed.

Lemma solve_derived_total (g : Grid) :
  ∃ r, solve (rowClues (calculateAll g)) (colClues (calculateAll g)) 2
       = Ok r.
Proof.
  destruct (solve_exact (calculateRows g) (calculateColumns g) 2)
    as (r & Hr & _); [|by exists r].
  unfold calculateColumns, calculateRows.
  by rewrite !length_fmap, length_seq.
Qed.

Context (random : nat → Q) (today : string).

Lemma fill_row_total (fill : Q) (row : nat) (cols : list nat)
    (g : Grid) (k : nat) :
  (row < length g)%nat →
  ∃ g' k',
    for_each cols (fill_cell random fill row) (g, k) = Ok (g', k')
    ∧ length g' = length g.
Proof.
  revert g k. induction cols as [|col cols IH]; intros g k Hrow; simpl.
  - by eexists _, _.
  - destruct (set_cell_total g row col
                (if negb (Qle_bool fill (random k)) then Num 1 else Num 0)
                Hrow) as (g1 & -> & Hlen).
    simpl. destruct (IH g1 (S k)) as (g' & k' & -> & Hlen'); [lia|].
    eexists _, _. split; [done | lia].
Qed.

Lemma generateRandomGrid_total (size : nat) (fill : Q) (k : nat) :
  ∃ g k', generateRandomGrid random size fill k = Ok (g, k')
          ∧ length g = size.
Proof.
  unfold generateRandomGrid.
  assert (∀ rows (g : Grid) k,
            length g = size → (∀ row, row ∈ rows → (row < size)%nat) →
            ∃ g' k',
              for_each rows
                (λ row, for_each (seq 0 size) (fill_cell random fill row))
                (g, k) = Ok (g', k')
              ∧ length g' = size) as Hrows.
  { induction rows as [|row rows IH]; intros g k0 Hlen Hin; simpl.
    - by eexists _, _.
    - destruct (fill_row_total fill row (seq 0 size) g k0)
        as (g1 & k1 & -> & Hlen1); [rewrite Hlen; apply Hin; left|].
      simpl. apply IH; [lia|]. intros r Hr. apply Hin. by right. }
  apply Hrows.
  - unfold create2DArray. apply length_replicate.
  - intros row Hrow%elem_of_seq. lia.
Qed.

Lemma generate_loop_spec (attempts size k : nat) :
  (∃ o, generate_loop random today attempts size k = Ok o)
  ∧ (∀ p, generate_loop random today attempts size k = Ok (Some p) →
       solution p ∈ candidates random attempts size k
       ∧ ∃ r, solve (rowClues (calculateAll (solution p)))
                (colClues (calculateAll (solution p))) 2 = Ok r
              ∧ unique r = true)
  ∧ ((∀ g r, g ∈ candidates random attempts size k →
        solve (rowClues (calculateAll g)) (colClues (calculateAll g)) 2
        = Ok r →
        unique r = false) →
     generate_loop random today attempts size k = Ok None).
Proof.
  revert k. induction attempts as [|attempts IH]; intros k; simpl.
  - split_and!; [by eexists|done..].
  - destruct (generateRandomGrid_total size
                (fill_percentage (random k)) (S k))
      as (g & k' & -> & _).
    simpl. destruct (solve_derived_total g) as [r Hr].
    simpl in Hr. rewrite Hr. simpl.
    destruct (IH k') as (Htotal & Hsome & Hnone).
    destruct (unique r) eqn:Hu.
    + split_and!; [by eexists| |].
      * intros p [= <-]. simpl. split; [left | by exists r].
      * intros Hall. specialize (Hall g r ltac:(left) Hr). congruence.
    + split_and!; [done| |].
      * intros p Hp. destruct (Hsome p Hp) as [Hin Hsolve].
        split; [by right | done].
      * intros Hall. apply Hnone. intros g' r' Hg'. apply Hall. by right.
Qed.

End Generate.

(** C3.  [generate] returns a puzzle or none, never an error.  A returned
    puzzle has one of the sampled candidate grids as its solution and
    [solve] on the clues derived from it, with [maxSolutions = 2], reports
    [unique]; when none of the candidates sampled in the [maxAttempts]
    attempts has a unique clue set, [generate] returns none. *)
Theorem generate_postcondition (random : nat → Q) (today : string)
    (size maxAttempts : nat) :
  let sampled := Generator.candidates random maxAttempts size 0 in
  (∃ o, Generator.generate random today size maxAttempts = Ok o)
  ∧ (∀ p, Generator.generate random today size maxAttempts = Ok (Some p) →
       Generator.solution p ∈ sampled
       ∧ ∃ r, solve (rowClues (calculateAll (Generator.solution p)))
                (colClues (calculateAll (Generator.solution p))) 2 = Ok r
              ∧ unique r = true)
  ∧ ((∀ g r, g ∈ sampled →
        solve (rowClues (calculateAll g)) (colClues (calculateAll g)) 2
        = Ok r →
        unique r = false) →
     Generator.generate random today size maxAttempts = Ok None).
Proof.
  intros sampled. unfold Generator.generate, sampled.
  apply (generate_loop_spec random today maxAttempts size 0).
Qed.

Lemma generate_postcondition_witness :
  ∃ p, Generator.generate
         (draws [3 # 8; 2308094809027379 # 4503599627370496])
         "2024-01-01" 1 1 = Ok (Some p)
       ∧ Generator.solution p = [[Num 0]]
       ∧ ∃ r, solve (rowClues (calculateAll (Generator.solution p)))
                (colClues (calculateAll (Generator.solution p))) 2 = Ok r
              ∧ unique r = true.
Proof.
  destruct (generate_postcondition
              (draws [3 # 8; 2308094809027379 # 4503599627370496])
              "2024-01-01" 1 1)
    as (_ & Hsome & _).
  eexists. split; [vm_compute; reflexivity|].
  split; [reflexivity|].
  apply Hsome. vm_compute. reflexivity.
Defined.

(** ** Loading a puzzle record *)

Section Loading.
Import Json.

Lemma Qeq_bool_inject_Z (a b : Z) :
  Qeq_bool (inject_Z a) (inject_Z b) = bool_decide (a = b).
Proof.
  unfold Qeq_bool. simpl. rewrite !Z.mul_1_r.
  destruct (Z.eqb_spec a b) as [->|Hne].
  - by rewrite bool_decide_eq_true_2.
  - by rewrite bool_decide_eq_false_2.
Qed.

Lemma cell_view_parsed (v : value) :
  Parsed.cell_view (Some (Player.parsed_cell v)) = v.
Proof.
  destruct v as [n|]; [|done]. unfold Parsed.cell_view. simpl.
  rewrite Z.div_1_r, Qeq_bool_inject_Z.
  by rewrite bool_decide_eq_true_2.
Qed.

Lemma each_Ok {A B} (f : A → result B) (g : A → B) (l : list A) :
  (∀ x, x ∈ l → f x = Ok (g x)) →
  Parsed.each f l = Ok (g <$> l).
Proof.
  induction l as [|x l IH]; intros Hf; simpl; [done|].
  rewrite (Hf x) by left. simpl. rewrite IH; [done|].
  intros y Hy. apply Hf. by right.
Qed.

Lemma seq_lookup_fmap {A B} (f : option A → B) (l : list A) :
  (λ i, f (l !! i)) <$> seq 0 (length l) = (λ x, f (Some x)) <$> l.
Proof.
  apply list_eq. intros i. rewrite !list_lookup_fmap.
  destruct (decide (i < length l)%nat) as [Hlt|Hge].
  - rewrite lookup_seq_lt by done. simpl.
    destruct (lookup_lt_is_Some_2 l i Hlt) as [x Hx]. by rewrite Hx.
  - rewrite lookup_seq_ge by lia.
    by rewrite (lookup_ge_None_2 l i) by lia.
Qed.

Lemma modelled_parsed (sol : Grid) :
  Parsed.modelled (Player.parsed_rows sol) = true.
Proof.
  unfold Parsed.modelled, Player.parsed_rows.
  apply forallb_forall. intros row Hrow%in_map_iff.
  by destruct Hrow as (line & <- & _).
Qed.

Lemma calculateRows_parsed (sol : Grid) :
  Parsed.calculateRows (Player.parsed_rows sol) = Ok (calculateRows sol).
Proof.
  unfold Parsed.calculateRows, Player.parsed_rows, calculateRows.
  rewrite (each_Ok _ (λ row, calculateLine
                               (Parsed.cell_view <$> (default [] (
                                  match row with
                                  | JArray items => Some (Some <$> items)
                                  | _ => None
                                  end))))).
  - f_equal. rewrite <- list_fmap_compose. apply list_fmap_ext.
    intros _ line _. simpl. f_equal.
    rewrite <- !list_fmap_compose. rewrite <- (list_fmap_id line) at 2.
    apply list_fmap_ext. intros _ v _. apply cell_view_parsed.
  - intros row (line & -> & _)%list_elem_of_fmap. done.
Qed.

Lemma calculateColumns_parsed (sol : Grid) :
  Parsed.calculateColumns (Player.parsed_rows sol)
  = Ok (calculateColumns sol).
Proof.
  unfold Parsed.calculateColumns, calculateColumns.
  assert (length (Player.parsed_rows sol) = length sol) as Hlen
    by (unfold Player.parsed_rows; by rewrite length_fmap).
  rewrite Hlen.
  apply (each_Ok _ (λ col, calculateLine (column sol col))).
  intros col _.
  rewrite (each_Ok _ (λ row, default Undefined
                               (sol !! row ≫= λ line : Line, line !! col))).
  - simpl. do 2 f_equal. unfold column.
    rewrite (seq_lookup_fmap
               (λ o, default Undefined (o ≫= λ line : Line, line !! col))).
    done.
  - intros row Hrow%elem_of_seq. unfold Player.parsed_rows.
    rewrite list_lookup_fmap.
    destruct (lookup_lt_is_Some_2 sol row ltac:(lia)) as [line ->]. simpl.
    rewrite list_lookup_fmap.
    destruct (line !! col) as [v|]; simpl; [|done].
    f_equal. apply cell_view_parsed.
Qed.

Lemma calculateAll_parsed (sol : Grid) :
  Parsed.calculateAll (Some (JArray (Player.parsed_rows sol)))
  = Ok (calculateAll sol).
Proof.
  unfold Parsed.calculateAll.
  by rewrite calculateRows_parsed, calculateColumns_parsed.
Qed.

(** [loadPuzzle] on a record whose rows are arrays of numbers. *)
Lemma loadPuzzle_parsed (puzzle : Player.PuzzleRecord) :
  Player.loadPuzzle (Player.parsed puzzle)
  = match Player.size puzzle, Player.solution puzzle with
    | Some sz, Some sol =>
        if decide (sz = 0) then Player.Threw "Invalid puzzle format"
        else if decide (sz ≠ 10 ∧ sz ≠ 15) then
          Player.Threw "Puzzle size must be 10 or 15"
        else if decide (Z.of_nat (length sol) ≠ sz) then
          Player.Threw "Puzzle dimensions do not match specified size"
        else
          match sol !! 0%nat with
          | None => Player.ThrewTypeError None
          | Some first =>
              if decide (Z.of_nat (length first) ≠ sz) then
                Player.Threw "Puzzle dimensions do not match specified size"
              else Player.Loaded (Player.parsed puzzle) (calculateAll sol)
          end
    | _, _ => Player.Threw "Invalid puzzle format"
    end.
Proof.
  unfold Player.loadPuzzle, Player.parsed.
  destruct (Player.size puzzle) as [sz|]; [|by destruct (Player.solution _)].
  assert (negb (negb (Qeq_bool (inject_Z sz) 0))
          = bool_decide (sz = 0)) as Hzero.
  { change 0%Q with (inject_Z 0). rewrite Qeq_bool_inject_Z.
    by destruct (bool_decide (sz = 0)). }
  destruct (Player.solution puzzle) as [sol|]; simpl.
  - unfold number_of. rewrite Hzero, !Qeq_bool_inject_Z.
    destruct (decide (sz = 0)) as [->|Hz]; [done|].
    rewrite (bool_decide_eq_false_2 (sz = 0)) by done.
    destruct (decide (sz ≠ 10 ∧ sz ≠ 15)) as [[H10 H15]|Hin].
    { by rewrite !bool_decide_eq_false_2 by done. }
    assert (negb (bool_decide (sz = 10)) && negb (bool_decide (sz = 15))
            = false) as ->.
    { destruct (decide (sz = 10)) as [->|?]; [done|].
      destruct (decide (sz = 15)) as [->|?]; [done|].
      exfalso. by apply Hin. }
    assert (length (Player.parsed_rows sol) = length sol) as ->
      by (unfold Player.parsed_rows; by rewrite length_fmap).
    destruct (decide (Z.of_nat (length sol) ≠ sz)) as [Hlen|Hlen].
    { by rewrite bool_decide_eq_false_2 by done. }
    apply dec_stable in Hlen.
    rewrite bool_decide_eq_true_2 by done.
    simpl. unfold Player.parsed_rows at 1. rewrite list_lookup_fmap.
    destruct (sol !! 0%nat) as [first|] eqn:Hfirst; simpl; [|done].
    unfold number_of. rewrite length_fmap, Qeq_bool_inject_Z.
    destruct (decide (Z.of_nat (length first) ≠ sz)) as [Hw|Hw].
    { by rewrite bool_decide_eq_false_2 by done. }
    apply dec_stable in Hw.
    rewrite bool_decide_eq_true_2 by done.
    simpl. rewrite modelled_parsed.
    by rewrite calculateRows_parsed, calculateColumns_parsed.
  - rewrite Hzero.
    destruct (decide (sz = 0)) as [->|Hz]; [done|].
    by rewrite (bool_decide_eq_false_2 (sz = 0)) by done.
Qed.

Lemma loadPuzzle_rejects_size (puzzle : Player.PuzzleRecord) :
  Player.size puzzle ≠ Some 10 → Player.size puzzle ≠ Some 15 →
  ∃ message,
    Player.loadPuzzle (Player.parsed puzzle) = Player.Threw message.
Proof.
  intros H10 H15. rewrite loadPuzzle_parsed.
  destruct (Player.size puzzle) as [sz|]; [|by eexists].
  destruct (Player.solution puzzle) as [sol|]; [|by eexists].
  destruct (decide (sz = 0)); [by eexists|].
  rewrite decide_True; [by eexists|]. split; congruence.
Qed.

Lemma loadPuzzle_rejects_row_count (puzzle : Player.PuzzleRecord)
    (sz : Z) (sol : Grid) :
  Player.size puzzle = Some sz → Player.solution puzzle = Some sol →
  Z.of_nat (length sol) ≠ sz →
  ∃ message,
    Player.loadPuzzle (Player.parsed puzzle) = Player.Threw message.
Proof.
  intros Hsz Hsol Hlen. rewrite loadPuzzle_parsed, Hsz, Hsol.
  repeat (destruct (decide _); [by eexists|]). done.
Qed.

Lemma loadPuzzle_accepts_square (puzzle : Player.PuzzleRecord)
    (sz : Z) (sol : Grid) :
  Player.size puzzle = Some sz → Player.solution puzzle = Some sol →
  sz = 10 ∨ sz = 15 → is_square (Z.to_nat sz) sol →
  Player.loadPuzzle (Player.parsed puzzle)
  = Player.Loaded (Player.parsed puzzle) (calculateAll sol).
Proof.
  intros Hsz Hsol Hsize [Hlen Hrows].
  rewrite loadPuzzle_parsed, Hsz, Hsol.
  rewrite decide_False by lia. rewrite decide_False by lia.
  rewrite decide_False by lia.
  destruct sol as [|first sol]; [simpl in Hlen; lia|]. simpl.
  apply Forall_cons in Hrows as [Hfirst _].
  by rewrite decide_False by lia.
Qed.

End Loading.

(** C7, evaluated on the code.  [loadPuzzle] compares the size with the
    number of rows and with the length of the first row only: it loads the
    record of size 10 whose rows after the first are empty, although its
    solution is not a 10-by-10 matrix. *)
Theorem loadPuzzle_accepts_ragged :
  (∃ sol, Player.solution ragged_record = Some sol ∧ ¬ is_square 10 sol)
  ∧ ∃ clues,
      Player.loadPuzzle (Player.parsed ragged_record)
      = Player.Loaded (Player.parsed ragged_record) clues.
Proof.
  split.
  - eexists. split; [reflexivity|]. intros [_ Hrows].
    apply Forall_cons in Hrows as [_ Hrows].
    apply Forall_cons in Hrows as [Hrow _]. discriminate Hrow.
  - eexists. vm_compute. reflexivity.
Qed.

(** ** Further properties of the clue calculation and the line checks *)

Section MoreLines.

Lemma runs_from_sum (line : Line) (count : Z) :
  0 ≤ count →
  clue_sum (runs_from count line) = count + Z.of_nat (filled_count line).
Proof.
  unfold filled_count. revert count.
  induction line as [|cell line IH]; intros count Hc; simpl.
  - destruct (decide (0 < count)); simpl; lia.
  - destruct (decide (cell = Num 1)) as [->|Hne].
    + rewrite filter_cons_True by done. rewrite IH by lia. simpl. lia.
    + rewrite filter_cons_False by done.
      destruct (decide (0 < count)); simpl; rewrite IH by lia; lia.
Qed.

Lemma runs_from_fmap (f : value → value) (line : Line) (count : Z) :
  (∀ v, f v = Num 1 ↔ v = Num 1) →
  runs_from count (f <$> line) = runs_from count line.
Proof.
  intros Hf. revert count.
  induction line as [|cell line IH]; intros count; simpl; [done|].
  destruct (Hf cell) as [Hf1 Hf2].
  destruct (decide (f cell = Num 1)) as [H1|H1];
    destruct (decide (cell = Num 1)) as [H2|H2];
    [apply IH | by destruct (H2 (Hf1 H1)) | by destruct (H1 (Hf2 H2)) |].
  destruct (decide (0 < count)); by rewrite IH.
Qed.

Lemma segments_filter (line : Line) (st : list Z * bool) :
  foldl segments_step st (filter is01 line) = foldl segments_step st line.
Proof.
  revert st. induction line as [|cell line IH]; intros st; [done|].
  destruct (decide (is01 cell)) as [H01|H01].
  - rewrite filter_cons_True by done. simpl. apply IH.
  - rewrite filter_cons_False by done. simpl. rewrite IH. f_equal.
    destruct st as [segments inSegment]. simpl.
    destruct (decide (cell = Num 1)) as [->|_]; [by destruct H01; right|].
    destruct (decide (cell = Num 0)) as [->|_]; [by destruct H01; left|].
    done.
Qed.

End MoreLines.

(** X1.  The numbers of a clue add up to the number of filled cells of
    the line, whatever the other cells hold. *)
Theorem calculateLine_sum_is_filled_count (line : Line) :
  clue_sum (calculateLine line) = Z.of_nat (filled_count line).
Proof.
  rewrite calculateLine_runs.
  pose proof (runs_from_sum line 0 ltac:(lia)) as Hsum.
  destruct (runs_from 0 line); simpl in *; lia.
Qed.

(** X2.  [calculateLine] only asks whether a cell is 1: replacing every
    cell by [cell === 1 ? 1 : 0], as the play mode does before it computes
    the player's clues, does not change the clue.  Marked cells count as
    empty. *)
Theorem calculateLine_normalize (line : Line) :
  calculateLine (Play.normalize <$> (GridClass.Known <$> line))
  = calculateLine line.
Proof.
  rewrite <- list_fmap_compose, !calculateLine_runs.
  rewrite runs_from_fmap; [done|].
  intros v. unfold compose, Play.normalize.
  destruct (decide (GridClass.Known v = GridClass.Known (Num 1)))
    as [Heq|Hne]; split; try done.
  - intros _. by injection Heq.
  - intros ->. done.
Qed.

(** X3.  [cluesMatch], and its copy [checkCluesMatch] of the play mode,
    return true exactly when the two clues are the same sequence. *)
Theorem cluesMatch_iff_equal (clues1 clues2 : Clue) :
  (cluesMatch clues1 clues2 = true ↔ clues1 = clues2)
  ∧ (Play.checkCluesMatch clues1 clues2 = true ↔ clues1 = clues2).
Proof.
  split; [by rewrite cluesMatch_eq, bool_decide_eq_true|].
  change (Play.checkCluesMatch clues1 clues2)
    with (cluesMatch clues1 clues2).
  by rewrite cluesMatch_eq, bool_decide_eq_true.
Qed.

(** X4.  Cells that are neither 0 nor 1 (unknown cells in particular)
    neither extend nor break a segment: [canMatchClues] gives the same
    answer on the line with these cells removed. *)
Theorem canMatchClues_ignores_unknown (line : Line) (clues : Clue) :
  canMatchClues line clues = canMatchClues (filter is01 line) clues.
Proof. unfold canMatchClues. by rewrite segments_filter. Qed.

(** X5.  [canMatchClues] never rejects a line the search can reach for a
    satisfiable clue: a prefix of a 0/1 line followed by unknown cells
    passes against the clue of the whole line, and so does the whole
    line. *)
Theorem canMatchClues_accepts_prefix (line : Line) (t m : nat) :
  Forall is01 line →
  canMatchClues (take t line ++ replicate m Unknown) (calculateLine line)
  = true
  ∧ canMatchClues line (calculateLine line) = true.
Proof.
  intros H01. split; [by apply canMatchClues_prefix|].
  pose proof (canMatchClues_prefix line (length line) 0 H01) as Hfull.
  by rewrite take_ge, app_nil_r in Hfull.
Qed.

Lemma canMatchClues_accepts_prefix_witness :
  let line := cells [1; 1; 0; 1] in
  canMatchClues (take 2 line ++ replicate 2 Unknown) (calculateLine line)
  = true
  ∧ canMatchClues line (calculateLine line) = true.
Proof.
  apply (canMatchClues_accepts_prefix (cells [1; 1; 0; 1]) 2 2).
  repeat constructor; (by left) || (by right).
Defined.

(** ** Further properties of the solver *)

Section MoreSolver.

Lemma all_match_error (check : nat → result bool) (before after : list nat)
    (k : nat) :
  (∀ i, i ∈ before → check i = Ok true) → check k = TypeError →
  all_match check (before ++ k :: after) = TypeError.
Proof.
  intros Hbefore Hk. induction before as [|i before IH]; simpl.
  - by rewrite Hk.
  - rewrite (Hbefore i) by left. simpl. apply IH.
    intros j Hj. apply Hbefore. by right.
Qed.

Lemma solve_exact_eq (rc cc : list Clue) (max : Z) (r : SolveResult) :
  length cc = length rc → solve rc cc max = Ok r →
  solutions r = take (Z.to_nat max) (search_order rc cc)
  ∧ unique r = bool_decide (length (solutions r) = 1%nat)
  ∧ solvable r = bool_decide (0 < length (solutions r))%nat.
Proof.
  intros Hcc Hr.
  destruct (solve_exact rc cc max Hcc) as (r' & Hr' & Hprops).
  rewrite Hr in Hr'. by injection Hr' as <-.
Qed.

End MoreSolver.

(** X6.  [isValidSolution] decides whether the clues derived from the grid
    are the expected clues when there is one row clue and one column clue
    per row of the grid; it throws nothing as long as there are at least
    that many; and it throws a [TypeError] when the row clues run out
    before the rows do and all the rows that have a clue match it. *)
Theorem isValidSolution_decides (g : Grid) (rc cc : list Clue) :
  (length rc = length g → length cc = length g →
   isValidSolution g rc cc
   = Ok (bool_decide (calculateRows g = rc ∧ calculateColumns g = cc)))
  ∧ ((length g ≤ length rc)%nat → (length g ≤ length cc)%nat →
     ∃ b, isValidSolution g rc cc = Ok b)
  ∧ ((length rc < length g)%nat →
     rc = take (length rc) (calculateRows g) →
     isValidSolution g rc cc = TypeError).
Proof.
  split_and!.
  - intros Hrc Hcc. by apply isValidSolution_satisfies.
  - apply isValidSolution_total.
  - intros Hlen Hrc. unfold isValidSolution.
    replace (length g) with (length rc + S (length g - S (length rc)))%nat
      by lia.
    rewrite seq_app. simpl.
    rewrite all_match_error; [done| |].
    + intros row Hrow%elem_of_seq.
      destruct (lookup_lt_is_Some_2 g row ltac:(lia)) as [line Hline].
      destruct (lookup_lt_is_Some_2 rc row ltac:(lia)) as [clue Hclue].
      rewrite (deref_Some _ _ _ Hline), (deref_Some _ _ _ Hclue). simpl.
      rewrite cluesMatch_eq. f_equal. apply bool_decide_eq_true.
      rewrite Hrc in Hclue. rewrite lookup_take_lt in Hclue by lia.
      unfold calculateRows in Hclue.
      rewrite list_lookup_fmap, Hline in Hclue. by injection Hclue.
    + destruct (lookup_lt_is_Some_2 g (length rc) ltac:(lia)) as [line Hl].
      rewrite (deref_Some _ _ _ Hl). simpl. unfold deref.
      by rewrite lookup_ge_None_2 by lia.
Qed.

Lemma isValidSolution_decides_witness :
  isValidSolution anti_diagonal [[1]; [1]] [[1]; [1]]
  = Ok (bool_decide (calculateRows anti_diagonal = [[1]; [1]]
                     ∧ calculateColumns anti_diagonal = [[1]; [1]]))
  ∧ isValidSolution anti_diagonal [[1]] [[1]; [1]] = TypeError.
Proof.
  destruct (isValidSolution_decides anti_diagonal [[1]; [1]] [[1]; [1]])
    as (Hdec & _ & _).
  destruct (isValidSolution_decides anti_diagonal [[1]] [[1]; [1]])
    as (_ & _ & Herr).
  split; [apply Hdec; reflexivity | apply Herr; [simpl; lia | reflexivity]].
Defined.

(** X7.  Pruning is sound.  When the search has assigned the cells of a
    satisfying 0/1 grid up to a position and nothing after it,
    [isValidPartial] accepts the working grid at that position: the branch
    that leads to a satisfying grid is never cut. *)
Theorem isValidPartial_keeps_satisfying (n : nat) (g : Grid)
    (rc cc : list Clue) (pos : nat) :
  is_grid01 n g → satisfies rc cc g → (pos < n * n)%nat →
  isValidPartial (partial_grid n g pos) rc cc (pos / n) (pos mod n)
  = Ok true.
Proof.
  intros Hg Hsat Hpos. unfold partial_grid.
  apply (isValidPartial_extension n rc cc _ (cell_of n g)); [done|..].
  - intros k Hk. by rewrite decide_True.
  - intros k Hk. by rewrite decide_False by lia.
  - intros k Hk. by apply is_grid01_cells.
  - by rewrite <- (mk_cell_of n g) by (by apply is_grid01_square).
Qed.

Lemma isValidPartial_keeps_satisfying_witness :
  isValidPartial (partial_grid 2 anti_diagonal 1) [[1]; [1]] [[1]; [1]]
    (1 / 2) (1 mod 2) = Ok true
  ∧ partial_grid 2 anti_diagonal 1
    = [[Num 0; Num 1]; [Unknown; Unknown]].
Proof.
  split; [|reflexivity].
  apply (isValidPartial_keeps_satisfying 2 anti_diagonal [[1]; [1]]
           [[1]; [1]] 1); [compute_done | compute_done | lia].
Defined.

(** X8.  Every grid [solve] returns satisfies the clue set: it is an
    [N]-by-[N] 0/1 grid whose derived row and column clues are the given
    ones. *)
Theorem solve_solutions_satisfy (rc cc : list Clue) (max : Z)
    (r : SolveResult) (g : Grid) :
  length cc = length rc → solve rc cc max = Ok r → g ∈ solutions r →
  is_grid01 (length rc) g
  ∧ calculateRows g = rc ∧ calculateColumns g = cc.
Proof.
  intros Hcc Hr Hg.
  destruct (solve_exact_eq rc cc max r Hcc Hr) as (Hsols & _).
  rewrite Hsols in Hg. apply subseteq_take in Hg.
  by apply search_order_elem in Hg.
Qed.

Lemma solve_solutions_satisfy_witness :
  is_grid01 2 anti_diagonal
  ∧ calculateRows anti_diagonal = [[1]; [1]]
  ∧ calculateColumns anti_diagonal = [[1]; [1]].
Proof.
  apply (solve_solutions_satisfy [[1]; [1]] [[1]; [1]] 2
           {| solutions := [[cells [1; 0]; cells [0; 1]]; anti_diagonal];
              unique := false; solvable := true |});
    [reflexivity | vm_compute; reflexivity | compute_done].
Defined.

(** X9.  With a bound of at least one, [solvable] is reported exactly when
    some [N]-by-[N] 0/1 grid satisfies the clue set: an empty result means
    there is none. *)
Theorem solve_solvable_iff_satisfiable (rc cc : list Clue) (max : Z) :
  length cc = length rc → 1 ≤ max →
  ∃ r, solve rc cc max = Ok r
       ∧ (solvable r = true
          ↔ ∃ g, is_grid01 (length rc) g ∧ satisfies rc cc g).
Proof.
  intros Hcc Hmax.
  destruct (solve_exact rc cc max Hcc) as (r & Hr & Hsols & _ & Hs).
  exists r. split; [done|]. rewrite Hs, bool_decide_eq_true, Hsols.
  rewrite length_take. split.
  - intros Hlen. destruct (search_order rc cc) as [|g l] eqn:Horder;
      [simpl in Hlen; lia|].
    exists g. apply search_order_elem. rewrite Horder. left.
  - intros (g & Hg). apply search_order_elem in Hg.
    destruct (search_order rc cc); [by apply elem_of_nil in Hg|].
    simpl. lia.
Qed.

Lemma solve_solvable_iff_satisfiable_witness :
  ∃ r, solve [[2]; [1]] [[1]; [1]] 2 = Ok r
       ∧ (solvable r = true
          ↔ ∃ g, is_grid01 2 g ∧ satisfies [[2]; [1]] [[1]; [1]] g).
Proof.
  apply (solve_solvable_iff_satisfiable [[2]; [1]] [[1]; [1]] 2);
    [reflexivity | lia].
Defined.

(** X10.  Raising the bound only appends solutions: the solutions found
    with a smaller bound are a prefix of those found with a larger one. *)
Theorem solve_bound_monotone (rc cc : list Clue) (max1 max2 : Z) :
  length cc = length rc → max1 ≤ max2 →
  ∃ r1 r2, solve rc cc max1 = Ok r1 ∧ solve rc cc max2 = Ok r2
           ∧ solutions r1 `prefix_of` solutions r2.
Proof.
  intros Hcc Hle.
  destruct (solve_exact rc cc max1 Hcc) as (r1 & Hr1 & Hsols1 & _).
  destruct (solve_exact rc cc max2 Hcc) as (r2 & Hr2 & Hsols2 & _).
  exists r1, r2. split_and!; [done..|]. rewrite Hsols1, Hsols2.
  replace (Z.to_nat max1) with (Z.to_nat max1 `min` Z.to_nat max2)%nat
    by lia.
  rewrite <- take_take. apply prefix_take.
Qed.

Lemma solve_bound_monotone_witness :
  ∃ r1 r2, solve [[1]; [1]] [[1]; [1]] 1 = Ok r1
           ∧ solve [[1]; [1]] [[1]; [1]] 2 = Ok r2
           ∧ solutions r1 `prefix_of` solutions r2.
Proof.
  apply (solve_bound_monotone [[1]; [1]] [[1]; [1]] 1 2);
    [reflexivity | lia].
Defined.

(** X11.  With a bound of zero or less the search stops before it looks
    at anything: whatever the clue set, well formed or not and satisfiable
    or not, [solve] returns no solution and reports neither [unique] nor
    [solvable]. *)
Theorem solve_nonpositive_bound (rc cc : list Clue) (max : Z) :
  max ≤ 0 →
  solve rc cc max
  = Ok {| solutions := []; unique := false; solvable := false |}.
Proof.
  intros Hmax. unfold solve, backtrack.
  rewrite backtrack_fuel_S. unfold backtrack_body.
  by rewrite decide_True by (simpl; lia).
Qed.

Lemma solve_nonpositive_bound_witness :
  solve [[0]] [[0]] 0
  = Ok {| solutions := []; unique := false; solvable := false |}.
Proof. apply (solve_nonpositive_bound [[0]] [[0]] 0). lia. Defined.

(** X12.  When the bound is at least the number of satisfying grids,
    [solve] enumerates them all: a grid is returned exactly when it is an
    [N]-by-[N] 0/1 grid that satisfies the clue set. *)
Theorem solve_enumerates_all (rc cc : list Clue) (max : Z) :
  length cc = length rc → Z.of_nat (count_satisfying rc cc) ≤ max →
  ∃ r, solve rc cc max = Ok r
       ∧ length (solutions r) = count_satisfying rc cc
       ∧ ∀ g, g ∈ solutions r
              ↔ is_grid01 (length rc) g ∧ satisfies rc cc g.
Proof.
  intros Hcc Hmax.
  destruct (solve_exact rc cc max Hcc) as (r & Hr & Hsols & _).
  exists r. rewrite Hsols.
  rewrite take_ge by (rewrite search_order_length; lia).
  split_and!; [done | apply search_order_length|].
  intros g. apply search_order_elem.
Qed.

Lemma solve_enumerates_all_witness :
  ∃ r, solve [[1]; [1]] [[1]; [1]] 2 = Ok r
       ∧ length (solutions r) = count_satisfying [[1]; [1]] [[1]; [1]]
       ∧ ∀ g, g ∈ solutions r
              ↔ is_grid01 2 g ∧ satisfies [[1]; [1]] [[1]; [1]] g.
Proof.
  apply (solve_enumerates_all [[1]; [1]] [[1]; [1]] 2);
    [reflexivity | by vm_compute].
Defined.

(** X13.  [solve] throws only when there are fewer column clues than row
    clues: with at least as many it returns, and column clues beyond the
    row clues in number do no harm.  With fewer it may throw, as on one
    row clue [[1]] and no column clue, or not, as on the row clue [[5]]
    that no line of one cell matches. *)
Theorem solve_throws_only_without_column_clues (rc cc : list Clue)
    (max : Z) :
  ((length rc ≤ length cc)%nat → ∃ r, solve rc cc max = Ok r)
  ∧ (solve rc cc max = TypeError → (length cc < length rc)%nat)
  ∧ solve [[1]] [] 2 = TypeError
  ∧ solve [[5]] [] 2
    = Ok {| solutions := []; unique := false; solvable := false |}.
Proof.
  assert (solve rc cc max = TypeError → (length cc < length rc)%nat)
    as Hthrow.
  { unfold solve. pose proof (backtrack_initial rc cc max) as Hpost.
    destruct (backtrack _ rc cc 0 [] max) as [[[b g'] sols']|]; [done|].
    intros _. simpl in Hpost. lia. }
  split_and!; [|done|by vm_compute..].
  intros Hlen. destruct (solve rc cc max) as [r|] eqn:Hr; [by exists r|].
  specialize (Hthrow eq_refl). lia.
Qed.

Lemma solve_throws_only_without_column_clues_witness :
  ∃ r, solve [[1]] [[1]; [7]] 2 = Ok r.
Proof.
  apply (solve_throws_only_without_column_clues [[1]] [[1]; [7]] 2).
  simpl. lia.
Defined.

(** X14.  On a square grid whose cells from [pos] on are unknown, a call
    of [backtrack] that returns tells by its return value whether the
    bound is still ahead, only appends to [solutions], and never takes it
    beyond a bound it had not passed. *)
Theorem backtrack_return_value (n : nat) (grid : Grid) (rc cc : list Clue)
    (pos : nat) (sols : list Grid) (max : Z) (b : bool) (grid' : Grid)
    (sols' : list Grid) :
  is_square n grid →
  (∀ k, (pos ≤ k < n * n)%nat → cell_of n grid k = Unknown) →
  backtrack grid rc cc pos sols max = Ok (b, grid', sols') →
  (b = true ↔ Z.of_nat (length sols') < max)
  ∧ sols `prefix_of` sols'
  ∧ (Z.of_nat (length sols) ≤ max → Z.of_nat (length sols') ≤ max).
Proof.
  intros Hsq Hunk.
  set (f := λ k, if decide (k < n * n)%nat then cell_of n grid k
                 else Unknown).
  assert (grid = mk n f) as Hgrid.
  { rewrite (mk_cell_of n grid Hsq) at 1. apply mk_ext.
    intros k Hk. unfold f. by rewrite decide_True. }
  assert (∀ k, (pos ≤ k)%nat → f k = Unknown) as Hf.
  { intros k Hk. unfold f. case_decide; [apply Hunk; lia | done]. }
  pose proof (backtrack_fuel_post n rc cc (n * n - pos) f pos sols max
                eq_refl Hf) as Hpost.
  unfold backtrack. rewrite Hgrid, length_mk. intros Hbt.
  rewrite Hbt in Hpost.
  destruct Hpost as (_ & -> & new & -> & Hbound & _).
  rewrite bool_decide_eq_true. split_and!; [done| |lia].
  by exists new.
Qed.

Lemma backtrack_return_value_witness :
  (false = true ↔ Z.of_nat (length [[[Num 1]]]) < 1)
  ∧ [] `prefix_of` [[[Num 1]]]
  ∧ (Z.of_nat (length (@nil (list (list value)))) ≤ 1
     → Z.of_nat (length [[[Num 1]]]) ≤ 1).
Proof.
  apply (backtrack_return_value 1 [[Unknown]] [[1]] [[1]] 0 [] 1
           false [[Unknown]] [[[Num 1]]]).
  - compute_done.
  - intros k Hk. assert (k = 0)%nat as -> by lia. reflexivity.
  - vm_compute. reflexivity.
Defined.

(** X15.  [calculateAll] gives one row clue and one column clue per row
    of the grid, whatever the lengths of the rows, so that [solve] never
    throws on the clues derived from a grid, ragged or not, with any
    bound. *)
Theorem solve_on_derived_clues_returns (g : Grid) (max : Z) :
  length (rowClues (calculateAll g)) = length g
  ∧ length (colClues (calculateAll g)) = length g
  ∧ ∃ r, solve (rowClues (calculateAll g)) (colClues (calculateAll g)) max
         = Ok r.
Proof.
  assert (length (calculateRows g) = length g) as Hrows
    by (unfold calculateRows; by rewrite length_fmap).
  assert (length (calculateColumns g) = length g) as Hcols
    by (unfold calculateColumns; by rewrite length_fmap, length_seq).
  simpl. split_and!; [done..|].
  destruct (solve_exact (calculateRows g) (calculateColumns g) max)
    as (r & Hr & _); [congruence | by exists r].
Qed.

(** ** Further properties of the generator *)

Section MoreGenerate.
Import Generator.

Context (random : nat → Q) (today : string).

Lemma fill_row_mk (n : nat) (fill : Q) (row len : nat) :
  (row < n)%nat →
  ∀ (c0 : nat) (f : nat → value) (k0 : nat),
    (c0 + len ≤ n)%nat →
    for_each (seq c0 len) (fill_cell random fill row) (mk n f, k0)
    = Ok (mk n (λ j, if decide (row * n + c0 ≤ j < row * n + c0 + len)%nat
                     then drawn_cell random fill (k0 + (j - (row * n + c0)))
                     else f j),
          (k0 + len)%nat).
Proof.
  intros Hrow. induction len as [|len IH]; intros c0 f k0 Hlen; simpl.
  - f_equal. f_equal; [|lia]. apply mk_ext. intros j _.
    by rewrite decide_False by lia.
  - destruct (position_div_mod n row c0 ltac:(lia)) as [Hd Hm].
    rewrite <- Hd at 1. rewrite <- Hm at 2.
    rewrite set_cell_mk by nia. simpl.
    rewrite IH by lia. f_equal. f_equal; [|lia].
    apply mk_ext. intros j _. unfold upd.
    destruct (decide (j = row * n + c0)%nat) as [->|Hne].
    + rewrite decide_False by lia. rewrite decide_True by lia.
      unfold drawn_cell. by rewrite Nat.sub_diag, Nat.add_0_r.
    + destruct (decide (row * n + S c0 ≤ j < row * n + S c0 + len)%nat).
      * rewrite decide_True by lia. f_equal. lia.
      * by rewrite decide_False by lia.
Qed.

Lemma fill_rows_mk (n : nat) (fill : Q) (len : nat) :
  ∀ (r0 : nat) (f : nat → value) (k0 : nat),
    (r0 + len ≤ n)%nat →
    for_each (seq r0 len)
      (λ row, for_each (seq 0 n) (fill_cell random fill row)) (mk n f, k0)
    = Ok (mk n (λ j, if decide (r0 * n ≤ j < (r0 + len) * n)%nat
                     then drawn_cell random fill (k0 + (j - r0 * n))
                     else f j),
          (k0 + len * n)%nat).
Proof.
  induction len as [|len IH]; intros r0 f k0 Hlen; simpl.
  - f_equal. f_equal; [|lia]. apply mk_ext. intros j _.
    by rewrite decide_False by lia.
  - rewrite fill_row_mk by lia. simpl.
    rewrite IH by lia. f_equal. f_equal; [|lia].
    apply mk_ext. intros j _.
    destruct (decide (S r0 * n ≤ j < (S r0 + len) * n)%nat).
    + rewrite decide_True by lia. f_equal. lia.
    + destruct (decide (r0 * n + 0 ≤ j < r0 * n + 0 + n)%nat).
      * rewrite decide_True by lia. f_equal. lia.
      * by rewrite decide_False by lia.
Qed.

Lemma generateRandomGrid_mk (n : nat) (fill : Q) (k : nat) :
  generateRandomGrid random n fill k
  = Ok (mk n (λ j, drawn_cell random fill (k + j)), (k + n * n)%nat).
Proof.
  unfold generateRandomGrid. rewrite create2DArray_mk.
  rewrite fill_rows_mk by lia. f_equal. f_equal.
  apply mk_ext. intros j Hj. rewrite decide_True by lia.
  f_equal. lia.
Qed.

Lemma drawn_cell_01 (fill : Q) (i : nat) : is01 (drawn_cell random fill i).
Proof. unfold drawn_cell. destruct (negb _); [by right | by left]. Qed.

Lemma candidates_grid01 (attempts n k : nat) (g : Grid) :
  g ∈ candidates random attempts n k → is_grid01 n g.
Proof.
  revert k. induction attempts as [|attempts IH]; intros k; simpl.
  - by intros ?%elem_of_nil.
  - rewrite generateRandomGrid_mk.
    intros [->|Hin]%elem_of_cons; [|by apply (IH _ Hin)].
    apply mk_is_grid01. intros j _. apply drawn_cell_01.
Qed.

Lemma solve_two_unique_iff (g : Grid) (r : SolveResult) :
  solve (calculateRows g) (calculateColumns g) 2 = Ok r →
  (unique r = true
   ↔ count_satisfying (calculateRows g) (calculateColumns g) = 1%nat).
Proof.
  intros Hr.
  assert (length (calculateColumns g) = length (calculateRows g)) as Hcc
    by (unfold calculateColumns, calculateRows;
        by rewrite !length_fmap, length_seq).
  destruct (solve_exact_eq _ _ 2 r Hcc Hr) as (Hsols & -> & _).
  rewrite bool_decide_eq_true, Hsols, length_take, search_order_length.
  lia.
Qed.

Lemma generate_loop_first_unique (attempts n k : nat) (p : Puzzle) :
  generate_loop random today attempts n k = Ok (Some p) →
  Generator.size p = n ∧ created p = today
  ∧ count_satisfying (calculateRows (solution p))
      (calculateColumns (solution p)) = 1%nat
  ∧ ∃ before after,
      candidates random attempts n k = before ++ solution p :: after
      ∧ ∀ g, g ∈ before →
             count_satisfying (calculateRows g) (calculateColumns g)
             ≠ 1%nat.
Proof.
  revert k. induction attempts as [|attempts IH]; intros k; simpl; [done|].
  rewrite generateRandomGrid_mk. cbn [bind].
  match goal with |- context [mk n ?f0] => set (g := mk n f0) end.
  destruct (solve (calculateRows g) (calculateColumns g) 2) as [r|] eqn:Hr;
    [|done].
  cbn [bind]. pose proof (solve_two_unique_iff g r Hr) as Hiff.
  destruct (unique r) eqn:Hu.
  - intros [= <-]. simpl. split_and!; [done..|by apply Hiff|].
    exists [], (candidates random attempts n (S k + n * n)).
    split; [done|]. by intros g' ?%elem_of_nil.
  - intros Hp. destruct (IH _ Hp) as (Hsz & Hcr & Hcount & before & after
                                       & Hcand & Hbefore).
    split_and!; [done..|]. exists (g :: before), after.
    split; [by rewrite Hcand|].
    intros g' [->|Hin]%elem_of_cons; [|by apply Hbefore].
    intros Hone. apply Hiff in Hone. congruence.
Qed.

End MoreGenerate.

(** X16.  [generateRandomGrid] returns a [size]-by-[size] grid of 0/1
    cells and draws exactly one number per cell, in row-major order: the
    cell at position [pos] is 1 when the [pos]-th number drawn is below the
    fill percentage and 0 otherwise. *)
Theorem generateRandomGrid_cells (random : nat → Q) (size : nat)
    (fillPercentage : Q) (k : nat) :
  ∃ g, Generator.generateRandomGrid random size fillPercentage k
       = Ok (g, (k + size * size)%nat)
       ∧ is_grid01 size g
       ∧ ∀ pos, (pos < size * size)%nat →
                cell_of size g pos
                = if negb (Qle_bool fillPercentage (random (k + pos)%nat))
                  then Num 1 else Num 0.
Proof.
  eexists. split; [apply generateRandomGrid_mk|]. split.
  - apply mk_is_grid01. intros j _. apply drawn_cell_01.
  - intros pos Hpos. by rewrite mk_cell.
Qed.

(** X17.  A puzzle [generate] returns has the requested size, a
    [size]-by-[size] 0/1 solution that is the only grid satisfying its
    clues, and the date of the day; its solution is the first sampled
    candidate with that property, every candidate before it having a clue
    set that several grids satisfy. *)
Theorem generate_returns_first_unique (random : nat → Q) (today : string)
    (size maxAttempts : nat) (p : Generator.Puzzle) :
  Generator.generate random today size maxAttempts = Ok (Some p) →
  Generator.size p = size ∧ Generator.created p = today
  ∧ is_grid01 size (Generator.solution p)
  ∧ count_satisfying (calculateRows (Generator.solution p))
      (calculateColumns (Generator.solution p)) = 1%nat
  ∧ ∃ before after,
      Generator.candidates random maxAttempts size 0
      = before ++ Generator.solution p :: after
      ∧ ∀ g, g ∈ before →
             (1 < count_satisfying (calculateRows g) (calculateColumns g))
             %nat.
Proof.
  intros Hp.
  destruct (generate_loop_first_unique random today maxAttempts size 0 p Hp)
    as (Hsz & Hcr & Hcount & before & after & Hcand & Hbefore).
  split_and!; [done..| |done|].
  - apply (candidates_grid01 random maxAttempts size 0).
    rewrite Hcand. apply elem_of_app. right. left.
  - exists before, after. split; [done|]. intros g Hg.
    specialize (Hbefore g Hg).
    assert (is_grid01 size g) as Hg01.
    { apply (candidates_grid01 random maxAttempts size 0).
      rewrite Hcand. apply elem_of_app. by left. }
    assert (g ∈ filter (satisfies (calculateRows g) (calculateColumns g))
                  (all_grids (length (calculateRows g)))) as Hin.
    { apply list_elem_of_filter. split; [done|]. apply all_grids_elem.
      unfold calculateRows. rewrite length_fmap.
      by rewrite (proj1 Hg01). }
    unfold count_satisfying in *. revert Hin Hbefore.
    generalize (filter (satisfies (calculateRows g) (calculateColumns g))
                  (all_grids (length (calculateRows g)))).
    intros [|x [|y l]] Hin Hbefore; simpl in *;
      [by apply elem_of_nil in Hin | done | lia].
Qed.

Lemma generate_returns_first_unique_witness :
  ∃ p, Generator.generate (draws [1 # 2; 1 # 4; 3 # 4; 3 # 4; 1 # 4])
         "2024-01-01" 2 3 = Ok (Some p)
       ∧ Generator.size p = 2%nat
       ∧ is_grid01 2 (Generator.solution p)
       ∧ count_satisfying (calculateRows (Generator.solution p))
           (calculateColumns (Generator.solution p)) = 1%nat.
Proof.
  eexists. split; [vm_compute; reflexivity|].
  edestruct (generate_returns_first_unique
               (draws [1 # 2; 1 # 4; 3 # 4; 3 # 4; 1 # 4])
               "2024-01-01" 2 3)
    as (Hsz & _ & H01 & Hcount & _); [vm_compute; reflexivity|].
  split_and!; [exact Hsz | exact H01 | exact Hcount].
Defined.

(** ** Checking the player's grid *)

Section MorePlay.
Import GridClass Play.

Lemma forallb_default_eq (l1 l2 : Line) :
  length l1 = length l2 →
  forallb (λ i, bool_decide (default Undefined (l1 !! i)
                             = default Undefined (l2 !! i)))
    (seq 0 (length l2))
  = bool_decide (l1 = l2).
Proof.
  intros Hlen. apply eq_true_iff_eq.
  rewrite forallb_forall, bool_decide_eq_true. split.
  - intros Hall. apply list_eq. intros i.
    destruct (decide (i < length l2)%nat) as [Hi|Hi].
    + specialize (Hall i). rewrite bool_decide_eq_true in Hall.
      destruct (lookup_lt_is_Some_2 l1 i ltac:(lia)) as [x Hx].
      destruct (lookup_lt_is_Some_2 l2 i ltac:(lia)) as [y Hy].
      rewrite Hx, Hy in *. simpl in Hall. f_equal.
      apply Hall, list_elem_of_In, elem_of_seq. lia.
    + by rewrite !lookup_ge_None_2 by lia.
  - intros -> i _. by apply bool_decide_eq_true.
Qed.

Lemma forallb_true {A} (l : list A) : forallb (λ _, true) l = true.
Proof. by induction l. Qed.

Lemma length_normalized (d : list (list cell)) :
  length (normalized d) = length d.
Proof. unfold normalized. by rewrite length_fmap. Qed.

Lemma normalized_lookup (d : list (list cell)) (i : nat) :
  normalized d !! i = (fmap normalize) <$> (d !! i).
Proof. unfold normalized. by rewrite list_lookup_fmap. Qed.

Lemma checkSolution_same_shape (d : list (list cell)) (sol : Grid) :
  Forall2 (λ (prow : list cell) (srow : Line), length prow = length srow)
    d sol →
  checkSolution d sol = Ok (bool_decide (normalized d = sol)).
Proof.
  intros Hshape. unfold checkSolution. fold (normalized d).
  pose proof (Forall2_length _ _ _ Hshape) as Hlen.
  rewrite (all_match_forallb _
             (λ row, bool_decide (normalized d !! row = sol !! row))).
  - f_equal. apply forallb_lookup_eq; [|done].
    by rewrite length_normalized.
  - intros row Hrow%elem_of_seq.
    destruct (lookup_lt_is_Some_2 sol row ltac:(lia)) as [srow Hsrow].
    destruct (lookup_lt_is_Some_2 d row ltac:(lia)) as [prow Hprow].
    pose proof (Forall2_lookup_lr _ _ _ _ _ _ Hshape Hprow Hsrow) as Hw.
    rewrite (deref_Some _ _ _ Hsrow). simpl.
    assert (normalized d !! row = Some (normalize <$> prow)) as Hn
      by (by rewrite normalized_lookup, Hprow).
    rewrite (all_match_forallb _
               (λ col, bool_decide
                         (default Undefined ((normalize <$> prow) !! col)
                          = default Undefined (srow !! col)))).
    + rewrite forallb_default_eq by (by rewrite length_fmap).
      rewrite Hn, Hsrow. f_equal. apply bool_decide_ext.
      split; congruence.
    + intros col _. by rewrite (deref_Some _ _ _ Hn).
Qed.

Lemma checkSolution_prefix (d : list (list cell)) (sol : Grid) :
  (∀ i srow, sol !! i = Some srow →
     ∃ prow, normalized d !! i = Some prow ∧ srow `prefix_of` prow) →
  checkSolution d sol = Ok true.
Proof.
  intros Hpre. unfold checkSolution. fold (normalized d).
  rewrite (all_match_forallb _ (λ _, true)); [by rewrite forallb_true|].
  intros row Hrow%elem_of_seq.
  destruct (lookup_lt_is_Some_2 sol row ltac:(lia)) as [srow Hsrow].
  destruct (Hpre row srow Hsrow) as (prow & Hprow & [rest ->]).
  rewrite (deref_Some _ _ _ Hsrow). simpl.
  rewrite (all_match_forallb _ (λ _, true)); [by rewrite forallb_true|].
  intros col Hcol%elem_of_seq. rewrite (deref_Some _ _ _ Hprow). simpl.
  f_equal. apply bool_decide_eq_true. by rewrite lookup_app_l by lia.
Qed.

End MorePlay.

(** X19.  When the player's grid has the shape of the solution (as many
    rows, and rows as long), [checkSolution] reports success exactly when
    the player's grid, with every cell that is not 1 read as 0, equals the
    solution: marks do not matter, and a solution cell that is neither 0
    nor 1 can never be matched. *)
Theorem checkSolution_compares_normalized (d : list (list GridClass.cell))
    (sol : Grid) :
  Forall2 (λ (prow : list GridClass.cell) (srow : Line),
             length prow = length srow) d sol →
  Play.checkSolution d sol = Ok (bool_decide (normalized d = sol))
  ∧ (Forall (Forall is01) sol ∨ Play.checkSolution d sol = Ok false).
Proof.
  intros Hshape. rewrite checkSolution_same_shape by done.
  split; [done|].
  destruct (decide (normalized d = sol)) as [<-|Hne].
  - left. unfold normalized. apply Forall_fmap, Forall_forall.
    intros row _. apply Forall_fmap, Forall_forall. intros c _. simpl.
    unfold Play.normalize. case_decide; [by right | by left].
  - right. f_equal. by apply bool_decide_eq_false.
Qed.

Lemma checkSolution_compares_normalized_witness :
  let d := [[GridClass.Known (Num 1); GridClass.Known (Num 2)]] in
  Play.checkSolution d [[Num 1; Num 0]]
  = Ok (bool_decide (normalized d = [[Num 1; Num 0]])).
Proof.
  apply (checkSolution_compares_normalized
           [[GridClass.Known (Num 1); GridClass.Known (Num 2)]]
           [[Num 1; Num 0]]).
  repeat constructor.
Defined.

(** X20.  [checkSolution] only looks at the cells the solution has: when
    every row of the solution is a prefix of the same row of the player's
    grid read as 0/1, it reports success, whatever else the player's grid
    holds.  On the ragged record that [loadPuzzle] accepts, the untouched
    grid of play mode already counts as solved. *)
Theorem checkSolution_ignores_cells_outside (d : list (list GridClass.cell))
    (sol : Grid) :
  (∀ i srow, sol !! i = Some srow →
     ∃ prow, normalized d !! i = Some prow ∧ srow `prefix_of` prow) →
  Play.checkSolution d sol = Ok true.
Proof. apply checkSolution_prefix. Qed.

Lemma checkSolution_ignores_cells_outside_witness :
  Play.checkSolution (GridClass.getData (GridClass.new 10 true))
    (replicate 10 Empty :: replicate 9 []) = Ok true.
Proof.
  apply (checkSolution_ignores_cells_outside
           (GridClass.getData (GridClass.new 10 true))
           (replicate 10 Empty :: replicate 9 [])).
  intros i srow Hi.
  assert (i < 10)%nat as Hlt by (apply lookup_lt_Some in Hi; simpl in Hi; lia).
  exists (replicate 10 Empty). split.
  - do 10 (destruct i as [|i]; [reflexivity|]). lia.
  - do 10 (destruct i as [|i];
           [injection Hi as <-; (done || by eexists)|]).
    lia.
Defined.

Section Indicators.
Import GridClass Play.

Lemma collect_fmap {A} (f : nat → result A) (g : nat → A)
    (indices : list nat) :
  (∀ i, i ∈ indices → f i = Ok (g i)) →
  collect f indices = Ok (g <$> indices).
Proof.
  induction indices as [|i indices IH]; intros Hf; simpl; [done|].
  rewrite (Hf i) by left. simpl. rewrite IH; [done|].
  intros j Hj. apply Hf. by right.
Qed.

Lemma checkCluesMatch_eq (clues1 clues2 : Clue) :
  checkCluesMatch clues1 clues2 = bool_decide (clues1 = clues2).
Proof. apply cluesMatch_eq. Qed.

Lemma Forall_true_tabulate (b : nat → bool) (n : nat) :
  Forall (eq true) (b <$> seq 0 n) ↔ ∀ i, (i < n)%nat → b i = true.
Proof.
  rewrite Forall_fmap, Forall_forall. split.
  - intros Hall i Hi. symmetry. apply Hall, elem_of_seq. lia.
  - intros Hall i Hi%elem_of_seq. symmetry. apply Hall. lia.
Qed.

Lemma lookup_eq_all {A} (l1 l2 : list A) (n : nat) :
  length l1 = n → length l2 = n →
  (∀ i, (i < n)%nat → l1 !! i = l2 !! i) ↔ l1 = l2.
Proof.
  intros H1 H2. split; [|by intros ->].
  intros Hall. apply list_eq. intros i.
  destruct (decide (i < n)%nat); [by apply Hall|].
  by rewrite !lookup_ge_None_2 by lia.
Qed.

Context (n : nat) (d : list (list cell)) (rc cc : list Clue).
Hypothesis Hrows : length d = n.
Hypothesis Hwidth : Forall (λ row : list cell, length row = n) d.
Hypothesis Hrc : length rc = n.
Hypothesis Hcc : length cc = n.

Lemma column_data (col : nat) :
  (col < n)%nat →
  collect (λ row,
    let* line := deref d row in
    Ok (normalize (default (Known Undefined) (line !! col)))) (seq 0 n)
  = Ok (column (normalized d) col).
Proof.
  intros Hcol.
  rewrite (collect_fmap _ (λ row, default Undefined
                                    (normalized d !! row
                                     ≫= λ line : Line, line !! col))).
  - f_equal. unfold column. apply list_eq. intros i.
    rewrite !list_lookup_fmap.
    destruct (decide (i < n)%nat) as [Hi|Hi].
    + rewrite lookup_seq_lt by done. simpl.
      destruct (lookup_lt_is_Some_2 (normalized d) i) as [line Hline];
        [rewrite length_normalized; lia|].
      by rewrite Hline.
    + rewrite lookup_seq_ge by lia.
      by rewrite lookup_ge_None_2 by (rewrite length_normalized; lia).
  - intros row Hrow%elem_of_seq.
    destruct (lookup_lt_is_Some_2 d row ltac:(lia)) as [prow Hprow].
    rewrite (deref_Some _ _ _ Hprow). simpl. f_equal.
    rewrite normalized_lookup, Hprow. simpl.
    rewrite list_lookup_fmap.
    assert (length prow = n) as Hw.
    { rewrite Forall_forall in Hwidth. apply Hwidth.
      by apply list_elem_of_lookup_2 with row. }
    destruct (lookup_lt_is_Some_2 prow col ltac:(lia)) as [c ->]. done.
Qed.

Lemma updateClueIndicators_flags :
  updateClueIndicators d n rc cc
  = Ok ((λ i, bool_decide (calculateRows (normalized d) !! i = rc !! i))
          <$> seq 0 n,
        (λ i, bool_decide (calculateColumns (normalized d) !! i = cc !! i))
          <$> seq 0 n).
Proof.
  unfold updateClueIndicators.
  rewrite (collect_fmap _
             (λ i, bool_decide
                     (calculateRows (normalized d) !! i = rc !! i))).
  2:{ intros row Hrow%elem_of_seq.
      destruct (lookup_lt_is_Some_2 d row ltac:(lia)) as [prow Hprow].
      destruct (lookup_lt_is_Some_2 rc row ltac:(lia)) as [clue Hclue].
      rewrite (deref_Some _ _ _ Hprow), (deref_Some _ _ _ Hclue). simpl.
      rewrite checkCluesMatch_eq. f_equal.
      unfold calculateRows.
      rewrite list_lookup_fmap, normalized_lookup, Hprow, Hclue. simpl.
      apply bool_decide_ext. split; congruence. }
  simpl.
  rewrite (collect_fmap _
             (λ i, bool_decide
                     (calculateColumns (normalized d) !! i = cc !! i)));
    [done|].
  intros col Hcol%elem_of_seq. rewrite column_data by lia. simpl.
  destruct (lookup_lt_is_Some_2 cc col ltac:(lia)) as [clue Hclue].
  rewrite (deref_Some _ _ _ Hclue). simpl.
  rewrite checkCluesMatch_eq. f_equal.
  rewrite calculateColumns_lookup, Hclue
    by (rewrite length_normalized; lia).
  apply bool_decide_ext. split; congruence.
Qed.

Lemma indicators_all_iff :
  (Forall (eq true)
     ((λ i, bool_decide (calculateRows (normalized d) !! i = rc !! i))
        <$> seq 0 n)
   ∧ Forall (eq true)
       ((λ i, bool_decide
                (calculateColumns (normalized d) !! i = cc !! i))
          <$> seq 0 n))
  ↔ satisfies rc cc (normalized d).
Proof.
  rewrite !Forall_true_tabulate. unfold satisfies.
  rewrite <- (lookup_eq_all (calculateRows (normalized d)) rc n);
    [|unfold calculateRows; by rewrite length_fmap, length_normalized
     |done].
  rewrite <- (lookup_eq_all (calculateColumns (normalized d)) cc n);
    [|unfold calculateColumns;
      by rewrite length_fmap, length_seq, length_normalized
     |done].
  split; intros [H1 H2]; split; intros i Hi.
  - specialize (H1 i Hi). by apply bool_decide_eq_true in H1.
  - specialize (H2 i Hi). by apply bool_decide_eq_true in H2.
  - apply bool_decide_eq_true. by apply H1.
  - apply bool_decide_eq_true. by apply H2.
Qed.

End Indicators.

(** X21.  On a player's grid of [n] rows of [n] cells and [n] expected
    row and column clues, [updateClueIndicators] throws nothing and marks
    a row (a column) as satisfied exactly when the clue of that row
    (column) of the player's grid, with every cell that is not 1 read as
    0, is the expected one; all the indicators are on exactly when that
    grid satisfies the clue set. *)
Theorem updateClueIndicators_meaning (n : nat)
    (d : list (list GridClass.cell)) (rc cc : list Clue) :
  length d = n → Forall (λ row : list GridClass.cell, length row = n) d →
  length rc = n → length cc = n →
  ∃ rows cols,
    Play.updateClueIndicators d n rc cc = Ok (rows, cols)
    ∧ length rows = n ∧ length cols = n
    ∧ (∀ i, (i < n)%nat →
         (rows !! i = Some true
          ↔ calculateRows (normalized d) !! i = rc !! i)
         ∧ (cols !! i = Some true
            ↔ calculateColumns (normalized d) !! i = cc !! i))
    ∧ (Forall (eq true) rows ∧ Forall (eq true) cols
       ↔ satisfies rc cc (normalized d)).
Proof.
  intros Hrows Hwidth Hrc Hcc. eexists _, _.
  split; [by apply updateClueIndicators_flags|].
  rewrite !length_fmap, !length_seq.
  split_and!; [done..| |by apply indicators_all_iff].
  intros i Hi. rewrite !lookup_tabulate by done.
  split; (split; [intros [= Hb]; by apply bool_decide_eq_true in Hb
                 |intros Hb; f_equal; by apply bool_decide_eq_true]).
Qed.

Lemma updateClueIndicators_meaning_witness :
  let d := [[GridClass.Known (Num 1); GridClass.Known (Num 2)];
            [GridClass.Known (Num 0); GridClass.Known (Num 1)]] in
  ∃ rows cols,
    Play.updateClueIndicators d 2 [[1]; [1]] [[1]; [1]] = Ok (rows, cols)
    ∧ (Forall (eq true) rows ∧ Forall (eq true) cols
       ↔ satisfies [[1]; [1]] [[1]; [1]] (normalized d)).
Proof.
  destruct (updateClueIndicators_meaning 2
              [[GridClass.Known (Num 1); GridClass.Known (Num 2)];
               [GridClass.Known (Num 0); GridClass.Known (Num 1)]]
              [[1]; [1]] [[1]; [1]])
    as (rows & cols & Hupd & _ & _ & _ & Hall);
    [reflexivity | repeat constructor | reflexivity | reflexivity |].
  exists rows, cols. split; [exact Hupd | exact Hall].
Defined.

Section PlayAgainstSolution.
Import GridClass Play.

Lemma normalized_grid01 (n : nat) (d : list (list cell)) :
  length d = n → Forall (λ row : list cell, length row = n) d →
  is_grid01 n (normalized d).
Proof.
  intros Hrows Hwidth. split; [by rewrite length_normalized|].
  unfold normalized. apply Forall_fmap.
  eapply Forall_impl; [exact Hwidth|]. intros row Hrow. simpl.
  split; [by rewrite length_fmap|].
  apply Forall_fmap, Forall_forall. intros c _. simpl.
  unfold normalize. case_decide; [by right | by left].
Qed.

Lemma same_shape (n : nat) (d : list (list cell)) (sol : Grid) :
  length d = n → Forall (λ row : list cell, length row = n) d →
  is_grid01 n sol →
  Forall2 (λ (prow : list cell) (srow : Line), length prow = length srow)
    d sol.
Proof.
  intros Hrows Hwidth [Hlen Hsol]. apply Forall2_same_length_lookup.
  split; [lia|]. intros i prow srow Hp Hs.
  rewrite Forall_forall in Hwidth. rewrite Forall_forall in Hsol.
  rewrite (Hwidth prow) by (by apply list_elem_of_lookup_2 with i).
  symmetry. by apply (Hsol srow), list_elem_of_lookup_2 with i.
Qed.

Lemma unique_satisfying (n : nat) (rc cc : list Clue) (g1 g2 : Grid) :
  length rc = n → count_satisfying rc cc = 1%nat →
  is_grid01 n g1 → satisfies rc cc g1 →
  is_grid01 n g2 → satisfies rc cc g2 →
  g1 = g2.
Proof.
  intros Hrc Hcount H1 Hs1 H2 Hs2. unfold count_satisfying in Hcount.
  rewrite Hrc in Hcount.
  assert (g1 ∈ filter (satisfies rc cc) (all_grids n)) as Hin1
    by (apply list_elem_of_filter; split; [done | by apply all_grids_elem]).
  assert (g2 ∈ filter (satisfies rc cc) (all_grids n)) as Hin2
    by (apply list_elem_of_filter; split; [done | by apply all_grids_elem]).
  destruct (filter (satisfies rc cc) (all_grids n)) as [|x [|y l]];
    simpl in Hcount; try lia.
  apply list_elem_of_singleton in Hin1, Hin2. congruence.
Qed.

End PlayAgainstSolution.

(** X22.  In play mode on a well-formed puzzle ([n]-by-[n] 0/1 solution,
    clues derived from it, [n]-by-[n] player grid), a grid that
    [checkSolution] accepts has every clue indicator on; and when the
    solution is the only grid satisfying its clues, a grid with every
    indicator on is accepted by [checkSolution]. *)
Theorem indicators_agree_with_checkSolution (n : nat)
    (d : list (list GridClass.cell)) (sol : Grid) :
  is_grid01 n sol →
  length d = n → Forall (λ row : list GridClass.cell, length row = n) d →
  ∃ rows cols correct,
    Play.updateClueIndicators d n (calculateRows sol) (calculateColumns sol)
    = Ok (rows, cols)
    ∧ Play.checkSolution d sol = Ok correct
    ∧ (correct = true → Forall (eq true) rows ∧ Forall (eq true) cols)
    ∧ (count_satisfying (calculateRows sol) (calculateColumns sol) = 1%nat →
       Forall (eq true) rows ∧ Forall (eq true) cols → correct = true).
Proof.
  intros Hsol Hrows Hwidth.
  assert (length (calculateRows sol) = n) as Hrc
    by (unfold calculateRows; rewrite length_fmap; apply Hsol).
  assert (length (calculateColumns sol) = n) as Hcc
    by (unfold calculateColumns; rewrite length_fmap, length_seq;
        apply Hsol).
  eexists _, _, _. split_and!.
  - by apply updateClueIndicators_flags.
  - apply checkSolution_same_shape. by apply (same_shape n).
  - intros Hcorrect%bool_decide_eq_true.
    apply (indicators_all_iff n); try done. by rewrite Hcorrect.
  - intros Hcount Hall. apply bool_decide_eq_true.
    apply (indicators_all_iff n) in Hall; try done.
    apply (unique_satisfying n (calculateRows sol) (calculateColumns sol));
      try done.
    by apply normalized_grid01.
Qed.

Lemma indicators_agree_with_checkSolution_witness :
  let d := [[GridClass.Known (Num 1); GridClass.Known (Num 2)];
            [GridClass.Known (Num 1); GridClass.Known (Num 1)]] in
  let sol := [cells [1; 0]; cells [1; 1]] in
  ∃ rows cols correct,
    Play.updateClueIndicators d 2 (calculateRows sol) (calculateColumns sol)
    = Ok (rows, cols)
    ∧ Play.checkSolution d sol = Ok correct
    ∧ (correct = true → Forall (eq true) rows ∧ Forall (eq true) cols)
    ∧ (count_satisfying (calculateRows sol) (calculateColumns sol) = 1%nat →
       Forall (eq true) rows ∧ Forall (eq true) cols → correct = true).
Proof.
  apply (indicators_agree_with_checkSolution 2
           [[GridClass.Known (Num 1); GridClass.Known (Num 2)];
            [GridClass.Known (Num 1); GridClass.Known (Num 1)]]
           [cells [1; 0]; cells [1; 1]]);
    [compute_done | reflexivity | repeat constructor].
Defined.

Section LoadingParsed.
Import Json.






End LoadingParsed.



(** ** The grid widget *)

Section Widget.
Import GridClass.

Lemma array_set_lookup (a : list cell) (i j : nat) (v : cell) :
  default (Known Undefined) (array_set a i v !! j)
  = if decide (j = i) then v else default (Known Undefined) (a !! j).
Proof.
  revert a j. induction i as [|i IH]; intros [|x a] [|j]; simpl;
    rewrite ?IH; repeat case_decide; simplify_eq; try lia; try done.
Qed.

Lemma array_set_in_range (a : list cell) (i : nat) (v : cell) :
  (i < length a)%nat → array_set a i v = <[i := v]> a.
Proof.
  revert i. induction a as [|x a IH]; intros [|i] Hi; simpl in *;
    try lia; [done|].
  f_equal. apply IH. lia.
Qed.

Lemma getCellState_set (st st' : state) (row col r c : nat) (v : cell) :
  setCellState st row col v = Ok st' →
  getCellState st' r c
  = if decide (r = row ∧ c = col) then Ok v else getCellState st r c.
Proof.
  unfold setCellState, getCellState, deref.
  destruct (data st !! row) as [line|] eqn:Hline; simpl; [|done].
  intros [= <-]. simpl.
  destruct (decide (r = row)) as [->|Hne].
  - rewrite list_lookup_insert_eq by (by eapply lookup_lt_Some).
    rewrite Hline. simpl. rewrite array_set_lookup.
    destruct (decide (c = col)) as [->|Hc].
    + by rewrite decide_True.
    + by rewrite decide_False by (intros [_ ?]; done).
  - rewrite list_lookup_insert_ne by done.
    by rewrite decide_False by (intros [? _]; done).
Qed.

End Widget.

(** X23.  [setCellState] and [getCellState] obey the law of a store: a
    cell set is read back, also past the end of its row, every other cell
    reads as before, and both throw a [TypeError] exactly on a row the
    data does not have. *)
Theorem setCellState_then_getCellState (st : GridClass.state)
    (row col : nat) (v : GridClass.cell) :
  ((row < length (GridClass.data st))%nat →
   ∃ st', GridClass.setCellState st row col v = Ok st'
          ∧ GridClass.getCellState st' row col = Ok v
          ∧ ∀ r c, (r, c) ≠ (row, col) →
                   GridClass.getCellState st' r c
                   = GridClass.getCellState st r c)
  ∧ ((length (GridClass.data st) ≤ row)%nat →
     GridClass.setCellState st row col v = TypeError
     ∧ GridClass.getCellState st row col = TypeError).
Proof.
  split.
  - intros Hrow.
    destruct (lookup_lt_is_Some_2 _ _ Hrow) as [line Hline].
    destruct (GridClass.setCellState st row col v) as [st'|] eqn:Hset.
    + exists st'. split_and!; [done|..].
      * rewrite (getCellState_set _ _ _ _ _ _ _ Hset).
        by rewrite decide_True.
      * intros r c Hne. rewrite (getCellState_set _ _ _ _ _ _ _ Hset).
        rewrite decide_False; [done|]. intros [-> ->]. done.
    + unfold GridClass.setCellState in Hset.
      by rewrite (deref_Some _ _ _ Hline) in Hset.
  - intros Hrow. unfold GridClass.setCellState, GridClass.getCellState, deref.
    by rewrite lookup_ge_None_2.
Qed.

Lemma setCellState_then_getCellState_witness :
  ∃ st', GridClass.setCellState (GridClass.new 2 true) 1 5
           (GridClass.Known (Num 1)) = Ok st'
         ∧ GridClass.getCellState st' 1 5 = Ok (GridClass.Known (Num 1))
         ∧ GridClass.setCellState (GridClass.new 2 true) 2 0
             (GridClass.Known (Num 1)) = TypeError.
Proof.
  destruct (setCellState_then_getCellState (GridClass.new 2 true) 1 5
              (GridClass.Known (Num 1))) as [Hin _].
  destruct (setCellState_then_getCellState (GridClass.new 2 true) 2 0
              (GridClass.Known (Num 1))) as [_ Hout].
  destruct Hin as (st' & Hset & Hget & _); [simpl; lia|].
  exists st'. split_and!; [exact Hset | exact Hget|].
  apply Hout. simpl. lia.
Defined.

Section Pointer.
Import GridClass.

Lemma applyCellAction_spec (st : state) (row col : nat) (old : cell) :
  getCellState st row col = Ok old →
  ∃ st', applyCellAction st row col
         = Ok (st', bool_decide (old ≠ dragAction st) && onCellChange st)
         ∧ setCellState st row col (dragAction st) = Ok st'
         ∧ dragAction st' = dragAction st
         ∧ isDragging st' = isDragging st
         ∧ onCellChange st' = onCellChange st.
Proof.
  intros Hget. unfold applyCellAction. rewrite Hget. simpl.
  unfold getCellState, setCellState, deref in *.
  destruct (data st !! row) as [line|]; [|done]. simpl.
  eexists. split_and!; done.
Qed.

(** The action a press of the left or the right button chooses for a
    cell that is empty, filled or marked. *)
Lemma handleMouseDown_spec (st : state) (row col : nat) (s button : Z) :
  getCellState st row col = Ok (Known (Num s)) → 0 ≤ s ≤ 2 →
  button = 0 ∨ button = 2 →
  let action :=
    if decide (button = 0) then Known (Num ((s + 1) mod 3))
    else Known (Num (if decide (s = 2) then 0 else 2)) in
  ∃ st', handleMouseDown st row col button = Ok (st', onCellChange st)
         ∧ dragAction st' = action ∧ isDragging st' = true
         ∧ onCellChange st' = onCellChange st
         ∧ (∃ st0, data st0 = data st
                   ∧ setCellState st0 row col action = Ok st')
         ∧ ∀ r c, getCellState st' r c
                  = if decide (r = row ∧ c = col) then Ok action
                    else getCellState st r c.
Proof.
  intros Hget Hs Hbutton action. unfold handleMouseDown. rewrite Hget.
  cbn [bind].
  match goal with
  | |- context [applyCellAction ?x row col] => remember x as st1 eqn:Hst1
  end.
  assert (dragAction st1 = action) as Haction.
  { subst st1. unfold action. simpl.
    assert (s = 0 ∨ s = 1 ∨ s = 2) as [-> | [-> | ->]] by lia;
      destruct Hbutton as [-> | ->]; reflexivity. }
  assert (data st1 = data st) as Hdata by (by subst st1).
  assert (onCellChange st1 = onCellChange st) as Hcb1 by (by subst st1).
  assert (isDragging st1 = true) as Hdrag1 by (by subst st1).
  assert (∀ r c, getCellState st1 r c = getCellState st r c) as Hsame
    by (intros r c; unfold getCellState; by rewrite Hdata).
  clear Hst1.
  destruct (applyCellAction_spec st1 row col (Known (Num s)))
    as (st' & Happly & Hset & Hact & Hdrag & Hcb); [by rewrite Hsame|].
  exists st'. rewrite Happly, Hact, Hdrag, Hcb, Haction, Hcb1, Hdrag1.
  split_and!; try done.
  - f_equal. f_equal.
    rewrite bool_decide_eq_true_2; [done|]. unfold action.
    assert (s = 0 ∨ s = 1 ∨ s = 2) as [-> | [-> | ->]] by lia;
      destruct Hbutton as [-> | ->]; by compute.
  - exists st1. by rewrite <- Haction.
  - intros r c. rewrite (getCellState_set _ _ _ _ _ _ _ Hset).
    by rewrite Haction, Hsame.
Qed.

Lemma setCellState_data012 (n : nat) (st st' : state) (row col : nat)
    (v : cell) :
  data012 n (data st) → (col < n)%nat → cell012 v →
  setCellState st row col v = Ok st' →
  data012 n (data st').
Proof.
  intros [Hlen Hrows] Hcol Hv. unfold setCellState, deref.
  destruct (data st !! row) as [line|] eqn:Hline; simpl; [|done].
  intros [= <-]. simpl. split; [by rewrite length_insert|].
  apply Forall_insert; [done|].
  rewrite Forall_forall in Hrows.
  destruct (Hrows line) as [Hw H012];
    [by apply list_elem_of_lookup_2 with row|].
  rewrite array_set_in_range by lia.
  split; [by rewrite length_insert | by apply Forall_insert].
Qed.

Lemma getCellState_data012 (n : nat) (st : state) (row col : nat) :
  data012 n (data st) → (row < n)%nat → (col < n)%nat →
  ∃ s, getCellState st row col = Ok (Known (Num s)) ∧ 0 ≤ s ≤ 2.
Proof.
  intros [Hlen Hrows] Hrow Hcol. unfold getCellState.
  destruct (lookup_lt_is_Some_2 (data st) row ltac:(lia)) as [line Hline].
  rewrite (deref_Some _ _ _ Hline). simpl.
  rewrite Forall_forall in Hrows.
  destruct (Hrows line) as [Hw H012];
    [by apply list_elem_of_lookup_2 with row|].
  destruct (lookup_lt_is_Some_2 line col ltac:(lia)) as [c Hc].
  rewrite Hc. simpl. rewrite Forall_forall in H012.
  destruct (H012 c) as [-> | [-> | ->]];
    [by apply list_elem_of_lookup_2 with col|..];
    eexists; (split; [reflexivity | lia]).
Qed.

(** What the plain events keep: the shape and the three states of the
    data, and a drag action that is unset or one of the three states. *)
Lemma grid_step_keeps (n : nat) (st : state) (ev : grid_event) :
  data012 n (data st) → dragAction st = Null ∨ cell012 (dragAction st) →
  plain_event n ev →
  ∃ st', grid_step st ev = Ok st'
         ∧ data012 n (data st')
         ∧ (dragAction st' = Null ∨ cell012 (dragAction st')).
Proof.
  intros Hdata Haction Hev. destruct ev as [row col button|row col|]; simpl.
  - destruct Hev as (Hrow & Hcol & Hbutton).
    destruct (getCellState_data012 n st row col) as (s & Hget & Hs);
      try done.
    destruct (handleMouseDown_spec st row col s button Hget Hs Hbutton)
      as (st' & Hdown & Hact & _ & _ & (st0 & Hdata0 & Hset) & _).
    rewrite Hdown. simpl. exists st'.
    assert (cell012 (dragAction st')) as H012.
    { rewrite Hact.
      assert (s = 0 ∨ s = 1 ∨ s = 2) as [-> | [-> | ->]] by lia;
        destruct Hbutton as [-> | ->]; compute; tauto. }
    split_and!; [done| |by right].
    eapply (setCellState_data012 n st0); [by rewrite Hdata0|done| |exact Hset].
    by rewrite <- Hact.
  - destruct Hev as (Hrow & Hcol). unfold handleMouseEnter.
    destruct (isDragging st && bool_decide (dragAction st ≠ Null))
      eqn:Hdrag; simpl; [|by exists st].
    apply andb_true_iff in Hdrag as [_ Hne%bool_decide_eq_true].
    destruct Haction as [?|H012]; [done|].
    destruct (getCellState_data012 n st row col) as (s & Hget & Hs);
      try done.
    destruct (applyCellAction_spec st row col _ Hget)
      as (st' & Happly & Hset & Hact & _).
    rewrite Happly. simpl. exists st'. split_and!; [done| |].
    + by eapply setCellState_data012.
    + right. by rewrite Hact.
  - exists (mouseUp st). split_and!; [done..|by left].
Qed.

End Pointer.

(** X24.  A press of the left button on a cell that is empty, filled or
    marked takes it to the next of these states in the cycle empty,
    filled, marked; a press of the right button marks it, or empties it
    when it is marked.  Either way the cell changes, the change callback
    is called when one is set, and no other cell is touched. *)
Theorem handleMouseDown_cycles (st : GridClass.state) (row col : nat)
    (s button : Z) :
  GridClass.getCellState st row col = Ok (GridClass.Known (Num s)) →
  0 ≤ s ≤ 2 → button = 0 ∨ button = 2 →
  ∃ st' s',
    GridClass.handleMouseDown st row col button
    = Ok (st', GridClass.onCellChange st)
    ∧ s' = (if decide (button = 0) then (s + 1) mod 3
            else if decide (s = 2) then 0 else 2)
    ∧ s' ≠ s
    ∧ GridClass.getCellState st' row col = Ok (GridClass.Known (Num s'))
    ∧ ∀ r c, (r, c) ≠ (row, col) →
             GridClass.getCellState st' r c = GridClass.getCellState st r c.
Proof.
  intros Hget Hs Hbutton.
  destruct (handleMouseDown_spec st row col s button Hget Hs Hbutton)
    as (st' & Hdown & _ & _ & _ & _ & Hcells).
  exists st'. eexists. split_and!; [done|reflexivity|..].
  - assert (s = 0 ∨ s = 1 ∨ s = 2) as [-> | [-> | ->]] by lia;
      destruct Hbutton as [-> | ->]; by compute.
  - rewrite Hcells, decide_True by done.
    by destruct (decide (button = 0)).
  - intros r c Hne. rewrite Hcells, decide_False; [done|].
    intros [-> ->]. done.
Qed.

Lemma handleMouseDown_cycles_witness :
  ∃ st' s',
    GridClass.handleMouseDown (GridClass.new 2 true) 0 1 0
    = Ok (st', true)
    ∧ s' = 1
    ∧ GridClass.getCellState st' 0 1 = Ok (GridClass.Known (Num s')).
Proof.
  destruct (handleMouseDown_cycles (GridClass.new 2 true) 0 1 0 0)
    as (st' & s' & Hdown & Hs' & _ & Hget & _);
    [reflexivity | lia | by left |].
  exists st', s'. split_and!; [exact Hdown | exact Hs' | exact Hget].
Defined.

(** X25.  Whatever the presses of the left and right buttons, the moves
    over cells and the releases, the widget throws nothing and its data
    stays a [size]-by-[size] array of empty, filled or marked cells. *)
Theorem grid_run_keeps_states (n : nat) (callback : bool)
    (evs : list grid_event) :
  Forall (plain_event n) evs →
  ∃ st, grid_run (GridClass.new n callback) evs = Ok st
        ∧ data012 n (GridClass.getData st).
Proof.
  intros Hevs.
  assert (∀ st,
            data012 n (GridClass.data st) →
            GridClass.dragAction st = GridClass.Null
            ∨ cell012 (GridClass.dragAction st) →
            ∃ st', grid_run st evs = Ok st'
                   ∧ data012 n (GridClass.data st')) as Hrun.
  { induction Hevs as [|ev evs Hev _ IH]; intros st Hdata Haction; simpl.
    - by exists st.
    - destruct (grid_step_keeps n st ev Hdata Haction Hev)
        as (st1 & -> & Hdata1 & Haction1).
      simpl. by apply IH. }
  destruct (Hrun (GridClass.new n callback)) as (st & Hst & Hdata).
  - split; [apply length_replicate|].
    apply Forall_replicate. split; [apply length_replicate|].
    apply Forall_replicate. by left.
  - by left.
  - exists st. split; [done|].
    unfold GridClass.getData, GridClass.copy2DArray.
    by rewrite list_fmap_id.
Qed.

Lemma grid_run_keeps_states_witness :
  ∃ st, grid_run (GridClass.new 2 true)
          [MouseDown 0 0 0; MouseEnter 0 1; MouseUp; MouseDown 1 1 2]
        = Ok st
        ∧ data012 2 (GridClass.getData st).
Proof.
  apply (grid_run_keeps_states 2 true
           [MouseDown 0 0 0; MouseEnter 0 1; MouseUp; MouseDown 1 1 2]).
  repeat constructor; simpl; lia.
Defined.

(** X26.  A drag paints: after a press of the left or right button on a
    cell that is empty, filled or marked, moving over any cell of the data
    puts that cell in the state the press gave the first one; once the
    button is released, moving over a cell changes nothing and calls no
    callback. *)
Theorem drag_paints_cells (st : GridClass.state) (row col row' col' : nat)
    (s button : Z) (old : GridClass.cell) :
  GridClass.getCellState st row col = Ok (GridClass.Known (Num s)) →
  0 ≤ s ≤ 2 → button = 0 ∨ button = 2 →
  GridClass.getCellState st row' col' = Ok old →
  ∃ st1 st2 changed painted,
    GridClass.handleMouseDown st row col button
    = Ok (st1, GridClass.onCellChange st)
    ∧ GridClass.handleMouseEnter st1 row' col' = Ok (st2, changed)
    ∧ cell012 painted
    ∧ GridClass.getCellState st2 row col = Ok painted
    ∧ GridClass.getCellState st2 row' col' = Ok painted
    ∧ GridClass.handleMouseEnter (GridClass.mouseUp st2) row' col'
      = Ok (GridClass.mouseUp st2, false).
Proof.
  intros Hget Hs Hbutton Hold.
  destruct (handleMouseDown_spec st row col s button Hget Hs Hbutton)
    as (st1 & Hdown & Hact & Hdrag & _ & _ & Hcells).
  assert (cell012 (GridClass.dragAction st1)) as H012.
  { rewrite Hact.
    assert (s = 0 ∨ s = 1 ∨ s = 2) as [-> | [-> | ->]] by lia;
      destruct Hbutton as [-> | ->]; compute; tauto. }
  assert (∃ old1, GridClass.getCellState st1 row' col' = Ok old1)
    as [old1 Hold1].
  { rewrite Hcells.
    destruct (decide (row' = row ∧ col' = col));
      [eexists; reflexivity | by exists old]. }
  destruct (applyCellAction_spec st1 row' col' old1 Hold1)
    as (st2 & Happly & Hset & _).
  exists st1, st2. eexists. exists (GridClass.dragAction st1).
  split_and!; [done| |done|..|done].
  - unfold GridClass.handleMouseEnter. rewrite Hdrag.
    rewrite bool_decide_eq_true_2; [exact Happly|].
    intros Hnull. rewrite Hnull in H012.
    by destruct H012 as [? | [? | ?]].
  - rewrite (getCellState_set _ _ _ _ _ _ _ Hset).
    destruct (decide (row = row' ∧ col = col')); [done|].
    rewrite Hcells, decide_True by done. by rewrite Hact.
  - rewrite (getCellState_set _ _ _ _ _ _ _ Hset).
    by rewrite decide_True.
Qed.

Lemma drag_paints_cells_witness :
  ∃ st1 st2 changed painted,
    GridClass.handleMouseDown (GridClass.new 2 true) 0 0 0 = Ok (st1, true)
    ∧ GridClass.handleMouseEnter st1 1 1 = Ok (st2, changed)
    ∧ cell012 painted
    ∧ GridClass.getCellState st2 0 0 = Ok painted
    ∧ GridClass.getCellState st2 1 1 = Ok painted.
Proof.
  destruct (drag_paints_cells (GridClass.new 2 true) 0 0 1 1 0 0
              (GridClass.Known (Num 0)))
    as (st1 & st2 & changed & painted & H1 & H2 & H3 & H4 & H5 & _);
    [reflexivity | lia | by left | reflexivity |].
  exists st1, st2, changed, painted.
  split_and!; [exact H1 | exact H2 | exact H3 | exact H4 | exact H5].
Defined.

(** X27.  A press of any button but the left and the right one chooses no
    action: when none is pending (a new widget, or after a release) the
    press writes [null] into the cell, which is none of empty, filled or
    marked, and calls the change callback when one is set and the cell was
    not [null] already. *)
Theorem handleMouseDown_other_button_writes_null (st : GridClass.state)
    (row col : nat) (button : Z) (old : GridClass.cell) :
  GridClass.dragAction st = GridClass.Null →
  button ≠ 0 → button ≠ 2 →
  GridClass.getCellState st row col = Ok old →
  ∃ st',
    GridClass.handleMouseDown st row col button
    = Ok (st', bool_decide (old ≠ GridClass.Null)
               && GridClass.onCellChange st)
    ∧ GridClass.getCellState st' row col = Ok GridClass.Null
    ∧ ¬ cell012 GridClass.Null
    ∧ GridClass.isDragging st' = true
    ∧ ∀ r c, (r, c) ≠ (row, col) →
             GridClass.getCellState st' r c = GridClass.getCellState st r c.
Proof.
  intros Hnull Hb0 Hb2 Hget. unfold GridClass.handleMouseDown.
  rewrite Hget. cbn [bind].
  rewrite (decide_False (P := button = 0)) by done.
  rewrite (decide_False (P := button = 2)) by done.
  match goal with
  | |- context [GridClass.applyCellAction ?x row col] =>
      remember x as st1 eqn:Hst1
  end.
  assert (GridClass.dragAction st1 = GridClass.Null) as Haction
    by (by subst st1).
  assert (GridClass.data st1 = GridClass.data st) as Hdata by (by subst st1).
  assert (GridClass.onCellChange st1 = GridClass.onCellChange st) as Hcb1
    by (by subst st1).
  assert (GridClass.isDragging st1 = true) as Hdrag1 by (by subst st1).
  assert (∀ r c, GridClass.getCellState st1 r c
                 = GridClass.getCellState st r c) as Hsame
    by (intros r c; unfold GridClass.getCellState; by rewrite Hdata).
  clear Hst1.
  destruct (applyCellAction_spec st1 row col old)
    as (st' & Happly & Hset & Hact & Hdrag & Hcb); [by rewrite Hsame|].
  exists st'. rewrite Happly, Haction, Hcb1, Hdrag, Hdrag1.
  split_and!; [done| | |done|].
  - rewrite (getCellState_set _ _ _ _ _ _ _ Hset).
    by rewrite decide_True, Haction.
  - by intros [? | [? | ?]].
  - intros r c Hne. rewrite (getCellState_set _ _ _ _ _ _ _ Hset).
    rewrite decide_False, Hsame; [done|]. intros [-> ->]. done.
Qed.

Lemma handleMouseDown_other_button_writes_null_witness :
  ∃ st',
    GridClass.handleMouseDown (GridClass.new 2 true) 0 0 1 = Ok (st', true)
    ∧ GridClass.getCellState st' 0 0 = Ok GridClass.Null.
Proof.
  destruct (handleMouseDown_other_button_writes_null (GridClass.new 2 true)
              0 0 1 (GridClass.Known (Num 0)))
    as (st' & Hdown & Hget & _); [reflexivity | lia | lia | reflexivity |].
  exists st'. split; [exact Hdown | exact Hget].
Defined.

(** ** The editor *)

Section MoreEditor.
Import GridClass.

Lemma getData_data (st : state) : getData st = data st.
Proof. unfold getData, copy2DArray. apply list_fmap_id. Qed.

Lemma forallb_Forall {A} (f : A → bool) (l : list A) :
  forallb f l = true ↔ Forall (λ x, f x = true) l.
Proof.
  rewrite forallb_forall, Forall_forall.
  split; intros H x Hx; apply H; by apply list_elem_of_In.
Qed.

Lemma numbers_line (line : list cell) :
  Forall cell012 line →
  mapM (λ c, match c with
             | Known (Num n) => Some (Num n)
             | _ => None
             end) line = Some (cell_value <$> line).
Proof.
  intros H012. apply mapM_Some. apply Forall2_fmap_r, Forall_Forall2_diag.
  eapply Forall_impl; [exact H012|].
  by intros c [-> | [-> | ->]].
Qed.

Lemma numbers_data (n : nat) (d : list (list cell)) :
  data012 n d →
  Editor.numbers d
  = Some ((λ row : list cell, cell_value <$> row) <$> d).
Proof.
  intros [_ Hrows]. unfold Editor.numbers.
  apply mapM_Some. apply Forall2_fmap_r, Forall_Forall2_diag.
  eapply Forall_impl; [exact Hrows|].
  intros line [_ H012]. by apply numbers_line.
Qed.

Lemma all_match_true_inv (check : nat → result bool) (indices : list nat)
    (i : nat) :
  all_match check indices = Ok true → i ∈ indices → check i = Ok true.
Proof.
  induction indices as [|j indices IH]; simpl; [by intros _ ?%elem_of_nil|].
  destruct (check j) as [[]|] eqn:Hj; simpl; try done.
  intros Hall [->|Hin]%elem_of_cons; [done | by apply IH].
Qed.

(** No grid is found correct against a solution that holds a marked
    cell. *)
Lemma checkSolution_marked (d : list (list cell)) (sol : Grid)
    (row col : nat) (line : Line) :
  sol !! row = Some line → line !! col = Some (Num 2) →
  Play.checkSolution d sol ≠ Ok true.
Proof.
  intros Hrow Hcol Hcheck. unfold Play.checkSolution in Hcheck.
  apply (all_match_true_inv _ _ row) in Hcheck;
    [|apply elem_of_seq; apply lookup_lt_Some in Hrow; lia].
  cbv beta in Hcheck.
  rewrite (deref_Some _ _ _ Hrow) in Hcheck. cbn [bind] in Hcheck.
  apply (all_match_true_inv _ _ col) in Hcheck;
    [|apply elem_of_seq; apply lookup_lt_Some in Hcol; lia].
  cbv beta in Hcheck. unfold deref in Hcheck. rewrite list_lookup_fmap in Hcheck.
  destruct (d !! row) as [prow|]; simpl in Hcheck; [|done].
  injection Hcheck as Hcheck. apply bool_decide_eq_true in Hcheck.
  rewrite Hcol, list_lookup_fmap in Hcheck.
  destruct (prow !! col) as [c|]; simpl in Hcheck; [|done].
  unfold Play.normalize in Hcheck. by case_decide.
Qed.

End MoreEditor.

Lemma exportPuzzle_exports (st : GridClass.state)
    (editorSize : nat) (today : string) :
  (Editor.exportPuzzle st editorSize today = None
   ↔ Forall (Forall (λ c, c = GridClass.Known (Num 0))) (GridClass.data st))
  ∧ ∀ e, Editor.exportPuzzle st editorSize today = Some e →
         Editor.size e = editorSize
         ∧ Editor.solution e = GridClass.data st
         ∧ Editor.created e = today.
Proof.
  unfold Editor.exportPuzzle. rewrite getData_data.
  assert (forallb (forallb (λ c, bool_decide (c = GridClass.Known (Num 0))))
            (GridClass.data st) = true
          ↔ Forall (Forall (λ c, c = GridClass.Known (Num 0)))
              (GridClass.data st)) as Hiff.
  { rewrite forallb_Forall. apply Forall_proper; [|done].
    intros line. rewrite forallb_Forall. apply Forall_proper; [|done].
    intros c. apply bool_decide_eq_true. }
  destruct (forallb _ (GridClass.data st)); split.
  - split; [intros _; by apply Hiff | done].
  - done.
  - split; [done|]. intros Hall. by apply Hiff in Hall.
  - by intros e [= <-].
Qed.

(** X28.  Export, import and play fit together.  An editor grid of size
    10 or 15 whose cells are 0 or 1, one of them at least 1, is exported by
    [exportPuzzle] with that size and date; the exported puzzle is loaded
    by [loadPuzzle], with the clues of the editor's grid; and
    [checkSolution] finds the editor's own grid correct for it. *)
Theorem exported_puzzle_round_trip (st : GridClass.state) (n : nat)
    (today : string) (row col : nat) :
  n = 10%nat ∨ n = 15%nat →
  data012 n (GridClass.data st) →
  Forall (Forall (λ c, c ≠ GridClass.Known (Num 2))) (GridClass.data st) →
  GridClass.getCellState st row col = Ok (GridClass.Known (Num 1)) →
  ∃ e record sol,
    Editor.exportPuzzle st n today = Some e
    ∧ Editor.size e = n ∧ Editor.created e = today
    ∧ Editor.reimport e = Some record
    ∧ Player.solution record = Some sol
    ∧ Player.loadPuzzle (Player.parsed record)
      = Player.Loaded (Player.parsed record) (calculateAll sol)
    ∧ sol = normalized (GridClass.getData st)
    ∧ Play.checkSolution (GridClass.getData st) sol = Ok true.
Proof.
  intros Hn Hdata Hmarks Hget.
  unfold GridClass.getCellState, deref in Hget.
  destruct (GridClass.data st !! row) as [line|] eqn:Hline; [|done].
  simpl in Hget.
  destruct (line !! col) as [c|] eqn:Hc; simpl in Hget; [|done].
  injection Hget as ->.
  destruct (exportPuzzle_exports st n today) as [Hnone Hsome].
  destruct (Editor.exportPuzzle st n today) as [e|] eqn:He.
  2:{ exfalso. destruct Hnone as [Hnone _]. specialize (Hnone eq_refl).
      rewrite Forall_forall in Hnone.
      specialize (Hnone line (list_elem_of_lookup_2 _ _ _ Hline)).
      rewrite Forall_forall in Hnone.
      by specialize (Hnone _ (list_elem_of_lookup_2 _ _ _ Hc)). }
  destruct (Hsome e eq_refl) as (Hsz & Hsol & Hcreated).
  set (sol := (λ row : list GridClass.cell, cell_value <$> row)
                <$> GridClass.data st).
  assert (sol = normalized (GridClass.getData st)) as Hnorm.
  { rewrite getData_data. unfold sol, normalized.
    apply list_fmap_ext. intros i l Hl. apply list_fmap_ext. intros j c Hj.
    destruct Hdata as [_ Hrows]. rewrite Forall_forall in Hrows.
    destruct (Hrows l (list_elem_of_lookup_2 _ _ _ Hl)) as [_ Hcells].
    rewrite Forall_forall in Hcells.
    rewrite Forall_forall in Hmarks.
    specialize (Hmarks l (list_elem_of_lookup_2 _ _ _ Hl)).
    rewrite Forall_forall in Hmarks.
    specialize (Hmarks c (list_elem_of_lookup_2 _ _ _ Hj)).
    destruct (Hcells c (list_elem_of_lookup_2 _ _ _ Hj)) as [->| [->| ->]];
      done. }
  exists e, {| Player.size := Some (Z.of_nat n);
               Player.solution := Some sol |}, sol.
  split_and!; [done..| |done| |done|].
  - unfold Editor.reimport. rewrite Hsol, (numbers_data n) by done.
    simpl. by rewrite Hsz.
  - apply (loadPuzzle_accepts_square _ (Z.of_nat n) sol); [done..|lia|].
    rewrite Nat2Z.id. destruct Hdata as [Hlen Hrows].
    split; [unfold sol; by rewrite length_fmap|].
    unfold sol. apply Forall_fmap.
    eapply Forall_impl; [exact Hrows|].
    intros l [Hw _]. simpl. by rewrite length_fmap.
  - rewrite checkSolution_same_shape.
    + f_equal. by apply bool_decide_eq_true.
    + rewrite Hnorm. unfold normalized. apply Forall2_fmap_r.
      apply Forall_Forall2_diag, Forall_forall. intros l _. simpl.
      by rewrite length_fmap.
Qed.

Lemma exported_puzzle_round_trip_witness :
  ∃ e record sol,
    Editor.exportPuzzle filled_grid 10 "2024-01-01" = Some e
    ∧ Editor.size e = 10%nat ∧ Editor.created e = "2024-01-01"
    ∧ Editor.reimport e = Some record
    ∧ Player.solution record = Some sol
    ∧ Player.loadPuzzle (Player.parsed record)
      = Player.Loaded (Player.parsed record) (calculateAll sol)
    ∧ sol = normalized (GridClass.getData filled_grid)
    ∧ Play.checkSolution (GridClass.getData filled_grid) sol = Ok true.
Proof.
  apply (exported_puzzle_round_trip filled_grid 10 "2024-01-01" 0 0);
    [by left | compute_done | compute_done | reflexivity].
Defined.

(** X29.  The editor exports marks, and play mode cannot match them: an
    editor grid of size 10 or 15 whose cells are 0, 1 or 2, with at least
    one marked cell, is exported; the exported puzzle is loaded by
    [loadPuzzle]; and then no player grid whatever is found correct by
    [checkSolution]. *)
Theorem exported_mark_makes_puzzle_unsolvable (st : GridClass.state)
    (n : nat) (today : string) (row col : nat) :
  n = 10%nat ∨ n = 15%nat →
  data012 n (GridClass.data st) →
  GridClass.getCellState st row col = Ok (GridClass.Known (Num 2)) →
  ∃ e record sol,
    Editor.exportPuzzle st n today = Some e
    ∧ Editor.reimport e = Some record
    ∧ Player.solution record = Some sol
    ∧ Player.loadPuzzle (Player.parsed record)
      = Player.Loaded (Player.parsed record) (calculateAll sol)
    ∧ ∀ d, Play.checkSolution d sol ≠ Ok true.
Proof.
  intros Hn Hdata Hget.
  unfold GridClass.getCellState, deref in Hget.
  destruct (GridClass.data st !! row) as [line|] eqn:Hline; [|done].
  simpl in Hget.
  destruct (line !! col) as [c|] eqn:Hc; simpl in Hget; [|done].
  injection Hget as ->.
  destruct (exportPuzzle_exports st n today) as [Hnone Hsome].
  destruct (Editor.exportPuzzle st n today) as [e|] eqn:He.
  2:{ exfalso. destruct Hnone as [Hnone _]. specialize (Hnone eq_refl).
      rewrite Forall_forall in Hnone.
      specialize (Hnone line (list_elem_of_lookup_2 _ _ _ Hline)).
      rewrite Forall_forall in Hnone.
      by specialize (Hnone _ (list_elem_of_lookup_2 _ _ _ Hc)). }
  destruct (Hsome e eq_refl) as (Hsz & Hsol & _).
  set (sol := (λ row : list GridClass.cell, cell_value <$> row)
                <$> GridClass.data st).
  exists e, {| Player.size := Some (Z.of_nat n);
               Player.solution := Some sol |}, sol.
  split_and!; [done| |done| |].
  - unfold Editor.reimport. rewrite Hsol, (numbers_data n) by done.
    simpl. by rewrite Hsz.
  - apply (loadPuzzle_accepts_square _ (Z.of_nat n) sol); [done..|lia|].
    rewrite Nat2Z.id. destruct Hdata as [Hlen Hrows].
    split; [unfold sol; by rewrite length_fmap|].
    unfold sol. apply Forall_fmap.
    eapply Forall_impl; [exact Hrows|].
    intros l [Hw _]. simpl. by rewrite length_fmap.
  - intros d. apply (checkSolution_marked d sol row col (cell_value <$> line)).
    + unfold sol. by rewrite list_lookup_fmap, Hline.
    + by rewrite list_lookup_fmap, Hc.
Qed.

Lemma exported_mark_makes_puzzle_unsolvable_witness :
  ∃ e record sol,
    Editor.exportPuzzle marked_grid 10 "2024-01-01" = Some e
    ∧ Editor.reimport e = Some record
    ∧ Player.solution record = Some sol
    ∧ Player.loadPuzzle (Player.parsed record)
      = Player.Loaded (Player.parsed record) (calculateAll sol)
    ∧ ∀ d, Play.checkSolution d sol ≠ Ok true.
Proof.
  apply (exported_mark_makes_puzzle_unsolvable marked_grid 10 "2024-01-01"
           0 0); [by left | compute_done | reflexivity].
Defined.

(** X30.  The clues [createEditorGrid] gives a new editor grid are the
    clues of the grid it starts with: every cell is 0, every row and
    column clue is the sentinel [0], and such a grid is not exported. *)
Theorem createEditorGrid_clues_match_data (n : nat) (today : string) :
  let '(st, rowClues, colClues) := Editor.createEditorGrid n in
  Editor.numbers (GridClass.getData st) = Some (create2DArray n n Empty)
  ∧ rowClues = calculateRows (create2DArray n n Empty)
  ∧ colClues = calculateColumns (create2DArray n n Empty)
  ∧ Editor.exportPuzzle st n today = None.
Proof.
  simpl. destruct (zeros_clues n) as [-> ->].
  assert (data012 n (GridClass.data (GridClass.new n true))) as Hdata.
  { split; [apply length_replicate|].
    apply Forall_replicate. split; [apply length_replicate|].
    apply Forall_replicate. by left. }
  split_and!; [|done..|].
  - rewrite getData_data, (numbers_data n) by done. f_equal. simpl.
    unfold GridClass.create2DArray, create2DArray.
    by rewrite !fmap_replicate.
  - apply exportPuzzle_exports. simpl.
    apply Forall_replicate, Forall_replicate. done.
Qed.
